(** * Verification of [backend/services/llm_service.py]

    A shallow embedding of the prompt-budget and diagram-validation pipeline
    (repairer, validators, response parser, prompt budgeter and the retry
    loop of [analyze_repo_with_chat]) together with the properties of the
    specification that are stated about it.

    Python [str] values are sequences of Unicode code points: a character is
    a code point ([N]) and a text is a list of them, so that [len], slicing
    and [index] count what the interpreter counts.  The Unicode tables behind
    [str.isalnum] and [str.lower], the two renderers imported from
    [github_service] and the language model are parameters: the theorems
    hold for every choice of them, and the code is run on concrete inputs
    with the ASCII tables and plain renderers defined below. *)

From Stdlib Require Import String Ascii DecimalString.
From Stdlib Require Import List Bool Arith NArith Lia.
Import ListNotations.

Set Implicit Arguments.
Local Open Scope string_scope.
Local Open Scope list_scope.
Local Open Scope nat_scope.

(* ================================================================== *)
(** * Text: the Python [str] operations the service uses               *)
(* ================================================================== *)

Definition char := N.
Definition text := list char.

(** An ASCII literal of the source, as a text. *)
Definition lit (s : string) : text := map N_of_ascii (list_ascii_of_string s).

Definition char_eqb (a b : char) : bool := N.eqb a b.

Fixpoint text_eqb (a b : text) : bool :=
  match a, b with
  | [], [] => true
  | x :: a', y :: b' => char_eqb x y && text_eqb a' b'
  | _, _ => false
  end.

(** [str(n)] for a non-negative integer. *)
Definition str_of_nat (n : nat) : text :=
  lit (NilZero.string_of_uint (Nat.to_uint n)).

(** Code points for which [str.isspace] holds; [str.strip] and the regular
    expression class [\s] both use this table. *)
Definition isspace (c : char) : bool :=
  ((9 <=? c) && (c <=? 13) || (28 <=? c) && (c <=? 32)
   || (c =? 133) || (c =? 160) || (c =? 5760)
   || (8192 <=? c) && (c <=? 8202)
   || (c =? 8232) || (c =? 8233) || (c =? 8239) || (c =? 8287)
   || (c =? 12288))%N.

Definition NL : char := 10%N.        (* '\n' *)
Definition LBRACKET : char := 91%N.  (* '[' *)
Definition RBRACKET : char := 93%N.  (* ']' *)
Definition LPAREN : char := 40%N.
Definition RPAREN : char := 41%N.
Definition LBRACE : char := 123%N.
Definition RBRACE : char := 125%N.
Definition DASH : char := 45%N.
Definition DOT : char := 46%N.
Definition GT : char := 62%N.
Definition SEMI : char := 59%N.
Definition UNDERSCORE : char := 95%N.

(** [s.startswith(p)] *)
Fixpoint startswith (p s : text) : bool :=
  match p, s with
  | [], _ => true
  | x :: p', y :: s' => char_eqb x y && startswith p' s'
  | _ :: _, [] => false
  end.

(** [s.endswith(p)] *)
Definition endswith (p s : text) : bool :=
  startswith (rev p) (rev s).

(** [p in s] *)
Fixpoint contains (p s : text) : bool :=
  startswith p s ||
  match s with
  | [] => false
  | _ :: s' => contains p s'
  end.

(** [s.index(p)]: the offset of the first occurrence; [None] stands for the
    [ValueError] raised when there is none. *)
Fixpoint index (p s : text) : option nat :=
  if startswith p s then Some 0
  else match s with
       | [] => None
       | _ :: s' => option_map S (index p s')
       end.

(** [s[a:b]] for non-negative [a] and [b] (empty when [b <= a]). *)
Definition slice (a b : nat) (s : text) : text := firstn (b - a) (skipn a s).

Fixpoint lstrip (s : text) : text :=
  match s with
  | [] => []
  | c :: s' => if isspace c then lstrip s' else s
  end.

Definition rstrip (s : text) : text := rev (lstrip (rev s)).

(** [s.strip()] *)
Definition strip (s : text) : text := rstrip (lstrip s).

(** [s.split(c)] for a one-character separator. *)
Fixpoint split_on (c : char) (s : text) : list text :=
  match s with
  | [] => [[]]
  | x :: s' =>
      if char_eqb x c then [] :: split_on c s'
      else match split_on c s' with
           | l :: ls => (x :: l) :: ls
           | [] => [[x]]
           end
  end.

(** [s.split(sep)] for a separator of one or more characters.  [skip] counts
    the characters of a separator found earlier that are still to be passed
    over. *)
Fixpoint split_go (sep : text) (skip : nat) (s : text) : list text :=
  match s with
  | [] => [[]]
  | x :: s' =>
      match skip with
      | S k => split_go sep k s'
      | O =>
          if startswith sep s then [] :: split_go sep (length sep - 1) s'
          else match split_go sep 0 s' with
               | l :: ls => (x :: l) :: ls
               | [] => [[x]]
               end
      end
  end.

Definition split (sep s : text) : list text := split_go sep 0 s.

(** [s.split(c, 1)]: at most one split, at the first [c]. *)
Fixpoint split1 (c : char) (s : text) : list text :=
  match s with
  | [] => [[]]
  | x :: s' =>
      if char_eqb x c then [[]; s']
      else match split1 c s' with
           | l :: ls => (x :: l) :: ls
           | [] => [[x]]
           end
  end.

(** [sep.join(parts)] *)
Fixpoint join (sep : text) (parts : list text) : text :=
  match parts with
  | [] => []
  | [p] => p
  | p :: ps => p ++ sep ++ join sep ps
  end.

(** [s.count(c)] for a single character. *)
Fixpoint count (c : char) (s : text) : nat :=
  match s with
  | [] => 0
  | x :: s' => (if char_eqb x c then 1 else 0) + count c s'
  end.

(** Leftmost, non-overlapping substitution, the scan of [re.sub] and of
    [str.replace] for patterns that never match the empty string: at each
    position [m] says whether the pattern matches there, how many characters
    it consumes and what replaces them; scanning resumes after the match. *)
Fixpoint sub_go (m : text -> option (nat * text)) (skip : nat) (s : text) : text :=
  match s with
  | [] => []
  | x :: s' =>
      match skip with
      | S k => sub_go m k s'
      | O =>
          match m s with
          | Some (S n, r) => r ++ sub_go m n s'
          | _ => x :: sub_go m 0 s'
          end
      end
  end.

Definition re_sub (m : text -> option (nat * text)) (s : text) : text :=
  sub_go m 0 s.

(** [s.replace(old, new)] for a non-empty [old]. *)
Definition replace (old new s : text) : text :=
  re_sub (fun t => if startswith old t then Some (length old, new) else None) s.

(** Length of the longest prefix of [s] whose characters satisfy [p]:
    what a greedy [p+] or [p*] consumes. *)
Fixpoint run (p : char -> bool) (s : text) : nat :=
  match s with
  | [] => 0
  | c :: s' => if p c then S (run p s') else 0
  end.

(** The pattern [c{n,}>] at the start of [s], replaced by [r]. *)
Definition match_run_gt (c : char) (n : nat) (r : text) (s : text)
  : option (nat * text) :=
  let k := run (char_eqb c) s in
  if (n <=? k) && startswith [GT] (skipn k s) then Some (S k, r) else None.

(** The pattern [;+] at the start of [s], replaced by one semicolon. *)
Definition match_semis (s : text) : option (nat * text) :=
  match run (char_eqb SEMI) s with
  | O => None
  | k => Some (k, [SEMI])
  end.

(** The pattern [(\w+)\s+(\w+)(?=\s*$)] at the start of [s], replaced by
    [\1_\2].  No whitespace character is a word character, so each greedy
    group is a maximal run and backtracking finds no other match. *)
Definition match_ident_gap (isword : char -> bool) (s : text)
  : option (nat * text) :=
  let k1 := run isword s in
  let s1 := skipn k1 s in
  let k2 := run isspace s1 in
  let s2 := skipn k2 s1 in
  let k3 := run isword s2 in
  let s3 := skipn k3 s2 in
  if (1 <=? k1) && (1 <=? k2) && (1 <=? k3) && forallb isspace s3
  then Some (k1 + k2 + k3, firstn k1 s ++ [UNDERSCORE] ++ firstn k3 s2)
  else None.

Arguments char_eqb : simpl never.
Arguments match_run_gt : simpl never.
Arguments match_semis : simpl never.
Arguments match_ident_gap : simpl never.

Definition is_empty (s : text) : bool :=
  match s with [] => true | _ => false end.

(** [len(s)], as an unbounded integer. *)
Definition len (s : text) : N := N.of_nat (length s).

Definition EQUALS : char := 61%N.    (* '=' *)
Definition BACKTICK : char := 96%N.  (* '`' *)

(** A text on which the pattern [m] matches nowhere. *)
Definition quiet (m : text -> option (nat * text)) (s : text) : Prop :=
  forall i, m (skipn i s) = None.

(** A text is trimmed when it neither starts nor ends with whitespace. *)
Definition starts_clean (s : text) : bool :=
  match s with
  | [] => true
  | c :: _ => negb (isspace c)
  end.

Definition ends_clean (s : text) : bool := starts_clean (rev s).

Definition trimmed (s : text) : Prop :=
  starts_clean s = true /\ ends_clean s = true.

(* ================================================================== *)
(** * Data model                                                        *)
(* ================================================================== *)

(** A value of [file_contents]: raw text, or a record with [content] and an
    optional [purpose] tag. *)
Inductive file_data :=
| Raw (content : text)
| Info (content : text) (purpose : option text).

(** [file_structure]: a mapping from path segment to a nested mapping
    (directory) or to a leaf (file).  Python dictionaries keep insertion
    order, which the traversal follows, hence association lists. *)
#[warnings="-register-all"]
Inductive node :=
| Leaf
| Folder (entries : list (text * node)).

(** [repo_data].  A field read with a non-empty default is optional; a
    missing [readme], [file_structure] or [file_contents] reads as the empty
    value, and missing [stars] or [forks] as 0. *)
Record repo_data := {
  name : option text;
  language : option text;
  description : option text;
  stars : nat;
  forks : nat;
  readme : text;
  file_structure : list (text * node);
  file_contents : list (text * file_data)
}.

(** The keys of the [components] dictionary. *)
Inductive bucket :=
| frontend_files | backend_files | services | routes | models
| components_ | pages | utils | config_files | database_files
| api_endpoints | dependencies | folders | all_files.

Scheme Equality for bucket.

Definition components := bucket -> list text.

(** [components[b].append(p)] *)
Definition append_to (b : bucket) (p : text) (c : components) : components :=
  fun b' => if bucket_beq b b' then c b' ++ [p] else c b'.

(** One entry of [chat_history], after the [.get] defaults. *)
Record turn := { role : text; turn_content : text }.

Inductive message :=
| SystemMessage (content : text)
| HumanMessage (content : text)
| AIMessage (content : text).

(** What [llm.invoke] does: it returns a response, or raises an exception
    [e], of which the service reads only [str(e)]. *)
Inductive outcome :=
| Reply (content : text)
| Raise (err : text).

(** The model is an external collaborator: its outcome may depend on the
    messages and on how many invocations came before. *)
Definition model := nat -> list message -> outcome.

(** The dictionary returned by [analyze_repo_with_chat]. *)
Record analysis := {
  answer : text;
  mermaid_code : option text;
  diagram_type : option text;
  has_diagram : bool;
  follow_up_questions : list text;
  repo_name : text
}.

(** The variables of the retry loop, and the log of the invocations made so
    far (each with the messages it was given). *)
Record loop_state := {
  messages : list message;
  attempt : nat;
  last_answer : text;
  calls : list (list message)
}.

(** One pass through the loop body ends in [continue] or in [return]. *)
Inductive step :=
| Continue (st : loop_state)
| Return (r : analysis) (st : loop_state).

(** Where [analyze_repo_with_chat] returned from. *)
Inductive exit := FromLoop | Fallback.

(* ================================================================== *)
(** * Constants                                                         *)
(* ================================================================== *)

Definition MAX_CONTEXT_CHARS : N := 480000.
Definition MAX_FILE_CONTENTS_CHARS : N := 300000.
Definition MAX_FILES_IN_PROMPT : nat := 40.
Definition max_retries : nat := 3.

Definition DIAGRAM_START : text := lit "[DIAGRAM_START]".
Definition DIAGRAM_END : text := lit "[DIAGRAM_END]".
Definition FENCE : text := lit "```".
Definition FENCE_MERMAID : text := lit "```mermaid".
Definition RULE : text :=
  lit "==============================================================================".

(* ================================================================== *)
(** * Character tables and formatters used to run the code              *)
(* ================================================================== *)

(** [str.isalnum] on the ASCII range. *)
Definition ascii_isalnum (c : char) : bool :=
  ((48 <=? c) && (c <=? 57) || (65 <=? c) && (c <=? 90)
   || (97 <=? c) && (c <=? 122))%N.

(** [str.lower] on ASCII text. *)
Definition ascii_lower (s : text) : text :=
  map (fun c => if ((65 <=? c) && (c <=? 90))%N then (c + 32)%N else c) s.

Definition content_of (d : file_data) : text :=
  match d with Raw c => c | Info c _ => c end.

(** A plain renderer of file contents: each path, then its content. *)
Definition plain_file_contents (files : list (text * file_data)) (max_files : nat)
  : text :=
  concat (map (fun pd => fst pd ++ [NL] ++ content_of (snd pd) ++ [NL])
              (firstn max_files files)).

(** A plain renderer of the file tree: the top-level names, one per line. *)
Definition plain_file_structure (entries : list (text * node)) : text :=
  join [NL] (map fst entries).

(** Inputs on which the code is run below. *)

Definition numbered_files (n : nat) : list (text * file_data) :=
  map (fun i => (lit "src/file" ++ str_of_nat i ++ lit ".py", Raw (lit "pass")))
      (seq 0 n).

Definition repo_with (files : list (text * file_data)) : repo_data :=
  {| name := Some (lit "demo");
     language := Some (lit "Python");
     description := None;
     stars := 3;
     forks := 1;
     readme := lit "Demo project";
     file_structure :=
       [(lit "app.py", Leaf);
        (lit "backend", Folder [(lit "service.py", Leaf)])];
     file_contents := files |}.

Definition small_repo : repo_data := repo_with (numbered_files 5).
Definition large_repo : repo_data := repo_with (numbered_files 60).

(** One file whose rendering is longer than the file-contents cap. *)
Definition oversized_repo : repo_data :=
  repo_with [(lit "big.txt", Raw (repeat 120%N (N.to_nat 300001)))].

(** A model that rejects every prompt as too long. *)
Definition overflowing_model : model :=
  fun _ _ =>
    Raise (lit "Error code: 400 - This model's maximum context length is 128000 tokens (context_length_exceeded)").



(** A reply whose end marker comes before its start marker. *)
Definition reversed_markers_reply : text :=
  lit "See [DIAGRAM_END] above and [DIAGRAM_START] below".

Definition node_lines (n : nat) : list text :=
  map (fun i => lit "N" ++ str_of_nat i ++ lit "[file" ++ str_of_nat i ++ lit ".py]")
      (seq 0 n).

(** The diagrams of the two completeness scenarios: a header followed by
    node lines, and the same with the nodes inside one subgraph block. *)
Definition flat_diagram (nodes : list text) : text :=
  join [NL] (lit "flowchart TD" :: nodes).


Definition fenced_diagram : text :=
  lit "```mermaid" ++ [NL] ++ lit "graph TD" ++ [NL] ++ lit "```".

(** The number of files, and of directories, in a file tree. *)
Fixpoint tree_files (value : node) : nat :=
  match value with
  | Leaf => 1
  | Folder entries => list_sum (map (fun kv => tree_files (snd kv)) entries)
  end.

Fixpoint tree_folders (value : node) : nat :=
  match value with
  | Leaf => 0
  | Folder entries =>
      S (list_sum (map (fun kv => tree_folders (snd kv)) entries))
  end.

(** The buckets in which every categorized path is a path of [all_files]. *)
Definition categorized (c : components) : Prop :=
  forall b, b <> folders -> b <> dependencies -> incl (c b) (c all_files).

(** A message list made of a system message, then any messages, then a
    human message. *)
Definition prompt_shaped (msgs : list message) : Prop :=
  exists context middle request,
    msgs = SystemMessage context :: middle ++ [HumanMessage request].

(** The fields of a result agree with each other: [has_diagram] tells
    whether there is a diagram, a diagram has a type, and follow-up
    questions are three or, for a failure, none. *)
Definition coherent (r : analysis) : Prop :=
  (has_diagram r = true <-> mermaid_code r <> None)
  /\ (mermaid_code r = None <-> diagram_type r = None)
  /\ (length (follow_up_questions r) = 3
      \/ follow_up_questions r = [] /\ has_diagram r = false
         /\ startswith (lit "Error generating response: ") (answer r) = true).

(** A text with no three backticks in a row. *)
Definition calm (t : text) : Prop :=
  forall i, run (char_eqb BACKTICK) (skipn i t) <= 2.

(** The ASCII characters, on which [str.lower] is [ascii_lower]. *)
Definition is_ascii (c : char) : Prop := (c < 128)%N.

Definition BACKSLASH : char := 92%N.
Definition DOLLAR : char := 36%N.
Definition SLASH : char := 47%N.

Definition CR : char := 13%N.        (* '\r' *)

(** In a template literal a backtick ends the literal and [${] starts a
    substitution, unless escaped. *)
Definition ends_literal (x : char) (rest : text) : bool :=
  char_eqb x BACKTICK || char_eqb x DOLLAR && startswith [LBRACE] rest.

(** The characters that the escaping puts a backslash before. *)
Definition escapable (x : char) : bool :=
  char_eqb x BACKSLASH || char_eqb x BACKTICK || char_eqb x DOLLAR
  || char_eqb x SLASH.

(** The string that a JavaScript template literal with body [s] denotes,
    read from left to right.  [escaped] tells whether the character read
    next follows a backslash.  A backslash followed by a character that
    [may] be escaped denotes that character; a carriage return, alone or
    before a line feed, denotes a line feed; every other character denotes
    itself.  There is no value ([None]) when a character that [must] be
    escaped is not, when another character is escaped, or when the body
    ends on a backslash. *)
Fixpoint cooked (must : char -> text -> bool) (may : char -> bool)
    (escaped : bool) (s : text) : option text :=
  match s with
  | [] => if escaped then None else Some []
  | x :: s' =>
      if escaped then
        if may x then option_map (cons x) (cooked must may false s') else None
      else if char_eqb x BACKSLASH then cooked must may true s'
      else if must x s' then None
      else if char_eqb x CR then
        if startswith [NL] s' then cooked must may false s'
        else option_map (cons NL) (cooked must may false s')
      else option_map (cons x) (cooked must may false s')
  end.

Definition template_value (s : text) : option text :=
  cooked ends_literal escapable false s.

(** A text with its line ends [\r\n] and [\r] turned into [\n]. *)
Fixpoint universal_newlines (s : text) : text :=
  match s with
  | [] => []
  | x :: s' =>
      if char_eqb x CR then
        if startswith [NL] s' then universal_newlines s'
        else NL :: universal_newlines s'
      else x :: universal_newlines s'
  end.

(** The characters that the repair of a line adds or removes: whitespace,
    dashes, dots, equal signs, semicolons and underscores; and what a line
    holds besides them, in order. *)
Definition repairable (c : char) : bool :=
  isspace c || existsb (char_eqb c) [DASH; DOT; EQUALS; SEMI; UNDERSCORE].

Definition content (line : text) : text :=
  filter (fun c => negb (repairable c)) line.

(** The pattern [\w+\s+\w+\s+\w+(?=\s*$)] at the start of [t]: a word,
    whitespace, and then a match of the identifier pattern of the
    repairer, [(\w+)\s+(\w+)(?=\s*$)]. *)
Definition three_words (isword : char -> bool) (t : text) : bool :=
  let k1 := run isword t in
  let t1 := skipn k1 t in
  let k2 := run isspace t1 in
  let t2 := skipn k2 t1 in
  (1 <=? k1) && (1 <=? k2)
  && match match_ident_gap isword t2 with Some _ => true | None => false end.

(** The pattern matches somewhere in [t]: [t] ends with three words that
    only whitespace separates, and whitespace at most after them. *)
Fixpoint crowded (isword : char -> bool) (t : text) : bool :=
  match t with
  | [] => false
  | _ :: t' => three_words isword t || crowded isword t'
  end.
(* ================================================================== *)
(** * The service                                                       *)
(* ================================================================== *)

Section Service.

(** Unicode tables of the interpreter: [str.isalnum] (the class [\w] is
    alphanumeric or underscore) and [str.lower]. *)
Variable isalnum : char -> bool.
Variable lower : text -> text.

(** The renderers of [github_service], which this file only imports. *)
Variable format_file_contents : list (text * file_data) -> nat -> text.
Variable format_file_structure : list (text * node) -> text.

Definition isword (c : char) : bool := isalnum c || char_eqb c UNDERSCORE.

(** ** validate_diagram_completeness *)

Definition is_node_line (line : text) : bool :=
  contains [LBRACKET] line && contains [RBRACKET] line
  && negb (startswith (lit "%%") (strip line)).

Fixpoint count_nodes (lines : list text) : nat :=
  match lines with
  | [] => 0
  | line :: rest => (if is_node_line line then 1 else 0) + count_nodes rest
  end.

Definition min_nodes_for (file_count : nat) : nat :=
  if file_count <? 20 then 15
  else if file_count <? 50 then 25
  else 35.

Definition too_simple (node_count min_nodes : nat) : text :=
  lit "Diagram too simple: only " ++ str_of_nat node_count
  ++ lit " components (need " ++ str_of_nat min_nodes ++ lit "+)".

Definition missing_organization : text :=
  lit "Missing organization: no subgraphs used".

Definition validate_diagram_completeness (mermaid_code : text) (repo : repo_data)
  : bool * list text :=
  let lines := split_on NL mermaid_code in
  let node_count := count_nodes lines in
  let file_count := length (file_contents repo) in
  let min_nodes := min_nodes_for file_count in
  let issues :=
    if node_count <? min_nodes then [too_simple node_count min_nodes] else [] in
  let has_subgraphs := contains (lit "subgraph") (lower mermaid_code) in
  let issues :=
    if negb has_subgraphs && (10 <? file_count)
    then issues ++ [missing_organization] else issues in
  (length issues =? 0, issues).

(** ** validate_mermaid_syntax *)

Definition valid_types : list text :=
  [lit "sequenceDiagram"; lit "graph"; lit "flowchart"; lit "classDiagram";
   lit "erDiagram"; lit "stateDiagram"; lit "journey"; lit "gantt";
   lit "mindmap"; lit "pie"; lit "gitGraph"].

(** Lines left alone by the validator and by the repairer. *)
Definition is_blank_or_comment (line : text) : bool :=
  is_empty line || startswith (lit "%%") line.

Definition is_subgraph_or_end (line : text) : bool :=
  startswith (lit "subgraph") line || text_eqb line (lit "end").

Definition line_errors (i : nat) (line : text) : list text :=
  (if count LBRACKET line =? count RBRACKET line then []
   else [lit "Line " ++ str_of_nat i ++ lit ": Unmatched brackets"])
  ++ (if count LPAREN line =? count RPAREN line then []
      else [lit "Line " ++ str_of_nat i ++ lit ": Unmatched parentheses"])
  ++ (if count LBRACE line =? count RBRACE line then []
      else [lit "Line " ++ str_of_nat i ++ lit ": Unmatched braces"]).

(** The loop over [enumerate(lines[1:], 1)]. *)
Fixpoint check_lines (i : nat) (lines : list text) : list text :=
  match lines with
  | [] => []
  | l :: rest =>
      let line := strip l in
      (if is_blank_or_comment line then []
       else if is_subgraph_or_end line then []
       else line_errors i line)
      ++ check_lines (S i) rest
  end.

Definition validate_mermaid_syntax (mermaid_code : text) : bool * list text :=
  match split_on NL (strip mermaid_code) with
  | [] => (false, [lit "Empty diagram code"])
  | l0 :: rest =>
      let first_line := strip l0 in
      if negb (existsb (fun t => startswith t first_line) valid_types)
      then (false, [lit "Invalid diagram type: " ++ firstn 50 first_line])
      else
        let errors := check_lines 1 rest in
        (length errors =? 0, errors)
  end.

(** ** fix_mermaid_syntax *)

(** The removal of code fences that follows the first [strip]. *)
Definition strip_fences (code : text) : text :=
  if startswith FENCE_MERMAID code
  then strip (replace FENCE [] (replace FENCE_MERMAID [] code))
  else if startswith FENCE code
  then strip (replace FENCE [] code)
  else code.

(** The identifier repair applied when the line has a bracket, a
    parenthesis or an arrow. *)
Definition fix_node_id (line : text) : text :=
  if contains [LBRACKET] line || contains [LPAREN] line
     || contains (lit "-->") line || contains (lit "-..->") line
  then
    match split1 LBRACKET line with
    | before_bracket :: rest :: _ =>
        re_sub (match_ident_gap isword) before_bracket ++ [LBRACKET] ++ rest
    | _ => line
    end
  else line.

(** The body of the loop over the lines. *)
Definition fix_line (l : text) : text :=
  let line := strip l in
  if is_blank_or_comment line then line
  else if is_subgraph_or_end line then line
  else
    let line := re_sub (match_run_gt DASH 4 (lit "-->")) line in
    let line := re_sub (match_run_gt DOT 4 (lit "-..->")) line in
    let line := replace (lit "===>") (lit "-->") line in
    let line := replace (lit "....>") (lit "-..->") line in
    let line := fix_node_id line in
    re_sub match_semis line.

Definition fix_mermaid_syntax (mermaid_code : text) : text :=
  let code := strip_fences (strip mermaid_code) in
  join [NL] (map fix_line (split_on NL code)).

(** ** clean_mermaid_code, detect_diagram_type *)

Definition clean_mermaid_code (mermaid_code : text) : text :=
  let cleaned := fix_mermaid_syntax mermaid_code in
  let '(is_valid, errors) := validate_mermaid_syntax cleaned in
  cleaned.

Definition detect_diagram_type (mermaid_code : text) : text :=
  let code_lower := strip (lower mermaid_code) in
  if startswith (lit "sequencediagram") code_lower then lit "sequence"
  else if startswith (lit "flowchart") code_lower
          || startswith (lit "graph") code_lower then lit "flowchart"
  else if startswith (lit "classdiagram") code_lower then lit "class"
  else if startswith (lit "erdiagram") code_lower then lit "database"
  else if startswith (lit "statediagram") code_lower then lit "state"
  else lit "custom".

(** ** extract_diagram_from_response *)

Definition extract_diagram_from_response (response_text : text)
  : text * option text * option text :=
  let answer := strip response_text in
  if contains DIAGRAM_START answer && contains DIAGRAM_END answer then
    match index DIAGRAM_START answer, index DIAGRAM_END answer with
    | Some i, Some j =>
        let start_idx := i + length DIAGRAM_START in
        let end_idx := j in
        let raw_code := strip (slice start_idx end_idx answer) in
        let mermaid_code := clean_mermaid_code raw_code in
        let diagram_type := detect_diagram_type mermaid_code in
        (strip (firstn i answer), Some mermaid_code, Some diagram_type)
    | _, _ => (answer, None, None)   (* the [except] branch *)
    end
  else (answer, None, None).

(** ** generate_follow_up_questions *)

Definition generate_follow_up_questions (answer : text) (has_diagram : bool)
    (diagram_type : option text) : list text :=
  if has_diagram then
    [lit "Add more implementation details to the diagram";
     lit "Show error handling and edge cases";
     lit "Include deployment and infrastructure"]
  else
    [lit "Create a comprehensive architecture diagram";
     lit "Show complete data flow with all components";
     lit "Generate detailed sequence diagram"].

(** ** extract_detailed_repo_components *)

Definition empty_components : components := fun _ => [].

Definition append_if (b : bool) (k : bucket) (p : text) (c : components)
  : components :=
  if b then append_to k p c else c.

(** What the traversal does with the path of a leaf. *)
Definition classify (current_path : text) (c : components) : components :=
  let c := append_to all_files current_path c in
  let p := lower current_path in
  let has k := contains (lit k) p in
  let c := append_if (has "frontend" || has "client") frontend_files current_path c in
  let c := append_if (has "backend" || has "server") backend_files current_path c in
  let c := append_if (has "service") services current_path c in
  let c := append_if (has "route" || has "router") routes current_path c in
  let c := append_if (has "model" || has "schema") models current_path c in
  let c := append_if (has "component") components_ current_path c in
  let c := append_if (has "page" || has "view") pages current_path c in
  let c := append_if (has "util" || has "helper") utils current_path c in
  let c := append_if
             (existsb (fun e => endswith (lit e) current_path)
                      [".json"; ".yaml"; ".yml"; ".env"; ".toml"; ".ini"])
             config_files current_path c in
  append_if (has "database" || has "/db" || endswith (lit ".sql") current_path)
            database_files current_path c.

(** One item [(key, value)] of the dictionary visited under [path]. *)
Fixpoint traverse_item (path key : text) (value : node) (c : components)
  : components :=
  let current_path := if is_empty path then key else path ++ lit "/" ++ key in
  match value with
  | Folder entries =>
      (fix items (es : list (text * node)) (c : components) : components :=
         match es with
         | [] => c
         | (k, v) :: es' => items es' (traverse_item current_path k v c)
         end) entries (append_to folders current_path c)
  | Leaf => classify current_path c
  end.

Definition traverse_structure (obj : list (text * node)) (c : components)
  : components :=
  fold_left (fun c kv => traverse_item [] (fst kv) (snd kv) c) obj c.

(** The dependency names read from one line of a manifest. *)
Definition dependency_of (line : text) : text :=
  strip (hd [] (split (lit ">=") (hd [] (split (lit "==") line)))).

Definition is_manifest (filename : text) : bool :=
  contains (lit "requirements.txt") filename
  || contains (lit "package.json") filename
  || contains (lit "pyproject.toml") filename.

Definition scan_manifest (content : text) (c : components) : components :=
  fold_left
    (fun c l =>
       let line := strip l in
       if negb (is_empty line) && negb (startswith (lit "#") line)
       then append_to dependencies (dependency_of line) c else c)
    (firstn 50 (split_on NL content)) c.

Definition extract_detailed_repo_components (repo : repo_data) : components :=
  let c := traverse_structure (file_structure repo) empty_components in
  fold_left
    (fun c fd =>
       match snd fd with
       | Raw content => if is_manifest (fst fd) then scan_manifest content c else c
       | Info _ _ => c
       end)
    (file_contents repo) c.

(** ** build_trimmed_file_contents *)

Definition priority_purposes : list text :=
  [lit "api"; lit "service"; lit "data_model"; lit "middleware";
   lit "configuration"].

Definition purpose_of (data : file_data) : text :=
  match data with
  | Info _ (Some p) => p
  | _ => []
  end.

Definition is_priority (data : file_data) : bool :=
  existsb (text_eqb (purpose_of data)) priority_purposes.

(** The files handed to the formatter: priority entries first, the remaining
    slots filled with the others, both in encounter order. *)
Definition trimmed_files (files : list (text * file_data)) (max_files : nat)
  : list (text * file_data) :=
  let priority := filter (fun pd => is_priority (snd pd)) files in
  let others := filter (fun pd => negb (is_priority (snd pd))) files in
  let trimmed := firstn max_files priority in
  let remaining_slots := max_files - length trimmed in
  if 0 <? remaining_slots then trimmed ++ firstn remaining_slots others
  else trimmed.

Definition truncation_marker (max_files total_files : nat) : text :=
  [NL; NL] ++ lit "... [TRUNCATED: showing " ++ str_of_nat max_files ++ lit "/"
  ++ str_of_nat total_files ++ lit " files to stay within token limit]".

Definition build_trimmed_file_contents (repo : repo_data) (max_chars : N)
    (max_files : nat) : text :=
  let total_files := length (file_contents repo) in
  if total_files =? 0 then lit "(no files)"
  else
    let trimmed := trimmed_files (file_contents repo) max_files in
    let formatted := format_file_contents trimmed max_files in
    if (max_chars <? len formatted)%N
    then firstn (N.to_nat max_chars) formatted
         ++ truncation_marker max_files total_files
    else formatted.

(** ** analyze_repo_with_chat: the prompt *)

Definition fmt_list (items : list text) : text :=
  let limit := 30 in
  let shown := firstn limit items in
  let s := join [NL] (map (fun f => lit "   - " ++ f) shown) in
  let s := if limit <? length items
           then s ++ [NL] ++ lit "   ... and " ++ str_of_nat (length items - limit)
                ++ lit " more"
           else s in
  if is_empty s then lit "   (none)" else s.

Definition or_default (d : string) (v : option text) : text :=
  match v with Some t => t | None => lit d end.

Definition bucket_line (icon : text) (title : string) (items : list text) : text :=
  icon ++ lit title ++ str_of_nat (length items) ++ lit "): " ++ fmt_list items
  ++ [NL].

Definition metadata_section (repo : repo_data) (file_count : nat) : text :=
  [NL] ++ RULE ++ [NL] ++ lit "REPOSITORY ANALYSIS" ++ [NL] ++ RULE ++ [NL; NL]
  ++ lit "Repository: " ++ or_default "Unknown" (name repo) ++ [NL]
  ++ lit "Language: " ++ or_default "Unknown" (language repo) ++ [NL]
  ++ lit "Total Files: " ++ str_of_nat file_count ++ [NL]
  ++ lit "Stars: " ++ str_of_nat (stars repo) ++ lit " | Forks: "
  ++ str_of_nat (forks repo) ++ [NL]
  ++ lit "Description: " ++ or_default "N/A" (description repo) ++ [NL; NL].

Definition structure_section (repo : repo_data) : text :=
  RULE ++ [NL] ++ lit "FILE STRUCTURE:" ++ [NL] ++ RULE ++ [NL]
  ++ format_file_structure (file_structure repo) ++ [NL; NL].

Definition components_section (c : components) : text :=
  RULE ++ [NL] ++ lit "CATEGORIZED COMPONENTS:" ++ [NL] ++ RULE ++ [NL; NL]
  ++ [128193%N] ++ lit " FOLDERS (" ++ str_of_nat (length (c folders))
  ++ lit "):" ++ [NL] ++ fmt_list (c folders) ++ [NL; NL]
  ++ bucket_line [127912%N] " FRONTEND (" (c frontend_files)
  ++ bucket_line [9881%N; 65039%N] " BACKEND (" (c backend_files)
  ++ bucket_line [128295%N] " SERVICES (" (c services)
  ++ bucket_line [128739%N; 65039%N] " ROUTES (" (c routes)
  ++ bucket_line [128202%N] " MODELS (" (c models)
  ++ bucket_line [129513%N] " COMPONENTS (" (c components_)
  ++ bucket_line [128196%N] " PAGES (" (c pages)
  ++ bucket_line [128736%N; 65039%N] " UTILS (" (c utils)
  ++ bucket_line [128190%N] " DATABASE (" (c database_files)
  ++ [NL].

Definition contents_section (file_contents_section : text) : text :=
  RULE ++ [NL] ++ lit "FILE CONTENTS (top " ++ str_of_nat MAX_FILES_IN_PROMPT
  ++ lit " most important files):" ++ [NL] ++ RULE ++ [NL]
  ++ file_contents_section ++ [NL; NL].

Definition readme_section (repo : repo_data) : text :=
  RULE ++ [NL] ++ lit "README:" ++ [NL] ++ RULE ++ [NL]
  ++ firstn 5000 (readme repo) ++ [NL; NL].

Definition requirements_section (min_nodes file_count : nat) : text :=
  RULE ++ [NL] ++ lit "DIAGRAM REQUIREMENTS:" ++ [NL] ++ RULE ++ [NL; NL]
  ++ lit "1. Include minimum " ++ str_of_nat min_nodes
  ++ lit " components (this repo has " ++ str_of_nat file_count ++ lit " files)"
  ++ [NL]
  ++ lit "2. Use subgraphs for each major folder" ++ [NL]
  ++ lit "3. Use actual filenames - NO generic names like " ++ [34%N]
  ++ lit "Service" ++ [34%N] ++ lit " or " ++ [34%N] ++ lit "Component"
  ++ [34%N; NL]
  ++ lit "4. Node IDs: ONLY letters, numbers, underscores (no spaces)" ++ [NL]
  ++ lit "5. Arrows: ONLY --> or -.-> or ==>" ++ [NL]
  ++ lit "6. Wrap diagram in [DIAGRAM_START] ... [DIAGRAM_END]" ++ [NL]
  ++ lit "7. NO markdown code blocks inside the diagram tags" ++ [NL].

Definition file_count_of (repo : repo_data) : nat :=
  length (extract_detailed_repo_components repo all_files).

Definition min_nodes_of (repo : repo_data) : nat :=
  Nat.max 15 (file_count_of repo / 2).

(** The f-string assigned to [context]. *)
Definition full_context (repo : repo_data) : text :=
  let c := extract_detailed_repo_components repo in
  let file_count := file_count_of repo in
  metadata_section repo file_count
  ++ structure_section repo
  ++ components_section c
  ++ contents_section
       (build_trimmed_file_contents repo MAX_FILE_CONTENTS_CHARS MAX_FILES_IN_PROMPT)
  ++ readme_section repo
  ++ requirements_section (min_nodes_of repo) file_count.

(** [context] after the sanity check on its length. *)
Definition build_context (repo : repo_data) : text :=
  let context := full_context repo in
  if (MAX_CONTEXT_CHARS <? len context)%N
  then firstn (N.to_nat MAX_CONTEXT_CHARS) context
       ++ [NL; NL] ++ lit "[CONTEXT TRUNCATED TO FIT TOKEN LIMIT]"
  else context.

(** The messages of one turn of [chat_history[-6:]]. *)
Definition history_message (t : turn) : list message :=
  if text_eqb (role t) (lit "user") then [HumanMessage (turn_content t)]
  else if text_eqb (role t) (lit "assistant")
  then [AIMessage (firstn 2000 (turn_content t))]
  else [].

Definition last_n {A} (n : nat) (l : list A) : list A := skipn (length l - n) l.

Definition initial_messages (repo : repo_data) (question : text)
    (chat_history : list turn) : list message :=
  [SystemMessage (build_context repo)]
  ++ flat_map history_message (last_n 6 chat_history)
  ++ [HumanMessage question].

(** ** analyze_repo_with_chat: the retry loop *)

Definition is_context_error (err : text) : bool :=
  contains (lit "context_length_exceeded") err
  || contains (lit "maximum context length") err.

Definition syntax_feedback (syntax_errors : list text) : text :=
  lit "SYNTAX ERRORS: " ++ join (lit ", ") (firstn 3 syntax_errors)
  ++ lit ". Fix node IDs (no spaces, use underscores) and bracket matching. Regenerate.".

Definition completeness_feedback (completeness_issues : list text)
    (min_nodes : nat) : text :=
  lit "DIAGRAM TOO SIMPLE: " ++ join (lit ", ") completeness_issues
  ++ lit ". Include at least " ++ str_of_nat min_nodes
  ++ lit " components with subgraphs. Use real filenames. Regenerate.".

(** The system prompt rebuilt after a context-length error. *)
Definition degraded_context (repo : repo_data) (context : text) : text :=
  let reduced_contents := build_trimmed_file_contents repo 80000%N 15 in
  let trimmed_context := hd [] (split (lit "FILE CONTENTS") context) in
  trimmed_context ++ lit "FILE CONTENTS (reduced due to token limit):" ++ [NL]
  ++ RULE ++ [NL] ++ reduced_contents.

(** [messages[0] = m] *)
Definition set_first (m : message) (msgs : list message) : list message :=
  match msgs with
  | [] => []
  | _ :: rest => m :: rest
  end.

(** The result returned from inside the [try] block. *)
Definition accepted (repo : repo_data) (answer : text) (mermaid_code : option text)
    (diagram_type : option text) : analysis :=
  let present := match mermaid_code with Some _ => true | None => false end in
  {| answer := answer;
     mermaid_code := mermaid_code;
     diagram_type := diagram_type;
     has_diagram := present;
     follow_up_questions := generate_follow_up_questions answer present diagram_type;
     repo_name := or_default "Unknown" (name repo) |}.

(** The result returned from the [except] block. *)
Definition failed (repo : repo_data) (err : text) : analysis :=
  {| answer := lit "Error generating response: " ++ err;
     mermaid_code := None;
     diagram_type := None;
     has_diagram := false;
     follow_up_questions := [];
     repo_name := or_default "Unknown" (name repo) |}.

(** The result returned after the loop. *)
Definition unable (repo : repo_data) (answer : text) : analysis :=
  {| answer := if is_empty answer then lit "Unable to generate response" else answer;
     mermaid_code := None;
     diagram_type := None;
     has_diagram := false;
     follow_up_questions := [];
     repo_name := or_default "Unknown" (name repo) |}.

(** [continue] after [attempt += 1], with the given messages. *)
Definition retry (st : loop_state) (msgs : list message) (answer : text) : step :=
  Continue {| messages := msgs;
              attempt := S (attempt st);
              last_answer := answer;
              calls := calls st |}.

(** The body of the [while] loop: one invocation of the model and what
    follows it. *)
Definition loop_body (llm : model) (repo : repo_data) (context : text)
    (st0 : loop_state) : step :=
  let st := {| messages := messages st0;
               attempt := attempt st0;
               last_answer := last_answer st0;
               calls := calls st0 ++ [messages st0] |} in
  let more := attempt st <? max_retries - 1 in
  match llm (length (calls st0)) (messages st0) with
  | Reply answer_text =>
      let '(answer, mermaid_code, diagram_type) :=
        extract_diagram_from_response answer_text in
      let st' := {| messages := messages st;
                    attempt := attempt st;
                    last_answer := answer;
                    calls := calls st |} in
      match mermaid_code with
      | Some ((_ :: _) as code) =>
          let code := fix_mermaid_syntax code in
          let '(is_valid_syntax, syntax_errors) := validate_mermaid_syntax code in
          let '(is_complete, completeness_issues) :=
            validate_diagram_completeness code repo in
          if negb is_valid_syntax && more then
            retry st
              (messages st ++ [AIMessage (firstn 1000 answer_text);
                               HumanMessage (syntax_feedback syntax_errors)])
              answer
          else if negb is_complete && more then
            retry st
              (messages st ++ [AIMessage (firstn 1000 answer_text);
                               HumanMessage
                                 (completeness_feedback completeness_issues
                                    (min_nodes_of repo))])
              answer
          else Return (accepted repo answer (Some code) diagram_type) st'
      | _ => Return (accepted repo answer mermaid_code diagram_type) st'
      end
  | Raise err =>
      if is_context_error err && more then
        retry st
          (set_first (SystemMessage (degraded_context repo context)) (messages st))
          (last_answer st)
      else if more then retry st (messages st) (last_answer st)
      else Return (failed repo err) st
  end.

(** [while attempt < max_retries: ...], then the return after the loop.
    [fuel] bounds the number of times the loop condition is tested. *)
Fixpoint while_loop (fuel : nat) (llm : model) (repo : repo_data) (context : text)
    (st : loop_state) : option (exit * analysis * loop_state) :=
  match fuel with
  | O => None
  | S fuel' =>
      if attempt st <? max_retries then
        match loop_body llm repo context st with
        | Continue st' => while_loop fuel' llm repo context st'
        | Return r st' => Some (FromLoop, r, st')
        end
      else Some (Fallback, unable repo (last_answer st), st)
  end.

Definition initial_state (repo : repo_data) (question : text)
    (chat_history : list turn) : loop_state :=
  {| messages := initial_messages repo question chat_history;
     attempt := 0;
     last_answer := [];
     calls := [] |}.

(** The whole call: how it returned, the result, and the final loop state. *)
Definition analyze_repo_with_chat (llm : model) (repo : repo_data)
    (question : text) (chat_history : list turn)
  : option (exit * analysis * loop_state) :=
  while_loop (S max_retries) llm repo (build_context repo)
             (initial_state repo question chat_history).

(* ================================================================== *)
(** * The renderer: [frontend/components/mermaid_renderer.py]           *)
(* ================================================================== *)

(** ** validate_and_fix_mermaid_syntax *)

(** The identifier repair of the renderer, applied when the line has an
    arrow. *)
Definition renderer_fix_node_id (line : text) : text :=
  if contains (lit "-->") line || contains (lit "-..->") line
     || contains (lit "==>") line
  then
    match split1 LBRACKET line with
    | before_bracket :: rest :: _ =>
        re_sub (match_ident_gap isword) before_bracket ++ [LBRACKET] ++ rest
    | _ => line
    end
  else line.

(** The body of the loop over the lines: the line appended to
    [fixed_lines] and what is appended to [errors]. *)
Definition renderer_fix_line (original_line : text) : text * list text :=
  let line := strip original_line in
  if is_blank_or_comment line then (line, [])
  else if is_subgraph_or_end line then (line, [])
  else
    let line := re_sub (match_run_gt DASH 3 (lit "-->")) line in
    let line := re_sub (match_run_gt DOT 3 (lit "-..->")) line in
    let line := renderer_fix_node_id line in
    (line,
     if text_eqb line (strip original_line) then []
     else [lit "Fixed: " ++ firstn 50 (strip original_line) ++ lit "..."]).

(** The text that is split into lines: trimmed, without code fences and
    without diagram markers. *)
Definition renderer_prepare (mermaid_code : text) : text :=
  let fixed_code := strip_fences (strip mermaid_code) in
  strip (replace DIAGRAM_END [] (replace DIAGRAM_START [] fixed_code)).

Definition validate_and_fix_mermaid_syntax (mermaid_code : text)
  : text * list text :=
  let results := map renderer_fix_line (split_on NL (renderer_prepare mermaid_code)) in
  (join [NL] (map fst results), concat (map snd results)).

(** ** render_mermaid: the escaping of the code put in the page *)

Definition safe_mermaid_code (fixed_code : text) : text :=
  replace (lit "</script>") (lit "<\/script>")
    (replace (lit "${") (lit "\${")
       (replace [BACKTICK] [BACKSLASH; BACKTICK]
          (replace [BACKSLASH] [BACKSLASH; BACKSLASH] fixed_code))).


(** ** Standard output of the parser *)



(** ** Lines that one repair settles *)

(** A line on which a second repair has nothing left to do: a line the
    repairer leaves alone (blank, comment, [subgraph] or [end]), or a
    line that has no [--===>] and whose first bracket does not follow
    three words separated by whitespace. *)
Definition settled (l : text) : bool :=
  let line := strip l in
  is_blank_or_comment line || is_subgraph_or_end line
  || negb (contains (lit "--===>") line)
     && negb (contains [LBRACKET] line
              && crowded isword (hd [] (split1 LBRACKET line))).
(* ================================================================== *)
(** * Facts about the text operations                                   *)
(* ================================================================== *)

Lemma char_eqb_refl (c : char) : char_eqb c c = true.
Proof. apply N.eqb_refl. Qed.

Lemma char_eqb_eq (a b : char) : char_eqb a b = true <-> a = b.
Proof. apply N.eqb_eq. Qed.

Lemma char_eqb_neq (a b : char) : char_eqb a b = false <-> a <> b.
Proof. apply N.eqb_neq. Qed.

Lemma startswith_app (p rest : text) : startswith p (p ++ rest) = true.
Proof.
  induction p as [|x p IH]; simpl; [reflexivity|].
  now rewrite char_eqb_refl, IH.
Qed.

Lemma startswith_prefix (p s : text) :
  startswith p s = true -> exists rest, s = p ++ rest.
Proof.
  revert s; induction p as [|x p IH]; intros s H; simpl in *.
  - now exists s.
  - destruct s as [|y s]; [discriminate|].
    apply andb_true_iff in H as [Hxy Hp].
    apply char_eqb_eq in Hxy; subst y.
    destruct (IH _ Hp) as [rest ->]. now exists rest.
Qed.

Lemma contains_at_start (p s : text) :
  startswith p s = true -> contains p s = true.
Proof.
  intros H. destruct s; simpl; now rewrite H.
Qed.

(** An occurrence anywhere is found by [in]. *)
Lemma contains_occurrence (p before after : text) :
  contains p (before ++ p ++ after) = true.
Proof.
  induction before as [|x before IH]; simpl.
  - apply contains_at_start, startswith_app.
  - rewrite IH. apply orb_true_r.
Qed.

Lemma contains_suffix (p s : text) : contains p (s ++ p) = true.
Proof.
  rewrite <- (app_nil_r p) at 2. apply contains_occurrence.
Qed.


Lemma lstrip_blank (s : text) : forallb isspace s = true -> lstrip s = [].
Proof.
  induction s as [|c s IH]; simpl; [reflexivity|].
  intros H. apply andb_true_iff in H as [Hc Hs]. now rewrite Hc, IH.
Qed.

Lemma strip_blank (s : text) : forallb isspace s = true -> strip s = [].
Proof.
  intros H. unfold strip. now rewrite lstrip_blank.
Qed.

(* ================================================================== *)
(** * The retry loop                                                    *)
(* ================================================================== *)

Ltac split_cases :=
  repeat match goal with
         | |- context [match ?x with _ => _ end] => destruct x eqn:?
         | |- context [if ?b then _ else _] => destruct b eqn:?
         end.

(** A pass that continues had attempts left, counted one attempt and made
    one invocation. *)
Lemma loop_body_continue llm repo context st st' :
  loop_body llm repo context st = Continue st' ->
  attempt st < max_retries - 1
  /\ attempt st' = S (attempt st)
  /\ calls st' = calls st ++ [messages st].
Proof.
  unfold loop_body, retry; cbv zeta; cbn [attempt messages calls last_answer].
  destruct (attempt st <? max_retries - 1) eqn:More.
  - apply Nat.ltb_lt in More. intros H.
    assert (attempt st' = S (attempt st)
            /\ calls st' = calls st ++ [messages st]) as [? ?]; [|auto].
    revert H. split_cases; intros H; inversion H; subst; cbn; auto.
  - split_cases; intros H; try discriminate;
      rewrite andb_false_r in *; discriminate.
Qed.

(** A pass that returns made one invocation and counted no attempt. *)
Lemma loop_body_return llm repo context st r st' :
  loop_body llm repo context st = Return r st' ->
  attempt st' = attempt st
  /\ calls st' = calls st ++ [messages st].
Proof.
  unfold loop_body, retry; cbv zeta; cbn [attempt messages calls last_answer].
  split_cases; intros H; inversion H; subst; cbn; auto.
Qed.

(** From any state the loop can be in, it returns from its body, having
    made one invocation per pass. *)
Lemma while_loop_returns llm repo context fuel st :
  attempt st < max_retries ->
  max_retries - attempt st <= fuel ->
  length (calls st) = attempt st ->
  exists r st',
    while_loop fuel llm repo context st = Some (FromLoop, r, st')
    /\ attempt st' < max_retries
    /\ length (calls st') = S (attempt st').
Proof.
  revert st; induction fuel as [|fuel IH]; intros st Hlt Hfuel Hcalls.
  - lia.
  - simpl. apply Nat.ltb_lt in Hlt as Hb. rewrite Hb.
    destruct (loop_body llm repo context st) as [st1|r st1] eqn:Body.
    + apply loop_body_continue in Body as (Hmore & Hatt & Hlog).
      unfold max_retries in *.
      apply IH; [lia|lia|]. rewrite Hlog, length_app, Hcalls, Hatt. simpl. lia.
    + apply loop_body_return in Body as (Hatt & Hlog).
      exists r, st1. repeat split; [lia|].
      rewrite Hlog, length_app, Hcalls, Hatt. simpl. lia.
Qed.

(** However much fuel is given, the statement after the loop is not reached. *)
Lemma while_loop_stays_inside llm repo context fuel st :
  attempt st < max_retries ->
  match while_loop fuel llm repo context st with
  | Some (Fallback, _, _) => False
  | _ => True
  end.
Proof.
  revert st; induction fuel as [|fuel IH]; intros st Hlt; simpl; [exact I|].
  apply Nat.ltb_lt in Hlt as Hb. rewrite Hb.
  destruct (loop_body llm repo context st) as [st1|r st1] eqn:Body; [|exact I].
  apply loop_body_continue in Body as (Hmore & Hatt & _).
  apply IH. unfold max_retries in *. lia.
Qed.

(** A context-length error with attempts left: the system message is
    replaced by the degraded prompt and the attempt is counted. *)
Lemma loop_body_overflow llm repo context st err :
  llm (length (calls st)) (messages st) = Raise err ->
  is_context_error err = true ->
  attempt st < max_retries - 1 ->
  loop_body llm repo context st
  = Continue {| messages := set_first (SystemMessage (degraded_context repo context))
                                      (messages st);
                attempt := S (attempt st);
                last_answer := last_answer st;
                calls := calls st ++ [messages st] |}.
Proof.
  intros Hllm Herr Hmore. unfold loop_body, retry; cbv zeta.
  cbn [attempt messages calls last_answer].
  apply Nat.ltb_lt in Hmore. now rewrite Hllm, Herr, Hmore.
Qed.

(** Any failure on the last attempt is returned as the answer. *)
Lemma loop_body_last_failure llm repo context st err :
  llm (length (calls st)) (messages st) = Raise err ->
  attempt st = max_retries - 1 ->
  loop_body llm repo context st
  = Return (failed repo err)
           {| messages := messages st;
              attempt := attempt st;
              last_answer := last_answer st;
              calls := calls st ++ [messages st] |}.
Proof.
  intros Hllm Hlast. unfold loop_body, retry; cbv zeta.
  cbn [attempt messages calls last_answer].
  rewrite Hllm, Hlast. cbn. now rewrite andb_false_r.
Qed.

Lemma degraded_context_mentions_reduction repo context :
  contains (lit "reduced due to token limit") (degraded_context repo context) = true.
Proof.
  unfold degraded_context; cbv zeta.
  change (lit "FILE CONTENTS (reduced due to token limit):")
    with (lit "FILE CONTENTS (" ++ lit "reduced due to token limit" ++ lit "):").
  rewrite <- !app_assoc. rewrite (app_assoc _ (lit "FILE CONTENTS (")).
  apply contains_occurrence.
Qed.

Lemma fix_mermaid_syntax_empty : fix_mermaid_syntax [] = [].
Proof. reflexivity. Qed.





(* ================================================================== *)
(** * Properties of the orchestration loop                              *)
(* ================================================================== *)

Lemma initial_state_ready repo question chat_history :
  attempt (initial_state repo question chat_history) < max_retries
  /\ length (calls (initial_state repo question chat_history))
     = attempt (initial_state repo question chat_history).
Proof. unfold max_retries; simpl; lia. Qed.

(** C7.  [analyze_repo_with_chat] terminates with a result, invokes the
    model at most 3 times, and the attempts it has counted when it returns
    are one fewer than its invocations: every counted retry stands for
    exactly one further call of the model. *)
Theorem analyze_invocations_bounded llm repo question chat_history :
  exists e r st,
    analyze_repo_with_chat llm repo question chat_history = Some (e, r, st)
    /\ length (calls st) <= max_retries
    /\ length (calls st) = S (attempt st).
Proof.
  destruct (initial_state_ready repo question chat_history) as [Hlt Hlog].
  destruct (while_loop_returns llm repo (build_context repo) (fuel := S max_retries)
              (initial_state repo question chat_history) Hlt)
    as (r & st & Hrun & Hatt & Hcalls); [lia|exact Hlog|].
  exists FromLoop, r, st. split; [exact Hrun|]. split; lia.
Qed.

(** C10.  The return that follows the loop (the default result "Unable to
    generate response") is never reached: whatever the model does, the call
    returns from inside the loop, in a pass whose attempt number is below 3,
    and no amount of fuel leads to the statement after the loop; for a pass
    that does not return counts an attempt only while attempts remain. *)
Theorem fallback_return_unreachable llm repo question chat_history :
  (exists r st,
      analyze_repo_with_chat llm repo question chat_history = Some (FromLoop, r, st)
      /\ attempt st < max_retries)
  /\ (forall fuel,
         match while_loop fuel llm repo (build_context repo)
                          (initial_state repo question chat_history) with
         | Some (Fallback, _, _) => False
         | _ => True
         end)
  /\ (forall st st',
         loop_body llm repo (build_context repo) st = Continue st' ->
         attempt st < max_retries - 1 /\ attempt st' = S (attempt st)).
Proof.
  destruct (initial_state_ready repo question chat_history) as [Hlt Hlog].
  split; [|split].
  - destruct (while_loop_returns llm repo (build_context repo) (fuel := S max_retries)
                (initial_state repo question chat_history) Hlt)
      as (r & st & Hrun & Hatt & _); [lia|exact Hlog|].
    now exists r, st.
  - intros fuel. now apply while_loop_stays_inside.
  - intros st st' Hstep. now apply loop_body_continue in Hstep as (? & ? & _).
Qed.

(** C6.  When every invocation fails with a context-length error, the model
    is invoked exactly 3 times, the system message of the second invocation
    contains "reduced due to token limit", and the result has no diagram and
    an answer that contains the text of the last error. *)
Theorem overflow_exhausts_retries llm repo question chat_history :
  (forall n msgs, exists err, llm n msgs = Raise err /\ is_context_error err = true) ->
  exists r st first second third system rest err,
    analyze_repo_with_chat llm repo question chat_history = Some (FromLoop, r, st)
    /\ calls st = [first; second; third]
    /\ second = SystemMessage system :: rest
    /\ contains (lit "reduced due to token limit") system = true
    /\ llm 2 third = Raise err
    /\ has_diagram r = false
    /\ mermaid_code r = None
    /\ contains err (answer r) = true.
Proof.
  intros Hfail.
  set (ctx := build_context repo).
  set (tail := flat_map history_message (last_n 6 chat_history)
               ++ [HumanMessage question]).
  set (m1 := SystemMessage ctx :: tail).
  set (m2 := SystemMessage (degraded_context repo ctx) :: tail).
  destruct (Hfail 0 m1) as (e1 & He1 & Hc1).
  destruct (Hfail 1 m2) as (e2 & He2 & Hc2).
  destruct (Hfail 2 m2) as (e3 & He3 & _).
  exists (failed repo e3).
  eexists. exists m1, m2, m2, (degraded_context repo ctx), tail, e3.
  split.
  - unfold analyze_repo_with_chat, initial_state, initial_messages.
    fold ctx. cbn [app]. fold tail. fold m1.
    cbn [while_loop attempt Nat.ltb Nat.leb max_retries].
    rewrite (@loop_body_overflow llm repo ctx _ e1);
      [|exact He1|exact Hc1|unfold max_retries; simpl; lia].
    cbn [attempt messages calls last_answer set_first app Nat.ltb Nat.leb].
    fold m2.
    rewrite (@loop_body_overflow llm repo ctx _ e2);
      [|exact He2|exact Hc2|unfold max_retries; simpl; lia].
    cbn [attempt messages calls last_answer set_first app Nat.ltb Nat.leb].
    rewrite (@loop_body_last_failure llm repo ctx _ e3);
      [|exact He3|reflexivity].
    cbn [attempt messages calls last_answer app]. reflexivity.
  - cbn [calls]. repeat split; try reflexivity.
    + apply degraded_context_mentions_reduction.
    + exact He3.
    + cbn [answer failed]. apply contains_suffix.
Qed.


(* ================================================================== *)
(** * Lines: [split] and [join]                                         *)
(* ================================================================== *)

Lemma absent_char (c : char) (s : text) :
  existsb (char_eqb c) s = false -> ~ In c s.
Proof.
  intros H Hin.
  assert (existsb (char_eqb c) s = true) as E
      by (apply existsb_exists; exists c; split; [exact Hin|apply char_eqb_refl]).
  congruence.
Qed.

Lemma split_on_nonempty (c : char) (s : text) : split_on c s <> [].
Proof.
  destruct s as [|x s]; simpl; [discriminate|].
  destruct (char_eqb x c); [discriminate|].
  destruct (split_on c s); discriminate.
Qed.

Lemma split_on_no_separator (c : char) (s : text) :
  ~ In c s -> split_on c s = [s].
Proof.
  induction s as [|x s IH]; intros Hc; simpl; [reflexivity|].
  destruct (char_eqb x c) eqn:E.
  - apply char_eqb_eq in E. subst. exfalso. apply Hc. now left.
  - rewrite IH; [reflexivity|]. intros Hin. apply Hc. now right.
Qed.

Lemma split_on_app (c : char) (l rest : text) :
  ~ In c l -> split_on c (l ++ c :: rest) = l :: split_on c rest.
Proof.
  induction l as [|x l IH]; intros Hc; simpl.
  - now rewrite char_eqb_refl.
  - destruct (char_eqb x c) eqn:E.
    + apply char_eqb_eq in E. subst. exfalso. apply Hc. now left.
    + rewrite IH; [reflexivity|]. intros Hin. apply Hc. now right.
Qed.

(** Splitting a text joined from lines gives the lines back. *)
Lemma split_on_join (c : char) (ls : list text) :
  ls <> [] ->
  Forall (fun l => ~ In c l) ls ->
  split_on c (join [c] ls) = ls.
Proof.
  induction ls as [|l ls IH]; intros Hne Hall; [congruence|].
  inversion Hall as [|? ? Hl Hls]; subst.
  destruct ls as [|l2 ls].
  - simpl. now apply split_on_no_separator.
  - change (join [c] (l :: l2 :: ls)) with (l ++ c :: join [c] (l2 :: ls)).
    rewrite split_on_app by assumption.
    rewrite IH; [reflexivity|discriminate|assumption].
Qed.

(** No line produced by [split] contains the separator. *)
Lemma split_on_lines (c : char) (s : text) :
  Forall (fun l => ~ In c l) (split_on c s).
Proof.
  induction s as [|x s IH]; simpl.
  - constructor; [intros []|constructor].
  - destruct (char_eqb x c) eqn:E.
    + constructor; [intros []|exact IH].
    + destruct (split_on c s) as [|l ls]; [constructor; [|constructor]|].
      * intros [H|[]]. apply char_eqb_neq in E. congruence.
      * inversion IH as [|? ? Hl Hls]; subst. constructor; [|exact Hls].
        intros [H|H]; [|now apply Hl]. apply char_eqb_neq in E. congruence.
Qed.

(* ================================================================== *)
(** * The completeness validator                                        *)
(* ================================================================== *)





(* ================================================================== *)
(** * The file-contents budget                                          *)
(* ================================================================== *)

(** The files handed to the formatter number [max_files], or all of them
    when there are fewer. *)
Lemma trimmed_files_length (files : list (text * file_data)) (max_files : nat) :
  length (trimmed_files files max_files) = Nat.min max_files (length files).
Proof.
  unfold trimmed_files; cbv zeta.
  pose proof (filter_length (fun pd => is_priority (snd pd)) files) as Hsplit.
  set (priority := filter (fun pd => is_priority (snd pd)) files) in *.
  set (others := filter (fun pd => negb (is_priority (snd pd))) files) in *.
  destruct (0 <? max_files - length (firstn max_files priority)) eqn:Slots.
  - rewrite length_app, !length_firstn. lia.
  - apply Nat.ltb_ge in Slots. rewrite length_firstn in *. lia.
Qed.

Lemma truncation_marker_nonempty (max_files total_files : nat) :
  (0 < len (truncation_marker max_files total_files))%N.
Proof.
  unfold truncation_marker, len. rewrite length_app.
  change (length [NL; NL]) with 2. lia.
Qed.

(** When the rendering is longer than the cap, it is cut at the cap and the
    marker is appended. *)
Lemma build_trimmed_overflow repo max_chars max_files :
  file_contents repo <> [] ->
  (max_chars
   < len (format_file_contents (trimmed_files (file_contents repo) max_files)
                               max_files))%N ->
  build_trimmed_file_contents repo max_chars max_files
  = firstn (N.to_nat max_chars)
           (format_file_contents (trimmed_files (file_contents repo) max_files)
                                 max_files)
    ++ truncation_marker max_files (length (file_contents repo))
  /\ len (build_trimmed_file_contents repo max_chars max_files)
     = (max_chars + len (truncation_marker max_files (length (file_contents repo))))%N.
Proof.
  intros Hfiles Hlong. unfold build_trimmed_file_contents; cbv zeta.
  destruct (file_contents repo) as [|f fs] eqn:Efiles; [congruence|].
  cbn [length Nat.eqb].
  apply N.ltb_lt in Hlong as Hb. rewrite Hb. split; [reflexivity|].
  unfold len in *. rewrite length_app, length_firstn. lia.
Qed.

(* ================================================================== *)
(** * The repairer: which characters it can produce                     *)
(* ================================================================== *)

Section Characters.

Variable P : char -> Prop.

Lemma Forall_lstrip (s : text) : Forall P s -> Forall P (lstrip s).
Proof.
  induction 1 as [|c s Hc Hs IH]; simpl; [constructor|].
  destruct (isspace c); [exact IH|now constructor].
Qed.

Lemma Forall_strip (s : text) : Forall P s -> Forall P (strip s).
Proof.
  intros H. unfold strip, rstrip.
  now apply Forall_rev, Forall_lstrip, Forall_rev, Forall_lstrip.
Qed.

Lemma Forall_firstn (n : nat) (s : text) : Forall P s -> Forall P (firstn n s).
Proof.
  intros H. rewrite <- (firstn_skipn n s) in H.
  now apply Forall_app in H.
Qed.

Lemma Forall_skipn (n : nat) (s : text) : Forall P s -> Forall P (skipn n s).
Proof.
  intros H. rewrite <- (firstn_skipn n s) in H.
  now apply Forall_app in H.
Qed.

(** A substitution whose replacements satisfy [P] keeps [P]. *)
Lemma Forall_sub_go (m : text -> option (nat * text)) :
  (forall t k r, Forall P t -> m t = Some (k, r) -> Forall P r) ->
  forall s k, Forall P s -> Forall P (sub_go m k s).
Proof.
  intros Hm s. induction s as [|x s IH]; intros k Hs; simpl; [constructor|].
  inversion Hs as [|? ? Hx Hs']; subst.
  destruct k as [|k]; [|now apply IH].
  destruct (m (x :: s)) as [[[|n] r]|] eqn:E.
  - constructor; [exact Hx|now apply IH].
  - apply Forall_app. split; [now apply (Hm _ _ _ Hs E)|now apply IH].
  - constructor; [exact Hx|now apply IH].
Qed.

Lemma Forall_replace (old new s : text) :
  Forall P new -> Forall P s -> Forall P (replace old new s).
Proof.
  intros Hnew Hs. apply Forall_sub_go; [|exact Hs].
  intros t k r _ E. destruct (startswith old t); [|discriminate].
  now inversion E; subst.
Qed.

Lemma Forall_run_gt (c : char) (n : nat) (r s : text) :
  Forall P r -> Forall P s -> Forall P (re_sub (match_run_gt c n r) s).
Proof.
  intros Hr Hs. apply Forall_sub_go; [|exact Hs].
  intros t k r' _ E. unfold match_run_gt in E.
  destruct (_ && _); [|discriminate]. now inversion E; subst.
Qed.

Lemma Forall_semis (s : text) :
  P SEMI -> Forall P s -> Forall P (re_sub match_semis s).
Proof.
  intros Hsemi Hs. apply Forall_sub_go; [|exact Hs].
  intros t k r _ E. unfold match_semis in E.
  destruct (run _ t); [discriminate|]. inversion E; subst. now repeat constructor.
Qed.

Lemma Forall_ident_gap (isw : char -> bool) (s : text) :
  P UNDERSCORE -> Forall P s -> Forall P (re_sub (match_ident_gap isw) s).
Proof.
  intros Hu Hs. apply Forall_sub_go; [|exact Hs].
  intros t k r Ht E. unfold match_ident_gap in E.
  destruct (_ && _); [|discriminate]. inversion E; subst.
  apply Forall_app. split; [now apply Forall_firstn|].
  constructor; [exact Hu|].
  now apply Forall_firstn, Forall_skipn, Forall_skipn.
Qed.

Lemma Forall_split1 (c : char) (s : text) :
  Forall P s -> Forall (Forall P) (split1 c s).
Proof.
  induction 1 as [|x s Hx Hs IH]; simpl; [repeat constructor|].
  destruct (char_eqb x c); [repeat constructor; exact Hs|].
  destruct (split1 c s) as [|l ls]; [repeat constructor; exact Hx|].
  inversion IH; subst. constructor; [now constructor|assumption].
Qed.

Lemma Forall_split_on (c : char) (s : text) :
  Forall P s -> Forall (Forall P) (split_on c s).
Proof.
  induction 1 as [|x s Hx Hs IH]; simpl; [repeat constructor|].
  destruct (char_eqb x c); [constructor; [constructor|exact IH]|].
  destruct (split_on c s) as [|l ls]; [repeat constructor; exact Hx|].
  inversion IH; subst. constructor; [now constructor|assumption].
Qed.

Lemma Forall_join (sep : text) (parts : list text) :
  Forall P sep -> Forall (Forall P) parts -> Forall P (join sep parts).
Proof.
  intros Hsep. induction 1 as [|p ps Hp Hps IH]; simpl; [constructor|].
  destruct ps as [|q ps]; [exact Hp|].
  apply Forall_app. split; [exact Hp|]. apply Forall_app. now split.
Qed.

Hypothesis P_dash : P DASH.
Hypothesis P_dot : P DOT.
Hypothesis P_gt : P GT.
Hypothesis P_underscore : P UNDERSCORE.
Hypothesis P_semi : P SEMI.
Hypothesis P_bracket : P LBRACKET.

Lemma Forall_arrow : Forall P (lit "-->").
Proof. repeat constructor; assumption. Qed.

Lemma Forall_dotted_arrow : Forall P (lit "-..->").
Proof. repeat constructor; assumption. Qed.

Lemma Forall_fix_node_id (line : text) :
  Forall P line -> Forall P (fix_node_id line).
Proof.
  intros H. unfold fix_node_id.
  destruct (_ || _); [|exact H].
  pose proof (Forall_split1 LBRACKET H) as Hparts.
  destruct (split1 LBRACKET line) as [|before [|rest more]]; try exact H.
  inversion Hparts as [|? ? Hb Hrest]; subst.
  inversion Hrest as [|? ? Hr _]; subst.
  apply Forall_app. split; [now apply Forall_ident_gap|].
  now constructor.
Qed.

(** Every character of a repaired line comes from the line or from one of
    the replacement texts. *)
Lemma Forall_fix_line (l : text) : Forall P l -> Forall P (fix_line l).
Proof.
  intros H. apply Forall_strip in H. unfold fix_line; cbv zeta.
  destruct (is_blank_or_comment _); [exact H|].
  destruct (is_subgraph_or_end _); [exact H|].
  apply Forall_semis; [assumption|].
  apply Forall_fix_node_id.
  apply Forall_replace; [apply Forall_dotted_arrow|].
  apply Forall_replace; [apply Forall_arrow|].
  apply Forall_run_gt; [apply Forall_dotted_arrow|].
  apply Forall_run_gt; [apply Forall_arrow|exact H].
Qed.

End Characters.

(* ================================================================== *)
(** * The repairer works line by line                                   *)
(* ================================================================== *)

Lemma no_newline_Forall (s : text) :
  ~ In NL s <-> Forall (fun c => c <> NL) s.
Proof.
  rewrite Forall_forall. split.
  - intros H x Hx ->. now apply H.
  - intros H Hin. now apply (H NL Hin).
Qed.

(** A repaired line has no line break. *)
Lemma fix_line_no_newline (l : text) : ~ In NL l -> ~ In NL (fix_line l).
Proof.
  rewrite !no_newline_Forall. apply Forall_fix_line; discriminate.
Qed.

(** The lines of the output are the repaired lines of the text that is left
    after trimming and fence removal. *)
Lemma fix_mermaid_syntax_lines (s : text) :
  split_on NL (fix_mermaid_syntax s)
  = map fix_line (split_on NL (strip_fences (strip s))).
Proof.
  unfold fix_mermaid_syntax; cbv zeta. apply split_on_join.
  - pose proof (split_on_nonempty NL (strip_fences (strip s))) as Hne.
    destruct (split_on NL (strip_fences (strip s))); [congruence|discriminate].
  - apply Forall_forall. intros o Ho.
    apply in_map_iff in Ho as (l & <- & Hl).
    apply fix_line_no_newline.
    pose proof (split_on_lines NL (strip_fences (strip s))) as Hlines.
    rewrite Forall_forall in Hlines. now apply Hlines.
Qed.

Lemma startswith_shorter (p q s : text) :
  startswith (p ++ q) s = true -> startswith p s = true.
Proof.
  revert s; induction p as [|x p IH]; intros s H; simpl in *; [reflexivity|].
  destruct s as [|y s]; [discriminate|].
  apply andb_true_iff in H as [Hxy Hp]. now rewrite Hxy, (IH _ Hp).
Qed.

(** Without a leading fence nothing is removed. *)
Lemma strip_fences_unfenced (s : text) :
  startswith FENCE s = false -> strip_fences s = s.
Proof.
  intros H. unfold strip_fences. rewrite H.
  destruct (startswith FENCE_MERMAID s) eqn:E; [|reflexivity].
  change FENCE_MERMAID with (FENCE ++ lit "mermaid") in E.
  apply startswith_shorter in E. congruence.
Qed.

Lemma sub_go_nonempty (m : text -> option (nat * text)) (s : text) :
  (forall t k r, m t = Some (S k, r) -> r <> []) ->
  s <> [] -> sub_go m 0 s <> [].
Proof.
  intros Hm Hs. destruct s as [|x s]; [congruence|]. simpl.
  destruct (m (x :: s)) as [[[|n] r]|] eqn:E; try discriminate.
  specialize (Hm _ _ _ E). destruct r; [congruence|discriminate].
Qed.

Lemma run_gt_replacement (c : char) (n : nat) (r t : text) (k : nat) (r' : text) :
  match_run_gt c n r t = Some (k, r') -> r' = r /\ k = S (run (char_eqb c) t).
Proof.
  unfold match_run_gt. destruct (_ && _); [|discriminate].
  intros E. now inversion E.
Qed.

Lemma semis_replacement (t : text) (k : nat) (r : text) :
  match_semis t = Some (k, r) -> r = [SEMI] /\ k = run (char_eqb SEMI) t /\ 0 < k.
Proof.
  unfold match_semis. destruct (run _ t) eqn:E; [discriminate|].
  intros H. inversion H; subst. repeat split. lia.
Qed.

Lemma fix_node_id_nonempty (line : text) : line <> [] -> fix_node_id line <> [].
Proof.
  intros H. unfold fix_node_id.
  destruct (_ || _); [|exact H].
  destruct (split1 LBRACKET line) as [|before [|rest more]]; try exact H.
  destruct (re_sub _ before); discriminate.
Qed.

(** A line that is not blank is not repaired into a blank line. *)
Lemma fix_line_nonblank (l : text) : strip l <> [] -> fix_line l <> [].
Proof.
  intros H. unfold fix_line; cbv zeta.
  destruct (is_blank_or_comment _); [exact H|].
  destruct (is_subgraph_or_end _); [exact H|].
  apply sub_go_nonempty.
  { intros t k r E. apply semis_replacement in E as (-> & _). discriminate. }
  apply fix_node_id_nonempty.
  apply sub_go_nonempty.
  { intros t k r E. destruct (startswith _ t); [|discriminate].
    inversion E; subst. discriminate. }
  apply sub_go_nonempty.
  { intros t k r E. destruct (startswith _ t); [|discriminate].
    inversion E; subst. discriminate. }
  apply sub_go_nonempty.
  { intros t k r E. apply run_gt_replacement in E as (-> & _). discriminate. }
  apply sub_go_nonempty.
  { intros t k r E. apply run_gt_replacement in E as (-> & _). discriminate. }
  exact H.
Qed.

(* ================================================================== *)
(** * Trimmed texts                                                     *)
(* ================================================================== *)

Lemma starts_clean_lstrip (s : text) : starts_clean (lstrip s) = true.
Proof.
  induction s as [|c s IH]; simpl; [reflexivity|].
  destruct (isspace c) eqn:E; [exact IH|]. simpl. now rewrite E.
Qed.

Lemma lstrip_clean (s : text) : starts_clean s = true -> lstrip s = s.
Proof.
  destruct s as [|c s]; simpl; [reflexivity|].
  now destruct (isspace c).
Qed.

Lemma lstrip_snoc (a : text) (x : char) :
  isspace x = false -> lstrip (a ++ [x]) = lstrip a ++ [x].
Proof.
  intros Hx. induction a as [|c a IH]; simpl.
  - now rewrite Hx.
  - destruct (isspace c); [exact IH|reflexivity].
Qed.

Lemma rstrip_cons (x : char) (s : text) :
  isspace x = false -> rstrip (x :: s) = x :: rstrip s.
Proof.
  intros Hx. unfold rstrip. simpl rev.
  now rewrite (@lstrip_snoc _ _ Hx), rev_app_distr.
Qed.

Lemma starts_clean_app (a b : text) :
  a <> [] -> starts_clean (a ++ b) = starts_clean a.
Proof. destruct a; [congruence|reflexivity]. Qed.

Lemma ends_clean_app (a b : text) :
  b <> [] -> ends_clean (a ++ b) = ends_clean b.
Proof.
  intros Hb. unfold ends_clean. rewrite rev_app_distr.
  apply starts_clean_app. intros E. apply Hb.
  now rewrite <- (rev_involutive b), E.
Qed.

Lemma ends_clean_snoc (a : text) (x : char) :
  ends_clean (a ++ [x]) = negb (isspace x).
Proof. unfold ends_clean. now rewrite rev_app_distr. Qed.

(** What [strip] returns is trimmed, and a trimmed text is left alone. *)
Lemma trimmed_strip (s : text) : trimmed (strip s).
Proof.
  unfold strip. pose proof (starts_clean_lstrip s) as Hl.
  destruct (lstrip s) as [|x t] eqn:E.
  - split; reflexivity.
  - simpl in Hl. apply negb_true_iff in Hl. split.
    + now rewrite rstrip_cons; simpl; [rewrite Hl|].
    + unfold ends_clean, rstrip. rewrite rev_involutive.
      apply starts_clean_lstrip.
Qed.

Lemma strip_trimmed (s : text) : trimmed s -> strip s = s.
Proof.
  intros [Hs He]. unfold strip, rstrip.
  rewrite (lstrip_clean _ Hs), (lstrip_clean _ He). apply rev_involutive.
Qed.

Lemma strip_idempotent (s : text) : strip (strip s) = strip s.
Proof. apply strip_trimmed, trimmed_strip. Qed.

(* ================================================================== *)
(** * Substitution                                                      *)
(* ================================================================== *)

Lemma quiet_tail (m : text -> option (nat * text)) (x : char) (s : text) :
  quiet m (x :: s) -> quiet m s.
Proof. intros H i. exact (H (S i)). Qed.

Lemma quiet_skipn (m : text -> option (nat * text)) (k : nat) (s : text) :
  quiet m s -> quiet m (skipn k s).
Proof. intros H i. rewrite skipn_skipn. apply H. Qed.

(** Where the pattern matches nowhere the substitution changes nothing. *)
Lemma sub_quiet (m : text -> option (nat * text)) (s : text) :
  quiet m s -> sub_go m 0 s = s.
Proof.
  induction s as [|x s IH]; intros H; simpl; [reflexivity|].
  rewrite (H 0 : m (x :: s) = None).
  now rewrite IH by (eapply quiet_tail; exact H).
Qed.

(** A substitution whose replacements are not empty and start with no
    whitespace keeps the start of a text clean. *)
Lemma sub_go_starts_clean (m : text -> option (nat * text)) (s : text) :
  (forall t k r, m t = Some (S k, r) -> r <> [] /\ starts_clean r = true) ->
  starts_clean s = true -> starts_clean (sub_go m 0 s) = true.
Proof.
  intros Hm Hs. destruct s as [|x s]; simpl; [reflexivity|].
  destruct (m (x :: s)) as [[[|n] r]|] eqn:E; try exact Hs.
  destruct (Hm _ _ _ E) as [Hr Hc]. now rewrite starts_clean_app.
Qed.

(** The same for the end of the text; [acc] is the output so far. *)
Lemma sub_go_ends_clean_acc (m : text -> option (nat * text)) :
  (forall t k r, m t = Some (S k, r) -> r <> [] /\ ends_clean r = true) ->
  forall s k acc,
    ends_clean (acc ++ s) = true ->
    (0 < k -> ends_clean acc = true) ->
    ends_clean (acc ++ sub_go m k s) = true.
Proof.
  intros Hm s. induction s as [|x s IH]; intros k acc Hall Hacc; simpl.
  - exact Hall.
  - assert (forall acc', (s = [] -> ends_clean acc' = true) ->
                         ends_clean (acc' ++ s) = true) as Hrest.
    { intros acc' Hempty. destruct s as [|y s'].
      - rewrite app_nil_r. now apply Hempty.
      - rewrite ends_clean_app by discriminate.
        rewrite <- Hall. symmetry.
        change (acc ++ x :: y :: s') with (acc ++ [x] ++ y :: s').
        rewrite app_assoc. apply ends_clean_app. discriminate. }
    destruct k as [|k].
    + destruct (m (x :: s)) as [[[|n] r]|] eqn:E.
      * change (acc ++ x :: sub_go m 0 s) with (acc ++ [x] ++ sub_go m 0 s).
        rewrite app_assoc. apply IH; [|lia].
        rewrite <- app_assoc. exact Hall.
      * destruct (Hm _ _ _ E) as [Hr Hc].
        assert (ends_clean (acc ++ r) = true) as Har
            by (now rewrite ends_clean_app).
        rewrite app_assoc. apply IH; [|intros _; exact Har].
        apply Hrest. intros _. exact Har.
      * change (acc ++ x :: sub_go m 0 s) with (acc ++ [x] ++ sub_go m 0 s).
        rewrite app_assoc. apply IH; [|lia].
        rewrite <- app_assoc. exact Hall.
    + apply IH; [|intros _; apply Hacc; lia].
      apply Hrest. intros _. apply Hacc. lia.
Qed.

Lemma sub_go_ends_clean (m : text -> option (nat * text)) (s : text) :
  (forall t k r, m t = Some (S k, r) -> r <> [] /\ ends_clean r = true) ->
  ends_clean s = true -> ends_clean (sub_go m 0 s) = true.
Proof.
  intros Hm Hs.
  apply (@sub_go_ends_clean_acc m Hm s 0 []); [exact Hs|lia].
Qed.

Lemma sub_go_trimmed (m : text -> option (nat * text)) (s : text) :
  (forall t k r, m t = Some (S k, r) -> r <> [] /\ trimmed r) ->
  trimmed s -> trimmed (sub_go m 0 s).
Proof.
  intros Hm [Hs He]. split.
  - apply sub_go_starts_clean; [|exact Hs].
    intros t k r E. destruct (Hm _ _ _ E) as (? & ? & ?). now split.
  - apply sub_go_ends_clean; [|exact He].
    intros t k r E. destruct (Hm _ _ _ E) as (? & ? & ?). now split.
Qed.

(* ================================================================== *)
(** * Runs of one character and the arrow patterns                      *)
(* ================================================================== *)

Lemma repeat_shift (c : char) (j : nat) (t : text) :
  repeat c j ++ c :: t = repeat c (S j) ++ t.
Proof.
  induction j as [|j IH]; simpl; [reflexivity|]. now rewrite IH.
Qed.

Lemma run_repeat (c : char) (j : nat) (t : text) :
  run (char_eqb c) (repeat c j ++ t) = j + run (char_eqb c) t.
Proof.
  induction j as [|j IH]; simpl; [reflexivity|].
  now rewrite char_eqb_refl, IH.
Qed.

Lemma skipn_repeat (c : char) (j k : nat) (t : text) :
  skipn (j + k) (repeat c j ++ t) = skipn k t.
Proof. induction j as [|j IH]; simpl; [reflexivity|exact IH]. Qed.

(** After [j] copies of [c] and a different character the pattern [c{n,}>]
    is decided by [j] and that character alone. *)
Lemma run_gt_decided (c : char) (n : nat) (r : text) (j : nat) (x : char) (z : text) :
  x <> c ->
  match_run_gt c n r (repeat c j ++ x :: z)
  = if (n <=? j) && char_eqb GT x then Some (S j, r) else None.
Proof.
  intros Hx. unfold match_run_gt. rewrite run_repeat. simpl run.
  assert (char_eqb c x = false) as -> by (apply char_eqb_neq; congruence).
  rewrite Nat.add_0_r.
  rewrite <- (Nat.add_0_r j) at 2. rewrite skipn_repeat. simpl.
  now rewrite andb_true_r.
Qed.

(** Longer runs in front of a match still match. *)
Lemma run_gt_extends (c : char) (n : nat) (r : text) (j : nat) (t : text) :
  match_run_gt c n r t <> None -> match_run_gt c n r (repeat c j ++ t) <> None.
Proof.
  unfold match_run_gt. rewrite run_repeat, skipn_repeat.
  destruct ((n <=? run (char_eqb c) t) && _) eqn:E; [|congruence].
  intros _. apply andb_true_iff in E as [Hn Hgt]. apply Nat.leb_le in Hn.
  assert ((n <=? j + run (char_eqb c) t) = true) as -> by (apply Nat.leb_le; lia).
  rewrite Hgt. discriminate.
Qed.

Section QuietRuns.

(** [q] is the pattern [c{n,}>] whose matches are looked for in the output
    of a substitution by the pattern [m]. *)
Variables (c : char) (n : nat) (rr : text).
Variable m : text -> option (nat * text).
Local Abbreviation q := (match_run_gt c n rr).

Hypothesis n_positive : 0 < n.

(** A replacement of [m] put after a run of [c] gives no match of [q],
    unless the replaced text did. *)
Hypothesis after_run :
  forall t k r j y,
    m t = Some (S k, r) ->
    q (repeat c j ++ t) = None ->
    q (repeat c j ++ r ++ y) = None.

(** No match of [q] starts inside a replacement of [m]. *)
Hypothesis inside_replacement :
  forall t k r i y,
    m t = Some (S k, r) -> i < length r -> q (skipn i r ++ y) = None.

Lemma run_gt_nil : q [] = None.
Proof.
  unfold match_run_gt. simpl.
  assert ((n <=? 0) = false) as -> by (apply Nat.leb_gt; lia). reflexivity.
Qed.

(** A match of [q] that starts in kept text of the output started in the
    same way in the input. *)
Lemma quiet_after_run (s : text) :
  forall j, q (repeat c j ++ s) = None -> q (repeat c j ++ sub_go m 0 s) = None.
Proof.
  induction s as [|x s IH]; intros j H; simpl; [exact H|].
  assert (q (repeat c j ++ x :: sub_go m 0 s) = None) as Hkept.
  { destruct (char_eqb x c) eqn:E.
    - apply char_eqb_eq in E. subst x.
      rewrite repeat_shift in *. now apply IH.
    - apply char_eqb_neq in E.
      rewrite run_gt_decided in * by exact E. exact H. }
  destruct (m (x :: s)) as [[[|k] r]|] eqn:Em; try exact Hkept.
  eapply after_run; eassumption.
Qed.

(** If [m] matches wherever [q] does, the output of the substitution has no
    match of [q]. *)
Lemma quiet_sub_go (s : text) :
  forall k,
    (forall i, q (skipn i s) = None
               \/ exists k' r, m (skipn i s) = Some (S k', r)) ->
    quiet q (sub_go m k s).
Proof.
  induction s as [|x s IH]; intros k Hcov i.
  - simpl. rewrite skipn_nil. apply run_gt_nil.
  - assert (forall i, q (skipn i s) = None
                      \/ exists k' r, m (skipn i s) = Some (S k', r)) as Hcov'
        by (intros i'; exact (Hcov (S i'))).
    simpl. destruct k as [|k]; [|now apply IH].
    assert (m (x :: s) = None \/ (exists r, m (x :: s) = Some (0, r)) ->
            q (skipn i (x :: sub_go m 0 s)) = None) as Hkept.
    { intros Hno. destruct i as [|i']; [|now apply IH]. simpl.
      destruct (Hcov 0) as [Hq|(k' & r & Hm)]; simpl in *.
      - pose proof (@quiet_after_run (x :: s) 0 Hq) as Hout. simpl in Hout.
        destruct Hno as [Hno|[r Hno]]; rewrite Hno in Hout; exact Hout.
      - destruct Hno as [Hno|[r' Hno]]; congruence. }
    destruct (m (x :: s)) as [[[|k'] r]|] eqn:Em.
    + apply Hkept. right. now exists r.
    + destruct (Nat.lt_ge_cases i (length r)) as [Hi|Hi].
      * rewrite skipn_app.
        replace (i - length r) with 0 by lia. simpl skipn at 2.
        eapply inside_replacement; eassumption.
      * rewrite skipn_app, (skipn_all2 r Hi). simpl. now apply IH.
    + apply Hkept. now left.
Qed.

End QuietRuns.

(** ** The two arrow patterns and the semicolon pattern *)

Lemma run_gt_matches_run (c : char) (n : nat) (r : text) :
  forall s i,
    match_run_gt c n r (skipn i s) = None
    \/ exists k' r', match_run_gt c n r (skipn i s) = Some (S k', r').
Proof.
  intros s i. destruct (match_run_gt c n r (skipn i s)) as [[k r']|] eqn:E;
    [right|now left].
  apply run_gt_replacement in E as [-> ->]. eauto.
Qed.

Lemma quiet_covers (q m : text -> option (nat * text)) (s : text) :
  quiet q s ->
  forall i, q (skipn i s) = None \/ exists k' r, m (skipn i s) = Some (S k', r).
Proof. intros H i. left. apply H. Qed.

(** Once collapsed, no run of four dashes before [>] is left. *)
Lemma quiet_dashes (s : text) :
  quiet (match_run_gt DASH 4 (lit "-->"))
        (re_sub (match_run_gt DASH 4 (lit "-->")) s).
Proof.
  apply quiet_sub_go; [lia| | |apply run_gt_matches_run].
  - intros t k r j y Hm Hq. exfalso.
    apply (@run_gt_extends DASH 4 (lit "-->") j t); [congruence|exact Hq].
  - intros t k r i y Hm Hi. apply run_gt_replacement in Hm as [-> _].
    destruct i as [|[|[|i]]]; try reflexivity. simpl in Hi. lia.
Qed.

Lemma quiet_dots (s : text) :
  quiet (match_run_gt DOT 4 (lit "-..->"))
        (re_sub (match_run_gt DOT 4 (lit "-..->")) s).
Proof.
  apply quiet_sub_go; [lia| | |apply run_gt_matches_run].
  - intros t k r j y Hm Hq. exfalso.
    apply (@run_gt_extends DOT 4 (lit "-..->") j t); [congruence|exact Hq].
  - intros t k r i y Hm Hi. apply run_gt_replacement in Hm as [-> _].
    destruct i as [|[|[|[|[|i]]]]]; try reflexivity. simpl in Hi. lia.
Qed.

(** Collapsing the runs of dots makes no run of four dashes before [>]. *)
Lemma quiet_dashes_after_dots (r : text) (s : text) :
  quiet (match_run_gt DASH 4 r) s ->
  quiet (match_run_gt DASH 4 r) (re_sub (match_run_gt DOT 4 (lit "-..->")) s).
Proof.
  intros Hs. apply quiet_sub_go; [lia| | |now apply quiet_covers].
  - intros t k r' j y Hm _. apply run_gt_replacement in Hm as [-> _].
    change (lit "-..->" ++ y) with (DASH :: DOT :: lit ".->" ++ y).
    rewrite repeat_shift, run_gt_decided by discriminate.
    now rewrite andb_false_r.
  - intros t k r' i y Hm Hi. apply run_gt_replacement in Hm as [-> _].
    destruct i as [|[|[|[|[|i]]]]]; try reflexivity. simpl in Hi. lia.
Qed.

(** Collapsing the semicolons makes no run of [c] before [>]. *)
Lemma quiet_after_semis (c : char) (n : nat) (r : text) (s : text) :
  0 < n -> c <> SEMI ->
  quiet (match_run_gt c n r) s ->
  quiet (match_run_gt c n r) (re_sub match_semis s).
Proof.
  intros Hn Hc Hs. apply quiet_sub_go; [exact Hn| | |now apply quiet_covers].
  - intros t k r' j y Hm _. apply semis_replacement in Hm as (-> & _).
    change ([SEMI] ++ y) with (SEMI :: y).
    rewrite run_gt_decided by congruence.
    now rewrite andb_false_r.
  - intros t k r' i y Hm Hi. apply semis_replacement in Hm as (-> & _).
    destruct i as [|i]; [|simpl in Hi; lia].
    change (skipn 0 [SEMI] ++ y) with (repeat c 0 ++ SEMI :: y).
    rewrite run_gt_decided by congruence.
    now rewrite andb_false_r.
Qed.

(** Collapsing a run of [c'] before [>] into an arrow [r'] that starts with
    a dash makes no run of [c] before [>], for [c] other than the dash. *)
Lemma quiet_after_arrow (c : char) (n : nat) (r : text) (c' : char) (n' : nat)
    (tail : text) (s : text) :
  0 < n -> c <> DASH -> c <> DOT -> c <> GT ->
  Forall (fun x => x = DASH \/ x = DOT \/ x = GT) tail ->
  quiet (match_run_gt c n r) s ->
  quiet (match_run_gt c n r) (re_sub (match_run_gt c' n' (DASH :: tail)) s).
Proof.
  intros Hn Hd Ho Hg Htail Hs.
  assert (forall u y, Forall (fun x => x = DASH \/ x = DOT \/ x = GT) u ->
                      u <> [] -> match_run_gt c n r (u ++ y) = None) as Hblock.
  { intros u y Hu Hne. destruct u as [|x u]; [congruence|].
    inversion Hu as [|? ? Hx _]; subst.
    change ((x :: u) ++ y) with (repeat c 0 ++ x :: u ++ y).
    rewrite run_gt_decided by (destruct Hx as [->|[->| ->]]; congruence).
    assert ((n <=? 0) = false) as -> by (apply Nat.leb_gt; lia). reflexivity. }
  apply quiet_sub_go; [exact Hn| | |now apply quiet_covers].
  - intros t k r' j y Hm _. apply run_gt_replacement in Hm as [-> _].
    change ((DASH :: tail) ++ y) with (DASH :: tail ++ y).
    rewrite run_gt_decided by congruence.
    assert (char_eqb GT DASH = false) as -> by reflexivity.
    now rewrite andb_false_r.
  - intros t k r' i y Hm Hi. apply run_gt_replacement in Hm as [-> _].
    apply Hblock.
    + apply Forall_skipn. constructor; [now left|exact Htail].
    + intros E. apply (f_equal (@length char)) in E.
      rewrite length_skipn in E. cbn [length] in E, Hi. lia.
Qed.

(** ** Semicolons *)

Lemma run_stops (p : char -> bool) (s : text) :
  run p (skipn (run p s) s) = 0.
Proof.
  induction s as [|x s IH]; simpl; [reflexivity|].
  destruct (p x) eqn:E; simpl; [exact IH|now rewrite E].
Qed.

Lemma sub_go_skip (m : text -> option (nat * text)) (s : text) :
  forall k, sub_go m k s = sub_go m 0 (skipn k s).
Proof.
  induction s as [|x s IH]; intros [|k]; simpl; try reflexivity. apply IH.
Qed.

Lemma match_semis_cons (x : char) (s : text) :
  match_semis (x :: s)
  = if char_eqb SEMI x then Some (S (run (char_eqb SEMI) s), [SEMI]) else None.
Proof. unfold match_semis. simpl. now destruct (char_eqb SEMI x). Qed.

(** After the collapse the output starts with a semicolon only where the
    text still to be read does. *)
Lemma semis_head (s : text) :
  forall k,
    run (char_eqb SEMI) (skipn k s) = 0 ->
    run (char_eqb SEMI) (sub_go match_semis k s) = 0.
Proof.
  induction s as [|x s IH]; intros k Hk; [destruct k; reflexivity|].
  destruct k as [|k]; simpl in *; [|now apply IH].
  rewrite match_semis_cons.
  destruct (char_eqb SEMI x) eqn:E; [discriminate|].
  simpl. now rewrite E.
Qed.

(** No two semicolons are adjacent after the collapse. *)
Lemma semis_single (s : text) :
  forall k i, run (char_eqb SEMI) (skipn i (sub_go match_semis k s)) <= 1.
Proof.
  induction s as [|x s IH]; intros k i.
  - simpl. rewrite skipn_nil. simpl. lia.
  - simpl. destruct k as [|k]; [|apply IH].
    rewrite match_semis_cons.
    destruct (char_eqb SEMI x) eqn:E.
    + destruct i as [|i]; [|simpl; apply IH].
      simpl. rewrite ?char_eqb_refl.
      rewrite semis_head; [lia|apply run_stops].
    + destruct i as [|i]; [|simpl; apply IH].
      simpl. rewrite E. lia.
Qed.

(** Single semicolons are replaced by themselves. *)
Lemma semis_fixed (s : text) :
  (forall i, run (char_eqb SEMI) (skipn i s) <= 1) ->
  re_sub match_semis s = s.
Proof.
  unfold re_sub. induction s as [|x s IH]; intros H; simpl; [reflexivity|].
  assert (sub_go match_semis 0 s = s) as Hs
      by (apply IH; intros i; exact (H (S i))).
  pose proof (H 0) as H0. simpl in H0.
  rewrite match_semis_cons.
  destruct (char_eqb SEMI x) eqn:E.
  - apply char_eqb_eq in E. subst x.
    assert (run (char_eqb SEMI) s = 0) as -> by lia.
    simpl. now rewrite Hs.
  - now rewrite Hs.
Qed.

Lemma semis_idempotent (s : text) :
  re_sub match_semis (re_sub match_semis s) = re_sub match_semis s.
Proof. apply semis_fixed. intros i. apply semis_single. Qed.

(* ================================================================== *)
(** * Texts inside texts                                                *)
(* ================================================================== *)

Lemma run_app_stopped (p : char -> bool) (t w : text) :
  skipn (run p t) t <> [] -> run p (t ++ w) = run p t.
Proof.
  induction t as [|x t IH]; simpl; [congruence|].
  destruct (p x); simpl; [|reflexivity]. intros H. now rewrite IH.
Qed.

(** A match is not lost when text is added after it. *)
Lemma run_gt_app (c : char) (n : nat) (r : text) (t w : text) :
  match_run_gt c n r t <> None -> match_run_gt c n r (t ++ w) <> None.
Proof.
  unfold match_run_gt.
  destruct ((n <=? run (char_eqb c) t) && _) eqn:E; [|congruence].
  intros _. apply andb_true_iff in E as [Hn Hgt].
  assert (skipn (run (char_eqb c) t) t <> []) as Hstop
      by (intros E; rewrite E in Hgt; discriminate).
  rewrite (@run_app_stopped _ t w Hstop), Hn, skipn_app.
  destruct (skipn (run (char_eqb c) t) t) as [|y rest]; [congruence|].
  simpl in *. destruct (char_eqb GT y); discriminate.
Qed.

(** A text without matches has no matches in any part of it. *)
Lemma quiet_factor (c : char) (n : nat) (r : text) (a b w : text) :
  0 < n ->
  quiet (match_run_gt c n r) (a ++ b ++ w) -> quiet (match_run_gt c n r) b.
Proof.
  intros Hn H i.
  destruct (match_run_gt c n r (skipn i b)) eqn:E; [exfalso|reflexivity].
  destruct (Nat.le_gt_cases i (length b)) as [Hi|Hi].
  - specialize (H (length a + i)).
    rewrite skipn_app in H.
    rewrite skipn_all2 in H by lia. simpl in H.
    replace (length a + i - length a) with i in H by lia.
    rewrite skipn_app in H. replace (i - length b) with 0 in H by lia.
    simpl in H. revert H. apply run_gt_app. congruence.
  - rewrite skipn_all2 in E by lia.
    rewrite (@run_gt_nil c n r Hn) in E. discriminate.
Qed.

Lemma lstrip_factor (s : text) : exists a, s = a ++ lstrip s.
Proof.
  induction s as [|x s [a IH]]; [now exists []|]. simpl.
  destruct (isspace x); [|now exists []].
  exists (x :: a). simpl. now rewrite <- IH.
Qed.

Lemma strip_factor (s : text) : exists a w, s = a ++ strip s ++ w.
Proof.
  destruct (lstrip_factor s) as [a Ha].
  destruct (lstrip_factor (rev (lstrip s))) as [w Hw].
  exists a, (rev w). unfold strip, rstrip.
  rewrite <- rev_app_distr, <- Hw, rev_involutive. exact Ha.
Qed.

(** The first line is the start of the text; every line is a part of it. *)
Lemma split_on_first (c : char) (t : text) :
  exists w, t = hd [] (split_on c t) ++ w.
Proof.
  induction t as [|x t [w IH]]; [now exists []|]. simpl.
  destruct (char_eqb x c); [now exists (x :: t)|].
  destruct (split_on c t) as [|l ls]; simpl in *.
  - exists t. reflexivity.
  - exists w. now rewrite <- IH.
Qed.

Lemma split_on_factor (c : char) (t l : text) :
  In l (split_on c t) -> exists a w, t = a ++ l ++ w.
Proof.
  revert l. induction t as [|x t IH]; intros l Hin; simpl in Hin.
  - destruct Hin as [<-|[]]. now exists [], [].
  - destruct (char_eqb x c).
    + destruct Hin as [<-|Hin]; [now exists [], (x :: t)|].
      destruct (IH _ Hin) as (a & w & ->). now exists (x :: a), w.
    + pose proof (split_on_first c t) as [w Hfirst].
      destruct (split_on c t) as [|l0 ls]; simpl in *.
      * destruct Hin as [<-|[]]. exists [], t. reflexivity.
      * destruct Hin as [<-|Hin].
        -- exists [], w. simpl. now rewrite <- Hfirst.
        -- destruct (IH l (or_intror Hin)) as (a & w' & ->).
           now exists (x :: a), w'.
Qed.

Lemma contains_skipn (p : text) (i : nat) (s : text) :
  contains p (skipn i s) = true -> contains p s = true.
Proof.
  revert s. induction i as [|i IH]; intros s H; [exact H|].
  destruct s as [|x s]; [exact H|]. simpl in *.
  rewrite (IH _ H). apply orb_true_r.
Qed.

Lemma firstn_run (c : char) (t : text) :
  firstn (run (char_eqb c) t) t = repeat c (run (char_eqb c) t).
Proof.
  induction t as [|x t IH]; simpl; [reflexivity|].
  destruct (char_eqb c x) eqn:E; [|reflexivity].
  apply char_eqb_eq in E. subst x. simpl. now rewrite IH.
Qed.

(** What a match of [c{n,}>] consumes: the run and the [>]. *)
Lemma run_gt_consumed (c : char) (n : nat) (r t : text) (k : nat) (r' : text) :
  match_run_gt c n r t = Some (S k, r') ->
  n <= k /\ exists rest, t = repeat c k ++ GT :: rest.
Proof.
  unfold match_run_gt.
  destruct ((n <=? run (char_eqb c) t) && _) eqn:E; [|discriminate].
  intros H. inversion H; subst. apply andb_true_iff in E as [Hn Hgt].
  apply Nat.leb_le in Hn. split; [exact Hn|].
  apply startswith_prefix in Hgt as [rest Hrest]. exists rest.
  rewrite <- (firstn_skipn (run (char_eqb c) t) t) at 1.
  now rewrite firstn_run, Hrest.
Qed.

Lemma semis_consumed (t : text) (k : nat) (r : text) :
  match_semis t = Some (k, r) -> exists rest, t = repeat SEMI k ++ rest.
Proof.
  intros H. apply semis_replacement in H as (_ & -> & _).
  exists (skipn (run (char_eqb SEMI) t) t).
  now rewrite <- firstn_run, firstn_skipn.
Qed.

(* ================================================================== *)
(** * Repairing a repaired text                                         *)
(* ================================================================== *)

Local Abbreviation dashes := (match_run_gt DASH 4 (lit "-->")).
Local Abbreviation dots := (match_run_gt DOT 4 (lit "-..->")).
Local Abbreviation thick := (match_run_gt EQUALS 3 (lit "-->")).
Local Abbreviation collapse line :=
  (re_sub match_semis (re_sub dots (re_sub dashes line))).

Lemma absent_Forall (c : char) (s : text) :
  ~ In c s <-> Forall (fun x => x <> c) s.
Proof.
  rewrite Forall_forall. split.
  - intros H x Hx ->. now apply H.
  - intros H Hin. now apply (H c Hin).
Qed.

Lemma strip_absent (c : char) (t : text) : ~ In c t -> ~ In c (strip t).
Proof. rewrite !absent_Forall. apply Forall_strip. Qed.

(** A text without [===>] has no match of [={3,}>]. *)
Lemma quiet_thick (s : text) :
  contains (lit "===>") s = false -> quiet thick s.
Proof.
  intros H i. destruct (thick (skipn i s)) as [[k r]|] eqn:E; [exfalso|reflexivity].
  pose proof E as E'. apply run_gt_replacement in E' as [_ ->].
  apply run_gt_consumed in E as (Hk & rest & Hrest).
  assert (contains (lit "===>") (skipn i s) = true) as Hin.
  { rewrite Hrest.
    replace (run (char_eqb EQUALS) (skipn i s))
      with ((run (char_eqb EQUALS) (skipn i s) - 3) + 3) by lia.
    rewrite repeat_app, <- app_assoc.
    change (repeat EQUALS 3 ++ GT :: rest) with (lit "===>" ++ rest).
    apply contains_occurrence. }
  apply contains_skipn in Hin. congruence.
Qed.

Lemma replace_thick_quiet (new s : text) :
  quiet thick s -> replace (lit "===>") new s = s.
Proof.
  intros H. unfold replace, re_sub. apply sub_quiet. intros i.
  destruct (startswith (lit "===>") (skipn i s)) eqn:E; [|reflexivity].
  exfalso. apply startswith_prefix in E as [rest E].
  specialize (H i). rewrite E in H. discriminate H.
Qed.

Lemma replace_dots_quiet (new s : text) :
  quiet dots s -> replace (lit "....>") new s = s.
Proof.
  intros H. unfold replace, re_sub. apply sub_quiet. intros i.
  destruct (startswith (lit "....>") (skipn i s)) eqn:E; [|reflexivity].
  exfalso. apply startswith_prefix in E as [rest E].
  specialize (H i). rewrite E in H. discriminate H.
Qed.

(** What the collapses return is trimmed when their input is. *)
Lemma collapse_trimmed (t : text) : trimmed t -> trimmed (collapse t).
Proof.
  intros H. unfold re_sub.
  apply sub_go_trimmed.
  { intros u k r E. apply semis_replacement in E as (-> & _).
    split; [discriminate|split; reflexivity]. }
  apply sub_go_trimmed.
  { intros u k r E. apply run_gt_replacement in E as (-> & _).
    split; [discriminate|split; reflexivity]. }
  apply sub_go_trimmed; [|exact H].
  intros u k r E. apply run_gt_replacement in E as (-> & _).
  split; [discriminate|split; reflexivity].
Qed.

(** The collapses change nothing in what they return. *)
Lemma collapse_idempotent (t : text) : collapse (collapse t) = collapse t.
Proof.
  assert (re_sub dashes (collapse t) = collapse t) as ->.
  { apply sub_quiet. apply quiet_after_semis; [lia|discriminate|].
    apply quiet_dashes_after_dots, quiet_dashes. }
  assert (re_sub dots (collapse t) = collapse t) as ->.
  { apply sub_quiet. apply quiet_after_semis; [lia|discriminate|].
    apply quiet_dots. }
  apply semis_idempotent.
Qed.

(** The collapses make no [===>]. *)
Lemma arrows_thick (t : text) :
  quiet thick t -> quiet thick (re_sub dots (re_sub dashes t)).
Proof.
  intros H.
  change (lit "-..->") with (DASH :: [DOT; DOT; DASH; GT]).
  apply quiet_after_arrow; [lia|discriminate..| |].
  { repeat (apply Forall_cons; [auto|]). apply Forall_nil. }
  change (lit "-->") with (DASH :: [DASH; GT]).
  apply quiet_after_arrow; [lia|discriminate..| |exact H].
  repeat (apply Forall_cons; [auto|]). apply Forall_nil.
Qed.

Lemma collapse_thick (t : text) : quiet thick t -> quiet thick (collapse t).
Proof.
  intros H. apply quiet_after_semis; [lia|discriminate|].
  now apply arrows_thick.
Qed.

Lemma split1_absent (c : char) (s : text) : ~ In c s -> split1 c s = [s].
Proof.
  induction s as [|x s IH]; intros H; simpl; [reflexivity|].
  assert (char_eqb x c = false) as ->.
  { apply char_eqb_neq. intros ->. apply H. now left. }
  rewrite IH; [reflexivity|]. intros Hin. apply H. now right.
Qed.

Lemma repeat_absent (c x : char) (k : nat) : x <> c -> ~ In x (repeat c k).
Proof. intros H Hin. apply repeat_spec in Hin. congruence. Qed.

Lemma firstn_repeat_app (c x : char) (k : nat) (rest : text) :
  firstn (S k) (repeat c k ++ x :: rest) = repeat c k ++ [x].
Proof.
  induction k as [|k IH]; [reflexivity|].
  change (repeat c (S k) ++ x :: rest) with (c :: (repeat c k ++ x :: rest)).
  change (repeat c (S k) ++ [x]) with (c :: (repeat c k ++ [x])).
  rewrite <- IH. reflexivity.
Qed.

Lemma firstn_repeat (c : char) (k : nat) (rest : text) :
  firstn k (repeat c k ++ rest) = repeat c k.
Proof.
  induction k as [|k IH]; [reflexivity|]. simpl. now rewrite IH.
Qed.


(** ** The first and the last line of a trimmed text *)

Lemma strip_cons_nonblank (x : char) (l : text) :
  strip l <> [] -> strip (x :: l) <> [].
Proof.
  intros H. unfold strip in *. simpl lstrip.
  destruct (isspace x) eqn:E; [exact H|].
  rewrite rstrip_cons by exact E. discriminate.
Qed.

Lemma strip_clean_head (x : char) (l : text) :
  isspace x = false -> strip (x :: l) <> [].
Proof.
  intros E. unfold strip. simpl lstrip. rewrite E.
  rewrite rstrip_cons by exact E. discriminate.
Qed.

Lemma isspace_newline : isspace NL = true.
Proof. reflexivity. Qed.

(** The first line of a text that starts with no whitespace is not blank. *)
Lemma first_line_nonblank (x : char) (t : text) :
  isspace x = false ->
  exists l ls, split_on NL (x :: t) = (x :: l) :: ls.
Proof.
  intros E. simpl.
  assert (char_eqb x NL = false) as ->.
  { apply char_eqb_neq. intros ->. rewrite isspace_newline in E. discriminate. }
  destruct (split_on NL t) as [|l ls]; eauto.
Qed.

(** The last line of a text that ends with no whitespace is not blank. *)
Lemma last_line_nonblank (t : text) :
  t <> [] -> ends_clean t = true -> strip (last (split_on NL t) []) <> [].
Proof.
  induction t as [|x t IH]; intros Hne Hend; [congruence|].
  destruct t as [|y t'].
  - unfold ends_clean in Hend. simpl in Hend. apply negb_true_iff in Hend.
    simpl.
    assert (char_eqb x NL = false) as ->.
    { apply char_eqb_neq. intros ->. rewrite isspace_newline in Hend.
      discriminate. }
    simpl. now apply strip_clean_head.
  - assert (strip (last (split_on NL (y :: t')) []) <> []) as Hlast.
    { apply IH; [discriminate|].
      rewrite <- Hend. symmetry.
      change (x :: y :: t') with ([x] ++ y :: t').
      apply ends_clean_app. discriminate. }
    pose proof (split_on_nonempty NL (y :: t')) as Hlines.
    change (split_on NL (x :: y :: t'))
      with (if char_eqb x NL then [] :: split_on NL (y :: t')
            else match split_on NL (y :: t') with
                 | l :: ls => (x :: l) :: ls
                 | [] => [[x]]
                 end).
    destruct (split_on NL (y :: t')) as [|l ls]; [congruence|].
    destruct (char_eqb x NL).
    + exact Hlast.
    + destruct ls as [|l' ls]; [|exact Hlast].
      simpl in *. now apply strip_cons_nonblank.
Qed.

Lemma join_nonempty (sep : text) (parts : list text) :
  last parts [] <> [] -> join sep parts <> [].
Proof.
  induction parts as [|p ps IH]; intros H; [now simpl in H|].
  destruct ps as [|p' ps]; [exact H|].
  change (join sep (p :: p' :: ps)) with (p ++ sep ++ join sep (p' :: ps)).
  intros E. apply app_eq_nil in E as [_ E]. apply app_eq_nil in E as [_ E].
  now apply IH.
Qed.

Lemma join_ends_clean (sep : text) (parts : list text) :
  last parts [] <> [] ->
  ends_clean (last parts []) = true ->
  ends_clean (join sep parts) = true.
Proof.
  induction parts as [|p ps IH]; intros Hne Hend; [reflexivity|].
  destruct ps as [|p' ps]; [exact Hend|].
  change (join sep (p :: p' :: ps)) with (p ++ sep ++ join sep (p' :: ps)).
  rewrite app_assoc, ends_clean_app by (now apply join_nonempty).
  now apply IH.
Qed.

Lemma last_map_fix_line (lines : list text) :
  last (map fix_line lines) [] = fix_line (last lines []).
Proof.
  induction lines as [|l ls IH]; [reflexivity|].
  destruct ls as [|l' ls]; [reflexivity|]. exact IH.
Qed.

Lemma last_In (A : Type) (l : list A) (d : A) : l <> [] -> In (last l d) l.
Proof.
  induction l as [|x l IH]; intros H; [congruence|].
  destruct l as [|y l]; [now left|]. right. apply IH. discriminate.
Qed.
(** Without both markers the whole trimmed reply is the answer and there is
    no diagram. *)
Lemma extract_without_markers (reply : text) :
  contains DIAGRAM_START (strip reply) = false
  \/ contains DIAGRAM_END (strip reply) = false ->
  extract_diagram_from_response reply = (strip reply, None, None).
Proof.
  intros [H|H]; unfold extract_diagram_from_response; cbv zeta; rewrite H;
    [reflexivity|now rewrite andb_false_r].
Qed.


(* ================================================================== *)
(** * Further properties of the validators                              *)
(* ================================================================== *)

(** Every error of the loop over the lines begins with the line number. *)
Lemma check_lines_shape (lines : list text) :
  forall i e, In e (check_lines i lines) -> exists rest, e = lit "Line " ++ rest.
Proof.
  induction lines as [|l lines IH]; intros i e H; simpl in H; [contradiction|].
  apply in_app_or in H as [H|H]; [|now apply (IH (S i))].
  destruct (is_blank_or_comment _); [contradiction|].
  destruct (is_subgraph_or_end _); [contradiction|].
  unfold line_errors in H.
  repeat (apply in_app_or in H as [H|H]);
    match type of H with
    | In _ (if ?b then _ else _) => destruct b; [contradiction|]
    end; destruct H as [<-|[]]; eexists; reflexivity.
Qed.

(** X1.  The branch [if not lines] of [validate_mermaid_syntax] is dead:
    [str.split] never returns an empty list, so no input is ever reported
    as "Empty diagram code". *)
Theorem empty_diagram_code_never_reported (s : text) :
  ~ In (lit "Empty diagram code") (snd (validate_mermaid_syntax s)).
Proof.
  unfold validate_mermaid_syntax.
  destruct (split_on NL (strip s)) as [|l0 rest] eqn:E.
  - now apply split_on_nonempty in E.
  - cbv zeta. destruct (negb _); simpl snd.
    + intros [H|[]]. apply (f_equal (hd 0%N)) in H. discriminate H.
    + intros H. apply check_lines_shape in H as (r & H).
      apply (f_equal (hd 0%N)) in H. discriminate H.
Qed.

(** X2.  An empty or all-whitespace text is reported as an invalid diagram
    type, with an empty type name. *)
Theorem validate_blank_reports_type (s : text) :
  forallb isspace s = true ->
  validate_mermaid_syntax s = (false, [lit "Invalid diagram type: "]).
Proof.
  intros H. unfold validate_mermaid_syntax.
  rewrite strip_blank by exact H. reflexivity.
Qed.

(** An error of a line that is checked is in the report, under the number
    of the line. *)
Lemma check_lines_reports (lines : list text) :
  forall i k l e,
    nth_error lines k = Some l ->
    is_blank_or_comment (strip l) = false ->
    is_subgraph_or_end (strip l) = false ->
    In e (line_errors (i + k) (strip l)) ->
    In e (check_lines i lines).
Proof.
  induction lines as [|l0 lines IH]; intros i k l e Hk Hb Hs He.
  - destruct k; discriminate.
  - simpl. apply in_or_app. destruct k as [|k]; simpl in Hk.
    + inversion Hk; subst. left. rewrite Hb, Hs.
      now rewrite Nat.add_0_r in He.
    + right. apply (IH (S i) k l); try assumption.
      now rewrite Nat.add_succ_comm.
Qed.

Lemma reported_error_invalidates (s l0 : text) (rest : list text) (e : text) :
  split_on NL (strip s) = l0 :: rest ->
  existsb (fun t => startswith t (strip l0)) valid_types = true ->
  In e (check_lines 1 rest) ->
  fst (validate_mermaid_syntax s) = false
  /\ In e (snd (validate_mermaid_syntax s)).
Proof.
  intros Hsplit Hhead He. unfold validate_mermaid_syntax.
  rewrite Hsplit; cbv zeta. rewrite Hhead. simpl.
  split; [|exact He].
  destruct (check_lines 1 rest); [contradiction|reflexivity].
Qed.

(** X3.  Below a valid header, a line that is neither blank, a comment, a
    [subgraph] line nor [end] and whose brackets, parentheses or braces do
    not balance is always reported, under its position counted from 1 after
    the header (blank and comment lines are counted too), and the diagram is
    invalid. *)
Theorem unbalanced_line_reported (s l0 : text) (rest : list text) (k : nat)
    (l : text) :
  split_on NL (strip s) = l0 :: rest ->
  existsb (fun t => startswith t (strip l0)) valid_types = true ->
  nth_error rest k = Some l ->
  is_blank_or_comment (strip l) = false ->
  is_subgraph_or_end (strip l) = false ->
  (count LBRACKET (strip l) <> count RBRACKET (strip l) ->
   fst (validate_mermaid_syntax s) = false
   /\ In (lit "Line " ++ str_of_nat (S k) ++ lit ": Unmatched brackets")
         (snd (validate_mermaid_syntax s)))
  /\ (count LPAREN (strip l) <> count RPAREN (strip l) ->
      fst (validate_mermaid_syntax s) = false
      /\ In (lit "Line " ++ str_of_nat (S k) ++ lit ": Unmatched parentheses")
            (snd (validate_mermaid_syntax s)))
  /\ (count LBRACE (strip l) <> count RBRACE (strip l) ->
      fst (validate_mermaid_syntax s) = false
      /\ In (lit "Line " ++ str_of_nat (S k) ++ lit ": Unmatched braces")
            (snd (validate_mermaid_syntax s))).
Proof.
  intros Hsplit Hhead Hk Hb Hs.
  split; [|split]; intros Hne;
    apply Nat.eqb_neq in Hne;
    apply (@reported_error_invalidates s l0 rest _ Hsplit Hhead);
    apply (@check_lines_reports rest 1 k l _ Hk Hb Hs);
    change (1 + k) with (S k); unfold line_errors; rewrite Hne;
    repeat (apply in_or_app; first [left; now left | right]);
    try (now left).
Qed.

(** X4.  The thresholds of [validate_diagram_completeness] lie between 15
    and 35 node lines: with fewer than 15 a diagram is incomplete for every
    repository; with 35 or more and the word "subgraph" it is complete for
    every repository; for a repository of at most 10 files, 15 node lines
    are enough and no subgraph is asked for.  At most two issues are
    reported. *)
Theorem completeness_thresholds (code : text) (repo : repo_data) :
  let node_count := count_nodes (split_on NL code) in
  (node_count < 15 -> fst (validate_diagram_completeness code repo) = false)
  /\ (35 <= node_count ->
      contains (lit "subgraph") (lower code) = true ->
      validate_diagram_completeness code repo = (true, []))
  /\ (15 <= node_count ->
      length (file_contents repo) <= 10 ->
      validate_diagram_completeness code repo = (true, []))
  /\ length (snd (validate_diagram_completeness code repo)) <= 2.
Proof.
  cbv zeta. unfold validate_diagram_completeness, min_nodes_for; cbv zeta.
  split; [|split; [|split]].
  - intros Hn.
    assert (forall m, 15 <= m ->
              (count_nodes (split_on NL code) <? m) = true) as Hlt
        by (intros m Hm; apply Nat.ltb_lt; lia).
    destruct (length (file_contents repo) <? 20);
      [|destruct (length (file_contents repo) <? 50)];
      rewrite Hlt by lia;
      destruct (negb _ && _); reflexivity.
  - intros Hn Hsub. rewrite Hsub.
    assert (forall m, m <= 35 ->
              (count_nodes (split_on NL code) <? m) = false) as Hge
        by (intros m Hm; apply Nat.ltb_ge; lia).
    destruct (length (file_contents repo) <? 20);
      [|destruct (length (file_contents repo) <? 50)];
      rewrite Hge by lia; reflexivity.
  - intros Hn Hfiles.
    assert ((length (file_contents repo) <? 20) = true) as ->
        by (apply Nat.ltb_lt; lia).
    assert ((10 <? length (file_contents repo)) = false) as ->
        by (apply Nat.ltb_ge; lia).
    assert ((count_nodes (split_on NL code) <? 15) = false) as ->
        by (apply Nat.ltb_ge; lia).
    now rewrite andb_false_r.
  - split_cases; simpl; rewrite ?length_app; simpl; lia.
Qed.

(* ================================================================== *)
(** * Further properties of the repairer                                *)
(* ================================================================== *)

(** [s.split(c, 1)] cuts at the first [c]. *)
Lemma split1_parts (c : char) (s : text) :
  match split1 c s with
  | [before; rest] => s = before ++ c :: rest /\ ~ In c before
  | [whole] => whole = s /\ ~ In c s
  | _ => False
  end.
Proof.
  induction s as [|x s IH]; simpl; [now split|].
  destruct (char_eqb x c) eqn:E.
  - apply char_eqb_eq in E. subst x. split; [reflexivity|intros []].
  - apply char_eqb_neq in E.
    destruct (split1 c s) as [|before [|rest [|more]]]; try contradiction.
    + destruct IH as [-> Hin]. split; [reflexivity|].
      intros [H|H]; [congruence|contradiction].
    + destruct IH as [-> Hin]. split; [reflexivity|].
      intros [H|H]; [congruence|contradiction].
Qed.

(** A match of the identifier pattern keeps the first character. *)
Lemma ident_gap_head (isw : char -> bool) (x : char) (t : text) (k : nat)
    (r : text) :
  match_ident_gap isw (x :: t) = Some (k, r) -> exists r', r = x :: r'.
Proof.
  unfold match_ident_gap. simpl (run isw (x :: t)).
  destruct (isw x); cbv zeta.
  - destruct (_ && _); [|discriminate]. intros E. inversion E. simpl. eauto.
  - simpl. discriminate.
Qed.

Lemma fix_node_id_trimmed (line : text) :
  trimmed line -> trimmed (fix_node_id line).
Proof.
  intros [Hs He]. unfold fix_node_id.
  destruct (_ || _); [|now split].
  pose proof (split1_parts LBRACKET line) as Hp.
  destruct (split1 LBRACKET line) as [|before [|rest more]]; try now split.
  destruct more; [|contradiction]. destruct Hp as [-> _]. split.
  - destruct before as [|x b]; [reflexivity|].
    unfold re_sub. simpl sub_go.
    destruct (match_ident_gap isword (x :: b)) as [[[|n] r]|] eqn:E;
      try exact Hs.
    apply ident_gap_head in E as (r' & ->). exact Hs.
  - rewrite ends_clean_app by discriminate.
    now rewrite ends_clean_app in He by discriminate.
Qed.

Lemma replace_trimmed (old new s : text) :
  new <> [] -> trimmed new -> trimmed s -> trimmed (replace old new s).
Proof.
  intros Hne Hnew Hs. unfold replace, re_sub.
  apply sub_go_trimmed; [|exact Hs].
  intros t k r E. destruct (startswith old t); [|discriminate].
  inversion E; subst. now split.
Qed.

(** Every repaired line is trimmed. *)
Lemma fix_line_trimmed (l : text) : trimmed (fix_line l).
Proof.
  unfold fix_line; cbv zeta.
  destruct (is_blank_or_comment _); [apply trimmed_strip|].
  destruct (is_subgraph_or_end _); [apply trimmed_strip|].
  unfold re_sub. apply sub_go_trimmed.
  { intros u k r E. apply semis_replacement in E as (-> & _).
    split; [discriminate|split; reflexivity]. }
  apply fix_node_id_trimmed.
  apply replace_trimmed; [discriminate|split; reflexivity|].
  apply replace_trimmed; [discriminate|split; reflexivity|].
  apply sub_go_trimmed.
  { intros u k r E. apply run_gt_replacement in E as (-> & _).
    split; [discriminate|split; reflexivity]. }
  apply sub_go_trimmed; [|apply trimmed_strip].
  intros u k r E. apply run_gt_replacement in E as (-> & _).
  split; [discriminate|split; reflexivity].
Qed.

Lemma strip_fences_trimmed (s : text) : trimmed (strip_fences (strip s)).
Proof.
  unfold strip_fences.
  destruct (startswith FENCE_MERMAID _); [apply trimmed_strip|].
  destruct (startswith FENCE _); apply trimmed_strip.
Qed.

(** The repaired lines of a trimmed text, joined, are a trimmed text. *)
Lemma join_fix_lines_trimmed (code : text) :
  trimmed code -> trimmed (join [NL] (map fix_line (split_on NL code))).
Proof.
  intros [Hstart Hend].
  destruct code as [|x t]; [split; reflexivity|].
  simpl in Hstart. apply negb_true_iff in Hstart.
  split.
  - destruct (@first_line_nonblank x t Hstart) as (l & ls & Hsplit).
    rewrite Hsplit.
    assert (fix_line (x :: l) <> []) as Hne
        by (apply fix_line_nonblank; now apply strip_clean_head).
    assert (starts_clean (fix_line (x :: l)) = true) as Hc
        by apply fix_line_trimmed.
    destruct ls as [|l' ls]; [exact Hc|].
    change (join [NL] (map fix_line ((x :: l) :: l' :: ls)))
      with (fix_line (x :: l) ++ [NL] ++ join [NL] (map fix_line (l' :: ls))).
    now rewrite starts_clean_app.
  - apply join_ends_clean; rewrite last_map_fix_line.
    + apply fix_line_nonblank, last_line_nonblank; [discriminate|exact Hend].
    + apply fix_line_trimmed.
Qed.

(** X5.  The repairer returns a text in normal form: the text has no leading
    or trailing whitespace, and neither has any of its lines (indentation is
    removed). *)
Theorem fix_mermaid_syntax_output_trimmed (s : text) :
  strip (fix_mermaid_syntax s) = fix_mermaid_syntax s
  /\ Forall (fun l => strip l = l) (split_on NL (fix_mermaid_syntax s)).
Proof.
  split.
  - apply strip_trimmed. unfold fix_mermaid_syntax; cbv zeta.
    apply join_fix_lines_trimmed, strip_fences_trimmed.
  - rewrite fix_mermaid_syntax_lines. apply Forall_forall. intros o Ho.
    apply in_map_iff in Ho as (l & <- & _).
    apply strip_trimmed, fix_line_trimmed.
Qed.

(** A text in which no two [c] are adjacent has no [cc]. *)
Lemma single_runs_no_pair (c : char) (t : text) :
  (forall i, run (char_eqb c) (skipn i t) <= 1) -> contains [c; c] t = false.
Proof.
  induction t as [|x t IH]; intros H; [reflexivity|].
  change (contains [c; c] (x :: t))
    with (startswith [c; c] (x :: t) || contains [c; c] t).
  rewrite IH by (intros i; exact (H (S i))).
  rewrite orb_false_r.
  destruct (startswith [c; c] (x :: t)) eqn:E; [|reflexivity].
  apply startswith_prefix in E as (rest & E).
  specialize (H 0). rewrite E in H. simpl in H.
  rewrite !char_eqb_refl in H. lia.
Qed.

(** X6.  After the repair, a line that is not a comment, a [subgraph] line
    or [end] has no two semicolons in a row. *)
Theorem fix_mermaid_syntax_single_semicolons (s : text) :
  Forall (fun l => is_blank_or_comment l = true
                   \/ is_subgraph_or_end l = true
                   \/ contains (lit ";;") l = false)
         (split_on NL (fix_mermaid_syntax s)).
Proof.
  rewrite fix_mermaid_syntax_lines. apply Forall_forall. intros o Ho.
  apply in_map_iff in Ho as (l & <- & _). unfold fix_line; cbv zeta.
  destruct (is_blank_or_comment (strip l)) eqn:Eb; [now left|].
  destruct (is_subgraph_or_end (strip l)) eqn:Es; [now right; left|].
  right; right. change (lit ";;") with [SEMI; SEMI].
  apply single_runs_no_pair. intros i. apply semis_single.
Qed.

(** Replacing [===>] by an arrow makes no run of four dots before [>]. *)
Lemma quiet_dots_after_thick (s : text) :
  quiet dots s -> quiet dots (replace (lit "===>") (lit "-->") s).
Proof.
  intros Hs. unfold replace, re_sub.
  apply quiet_sub_go; [lia| | |intros i; left; apply Hs].
  - intros t k r j y Hm _.
    destruct (startswith _ t); [|discriminate]. inversion Hm; subst.
    change (lit "-->" ++ y) with (DASH :: lit "->" ++ y).
    rewrite run_gt_decided by discriminate.
    now rewrite andb_false_r.
  - intros t k r i y Hm Hi.
    destruct (startswith _ t); [|discriminate]. inversion Hm; subst.
    destruct i as [|[|[|i]]]; try reflexivity. simpl in Hi. lia.
Qed.

(** X7.  The statement [line.replace('....>', '-..->')] never changes the
    line: the substitution of [\.{4,}>] two statements before it has left
    no four dots before [>], and the replacement of [===>] makes none. *)
Theorem dotted_replace_changes_nothing (line : text) :
  let line := re_sub (match_run_gt DASH 4 (lit "-->")) line in
  let line := re_sub (match_run_gt DOT 4 (lit "-..->")) line in
  let line := replace (lit "===>") (lit "-->") line in
  replace (lit "....>") (lit "-..->") line = line.
Proof.
  cbv zeta. apply replace_dots_quiet, quiet_dots_after_thick, quiet_dots.
Qed.

(* ================================================================== *)
(** * Further properties of the response parser                         *)
(* ================================================================== *)

(** ** Occurrences *)

Lemma contains_split (p s : text) :
  contains p s = true -> exists a b, s = a ++ p ++ b.
Proof.
  induction s as [|x s IH]; simpl; intros H.
  - rewrite orb_false_r in H. apply startswith_prefix in H as (rest & ->).
    now exists [], rest.
  - apply orb_true_iff in H as [H|H].
    + apply startswith_prefix in H as (rest & ->). now exists [], rest.
    + destruct (IH H) as (a & b & ->). now exists (x :: a), b.
Qed.

(** An occurrence in a part of a text is an occurrence in the text. *)
Lemma contains_factor (p a b w : text) :
  contains p b = true -> contains p (a ++ b ++ w) = true.
Proof.
  intros H. apply contains_split in H as (a' & b' & ->).
  replace (a ++ (a' ++ p ++ b') ++ w) with ((a ++ a') ++ p ++ (b' ++ w))
    by now rewrite <- !app_assoc.
  apply contains_occurrence.
Qed.

Lemma contains_strip_factor (p t : text) :
  contains p (strip t) = true -> contains p t = true.
Proof.
  intros H. destruct (strip_factor t) as (a & w & E).
  rewrite E. now apply contains_factor.
Qed.

Lemma contains_lstrip_factor (p t : text) :
  contains p (lstrip t) = true -> contains p t = true.
Proof.
  intros H. destruct (lstrip_factor t) as (a & E).
  rewrite E, <- (app_nil_r (lstrip t)). now apply contains_factor.
Qed.

Lemma lstrip_app (a b : text) :
  b <> [] -> starts_clean b = true -> lstrip (a ++ b) = lstrip a ++ b.
Proof.
  intros Hne Hb. induction a as [|x a IH]; simpl.
  - now apply lstrip_clean.
  - destruct (isspace x); [exact IH|reflexivity].
Qed.

Lemma rstrip_app (a b : text) :
  a <> [] -> ends_clean a = true -> rstrip (a ++ b) = a ++ rstrip b.
Proof.
  intros Hne Ha. unfold rstrip. rewrite rev_app_distr, lstrip_app.
  - now rewrite rev_app_distr, rev_involutive.
  - intros E. apply (f_equal (@rev char)) in E.
    rewrite rev_involutive in E. now apply Hne.
  - exact Ha.
Qed.

(** Trimming a text around a trimmed, non-empty part. *)
Lemma strip_around (a p b : text) :
  p <> [] -> trimmed p -> strip (a ++ p ++ b) = lstrip a ++ p ++ rstrip b.
Proof.
  intros Hne [Hs He]. unfold strip.
  rewrite lstrip_app.
  - rewrite !app_assoc, rstrip_app, <- !app_assoc; [reflexivity| |].
    + intros E. apply app_eq_nil in E as [_ E]. now apply Hne.
    + now rewrite ends_clean_app.
  - intros E. apply app_eq_nil in E as [E _]. now apply Hne.
  - now rewrite starts_clean_app.
Qed.

(** Whitespace around a text hides no occurrence of a trimmed pattern. *)
Lemma contains_strip (p t : text) :
  p <> [] -> trimmed p -> contains p (strip t) = contains p t.
Proof.
  intros Hne Hp. destruct (contains p t) eqn:E.
  - apply contains_split in E as (a & b & ->).
    rewrite strip_around by assumption. apply contains_occurrence.
  - destruct (contains p (strip t)) eqn:E'; [|reflexivity].
    apply contains_strip_factor in E'. congruence.
Qed.

Lemma contains_index (p s : text) :
  contains p s = true -> exists i, index p s = Some i.
Proof.
  induction s as [|x s IH]; simpl; intros H.
  - rewrite orb_false_r in H. rewrite H. now exists 0.
  - destruct (startswith p (x :: s)); [now exists 0|].
    destruct (IH H) as (i & ->). now exists (S i).
Qed.

Lemma index_at_start (p rest : text) : index p (p ++ rest) = Some 0.
Proof.
  pose proof (startswith_app p rest) as H.
  destruct (p ++ rest); simpl; now rewrite H.
Qed.

Lemma startswith_firstn (p : text) (n : nat) (s : text) :
  startswith p (firstn n s) = true -> startswith p s = true.
Proof.
  revert n s. induction p as [|x p IH]; intros n s H; [reflexivity|].
  destruct n as [|n], s as [|y s]; simpl in *; try discriminate.
  apply andb_true_iff in H as [-> H]. now apply IH in H.
Qed.

(** No occurrence lies before the first one. *)
Lemma index_is_first (p s : text) (i : nat) :
  p <> [] -> index p s = Some i -> contains p (firstn i s) = false.
Proof.
  intros Hne. revert i. induction s as [|x s IH]; intros i H; simpl in H.
  - destruct p; [congruence|discriminate].
  - destruct (startswith p (x :: s)) eqn:E.
    + inversion H; subst. destruct p; [congruence|reflexivity].
    + destruct (index p s) as [i'|]; [|discriminate].
      inversion H; subst.
      change (firstn (S i') (x :: s)) with (x :: firstn i' s).
      change (contains p (x :: firstn i' s))
        with (startswith p (x :: firstn i' s) || contains p (firstn i' s)).
      rewrite (IH i' eq_refl), orb_false_r.
      destruct (startswith p (x :: firstn i' s)) eqn:E'; [|reflexivity].
      change (x :: firstn i' s) with (firstn (S i') (x :: s)) in E'.
      apply startswith_firstn in E'. congruence.
Qed.

(** A pattern whose first character occurs nowhere else in it cannot start
    before that character and end after it. *)
Lemma startswith_fits (c : char) (q d rest : text) :
  ~ In c q -> startswith q (d ++ c :: rest) = true -> startswith q d = true.
Proof.
  revert d. induction q as [|y q IH]; intros d Hc H; [reflexivity|].
  destruct d as [|z d]; simpl in *.
  - apply andb_true_iff in H as [H _]. apply char_eqb_eq in H.
    exfalso. apply Hc. now left.
  - apply andb_true_iff in H as [-> H]. apply IH in H; [exact H|].
    intros Hin. apply Hc. now right.
Qed.

Lemma startswith_before (c : char) (p' u rest : text) :
  ~ In c p' ->
  contains (c :: p') u = false ->
  u <> [] ->
  startswith (c :: p') (u ++ c :: rest) = false.
Proof.
  intros Hc Hu Hne. destruct u as [|x u]; [congruence|].
  destruct (startswith (c :: p') ((x :: u) ++ c :: rest)) eqn:E; [|reflexivity].
  simpl in E. apply andb_true_iff in E as [Ex E].
  apply startswith_fits in E; [|exact Hc].
  simpl in Hu. rewrite Ex, E in Hu. discriminate.
Qed.

Lemma contains_tail (p : text) (x : char) (u : text) :
  contains p (x :: u) = false -> contains p u = false.
Proof.
  simpl. intros H. now apply orb_false_iff in H as [_ H].
Qed.

(** The first occurrence after a stretch that has none. *)
Lemma index_skip (c : char) (p' u rest : text) :
  ~ In c p' ->
  contains (c :: p') u = false ->
  index (c :: p') (u ++ c :: rest)
  = option_map (Nat.add (length u)) (index (c :: p') (c :: rest)).
Proof.
  intros Hc. induction u as [|x u IH]; intros Hu.
  - simpl app. now destruct (index (c :: p') (c :: rest)).
  - change (index (c :: p') ((x :: u) ++ c :: rest))
      with (if startswith (c :: p') ((x :: u) ++ c :: rest) then Some 0
            else option_map S (index (c :: p') (u ++ c :: rest))).
    rewrite startswith_before by (assumption || discriminate).
    rewrite IH by (now apply contains_tail in Hu).
    now destruct (index (c :: p') (c :: rest)).
Qed.

Lemma contains_join (c : char) (p' u v : text) :
  ~ In c p' ->
  contains (c :: p') u = false ->
  contains (c :: p') (c :: v) = false ->
  contains (c :: p') (u ++ c :: v) = false.
Proof.
  intros Hc. induction u as [|x u IH]; intros Hu Hv; [exact Hv|].
  change (contains (c :: p') ((x :: u) ++ c :: v))
    with (startswith (c :: p') ((x :: u) ++ c :: v)
          || contains (c :: p') (u ++ c :: v)).
  rewrite startswith_before by (assumption || discriminate).
  apply IH; [now apply contains_tail in Hu|exact Hv].
Qed.

Lemma contains_past (c : char) (p' u v : text) :
  ~ In c u -> contains (c :: p') (u ++ v) = contains (c :: p') v.
Proof.
  induction u as [|x u IH]; intros Hu; [reflexivity|].
  change (contains (c :: p') ((x :: u) ++ v))
    with (char_eqb c x && startswith p' (u ++ v) || contains (c :: p') (u ++ v)).
  assert (char_eqb c x = false) as ->.
  { apply char_eqb_neq. intros ->. apply Hu. now left. }
  apply IH. intros Hin. apply Hu. now right.
Qed.

(** ** The parser *)

Lemma marker_shapes :
  DIAGRAM_START = LBRACKET :: lit "DIAGRAM_START]"
  /\ DIAGRAM_END = LBRACKET :: lit "DIAGRAM_END]"
  /\ ~ In LBRACKET (lit "DIAGRAM_START]")
  /\ ~ In LBRACKET (lit "DIAGRAM_END]")
  /\ trimmed DIAGRAM_START /\ trimmed DIAGRAM_END.
Proof.
  repeat split; try reflexivity;
    apply absent_char; reflexivity.
Qed.

(** X8.  A diagram is extracted exactly when both markers occur in the reply, in
    whatever order; otherwise the trimmed reply is the answer and there is
    no diagram.  The diagram type is always that of the extracted code. *)
Theorem extract_diagram_iff_markers (reply : text) :
  (contains DIAGRAM_START reply && contains DIAGRAM_END reply = true ->
   exists answer code,
     extract_diagram_from_response reply
     = (answer, Some code, Some (detect_diagram_type code)))
  /\ (contains DIAGRAM_START reply && contains DIAGRAM_END reply = false ->
      extract_diagram_from_response reply = (strip reply, None, None)).
Proof.
  destruct marker_shapes as (_ & _ & _ & _ & Hts & Hte).
  unfold extract_diagram_from_response; cbv zeta.
  rewrite !contains_strip by (assumption || discriminate).
  split; intros H; rewrite H; [|reflexivity].
  apply andb_true_iff in H as [Hs He].
  rewrite <- (@contains_strip DIAGRAM_START reply) in Hs
    by (assumption || discriminate).
  rewrite <- (@contains_strip DIAGRAM_END reply) in He
    by (assumption || discriminate).
  apply contains_index in Hs as (i & ->).
  apply contains_index in He as (j & ->).
  eauto.
Qed.

(** X9.  When a diagram is extracted, the answer is the text before the first
    start marker: it never contains the start marker. *)
Theorem extract_answer_without_start_marker (reply answer code : text)
    (type : option text) :
  extract_diagram_from_response reply = (answer, Some code, type) ->
  contains DIAGRAM_START answer = false.
Proof.
  unfold extract_diagram_from_response; cbv zeta.
  destruct (_ && _); [|discriminate].
  destruct (index DIAGRAM_START (strip reply)) as [i|] eqn:Ei; [|discriminate].
  destruct (index DIAGRAM_END (strip reply)) as [j|]; [|discriminate].
  intros E. inversion E; subst.
  destruct (contains DIAGRAM_START (strip (firstn i (strip reply)))) eqn:Ec;
    [|reflexivity].
  apply contains_strip_factor in Ec.
  rewrite index_is_first in Ec by (exact Ei || discriminate). discriminate.
Qed.

(** X10.  A reply built as answer, start marker, diagram, end marker and anything
    after it is parsed back into its parts: the answer is the trimmed text
    before the start marker, the diagram is the repaired text between the
    markers, and what follows the end marker is dropped.  The answer part
    must contain neither marker and the diagram part no end marker. *)
Theorem extract_wrapped_reply (a d tail : text) :
  contains DIAGRAM_START a = false ->
  contains DIAGRAM_END a = false ->
  contains DIAGRAM_END d = false ->
  extract_diagram_from_response
    (a ++ DIAGRAM_START ++ d ++ DIAGRAM_END ++ tail)
  = (strip a,
     Some (clean_mermaid_code (strip d)),
     Some (detect_diagram_type (clean_mermaid_code (strip d)))).
Proof.
  intros Hsa Hea Hed.
  destruct marker_shapes as (Es & Ee & Hs' & He' & Hts & Hte).
  assert (contains DIAGRAM_START (lstrip a) = false) as HsA.
  { destruct (contains DIAGRAM_START (lstrip a)) eqn:E; [|reflexivity].
    apply contains_lstrip_factor in E. congruence. }
  assert (contains DIAGRAM_END (lstrip a) = false) as HeA.
  { destruct (contains DIAGRAM_END (lstrip a)) eqn:E; [|reflexivity].
    apply contains_lstrip_factor in E. congruence. }
  unfold extract_diagram_from_response; cbv zeta.
  assert (strip (a ++ DIAGRAM_START ++ d ++ DIAGRAM_END ++ tail)
          = lstrip a ++ DIAGRAM_START ++ d ++ DIAGRAM_END ++ rstrip tail) as ->.
  { replace (a ++ DIAGRAM_START ++ d ++ DIAGRAM_END ++ tail)
      with (a ++ (DIAGRAM_START ++ d ++ DIAGRAM_END) ++ tail)
      by now rewrite <- !app_assoc.
    rewrite strip_around; [now rewrite <- !app_assoc|discriminate|].
    split; [reflexivity|].
    now rewrite app_assoc, ends_clean_app by discriminate. }
  set (A := lstrip a) in *. set (T := rstrip tail).
  rewrite contains_occurrence.
  assert (contains DIAGRAM_END (A ++ DIAGRAM_START ++ d ++ DIAGRAM_END ++ T)
          = true) as ->.
  { replace (A ++ DIAGRAM_START ++ d ++ DIAGRAM_END ++ T)
      with ((A ++ DIAGRAM_START ++ d) ++ DIAGRAM_END ++ T)
      by now rewrite <- !app_assoc.
    apply contains_occurrence. }
  cbn [andb].
  assert (index DIAGRAM_START (A ++ DIAGRAM_START ++ d ++ DIAGRAM_END ++ T)
          = Some (length A)) as ->.
  { rewrite Es at 2. rewrite Es in HsA.
    change ((LBRACKET :: lit "DIAGRAM_START]") ++ d ++ DIAGRAM_END ++ T)
      with (LBRACKET :: lit "DIAGRAM_START]" ++ d ++ DIAGRAM_END ++ T).
    rewrite Es, index_skip by assumption.
    change (LBRACKET :: lit "DIAGRAM_START]" ++ d ++ DIAGRAM_END ++ T)
      with ((LBRACKET :: lit "DIAGRAM_START]") ++ d ++ DIAGRAM_END ++ T).
    rewrite index_at_start. simpl. now rewrite Nat.add_0_r. }
  assert (contains DIAGRAM_END (A ++ DIAGRAM_START ++ d) = false) as Hu.
  { rewrite Es, Ee.
    change ((LBRACKET :: lit "DIAGRAM_START]") ++ d)
      with (LBRACKET :: lit "DIAGRAM_START]" ++ d).
    apply contains_join; [exact He'|now rewrite <- Ee|].
    change (contains (LBRACKET :: lit "DIAGRAM_END]")
                     (LBRACKET :: lit "DIAGRAM_START]" ++ d))
      with (false || contains (LBRACKET :: lit "DIAGRAM_END]")
                              (lit "DIAGRAM_START]" ++ d)).
    rewrite contains_past by exact Hs'. now rewrite <- Ee. }
  assert (index DIAGRAM_END (A ++ DIAGRAM_START ++ d ++ DIAGRAM_END ++ T)
          = Some (length (A ++ DIAGRAM_START ++ d))) as ->.
  { replace (A ++ DIAGRAM_START ++ d ++ DIAGRAM_END ++ T)
      with ((A ++ DIAGRAM_START ++ d) ++ DIAGRAM_END ++ T)
      by now rewrite <- !app_assoc.
    rewrite Ee at 2. rewrite Ee in Hu.
    change ((LBRACKET :: lit "DIAGRAM_END]") ++ T)
      with (LBRACKET :: lit "DIAGRAM_END]" ++ T).
    rewrite Ee, index_skip by assumption.
    change (LBRACKET :: lit "DIAGRAM_END]" ++ T)
      with ((LBRACKET :: lit "DIAGRAM_END]") ++ T).
    rewrite index_at_start. simpl. now rewrite Nat.add_0_r. }
  assert (slice (length A + length DIAGRAM_START)
                (length (A ++ DIAGRAM_START ++ d))
                (A ++ DIAGRAM_START ++ d ++ DIAGRAM_END ++ T) = d) as ->.
  { unfold slice.
    replace (length (A ++ DIAGRAM_START ++ d)
             - (length A + length DIAGRAM_START)) with (length d)
      by (rewrite !length_app; lia).
    rewrite <- length_app.
    replace (A ++ DIAGRAM_START ++ d ++ DIAGRAM_END ++ T)
      with ((A ++ DIAGRAM_START) ++ d ++ DIAGRAM_END ++ T)
      by now rewrite <- !app_assoc.
    rewrite skipn_app, skipn_all, Nat.sub_diag. simpl.
    rewrite firstn_app, firstn_all, Nat.sub_diag. simpl.
    apply app_nil_r. }
  rewrite firstn_app, firstn_all, Nat.sub_diag. simpl firstn.
  rewrite app_nil_r.
  assert (strip A = strip a) as ->.
  { unfold A, strip. now rewrite lstrip_clean by apply starts_clean_lstrip. }
  reflexivity.
Qed.

(* ================================================================== *)
(** * Further properties of the component extraction                    *)
(* ================================================================== *)

(** Induction on a file tree, with the hypothesis for every entry of a
    directory. *)
Lemma node_induction (P : node -> Prop) :
  P Leaf ->
  (forall entries, Forall (fun kv => P (snd kv)) entries -> P (Folder entries)) ->
  forall value, P value.
Proof.
  intros HL HF. fix IH 1. intros [|entries]; [exact HL|].
  apply HF. induction entries as [|[k v] es IHes]; constructor;
    [apply IH|exact IHes].
Qed.

(** The visit of a directory: its path is recorded, then its entries are
    visited in order. *)
Lemma traverse_folder (path key : text) (entries : list (text * node))
    (c : components) :
  traverse_item path key (Folder entries) c
  = let current_path := if is_empty path then key else path ++ lit "/" ++ key in
    fold_left (fun c kv => traverse_item current_path (fst kv) (snd kv) c)
              entries (append_to folders current_path c).
Proof.
  cbv zeta. simpl.
  match goal with
  | |- context [append_to folders ?p c] => generalize (append_to folders p c)
  end.
  induction entries as [|[k v] es IH]; intros acc; [reflexivity|].
  simpl. apply IH.
Qed.

Lemma fold_left_preserves (A B : Type) (P : A -> Prop) (f : A -> B -> A)
    (l : list B) :
  (forall a b, In b l -> P a -> P (f a b)) ->
  forall a, P a -> P (fold_left f l a).
Proof.
  induction l as [|b l IH]; intros Hf a Ha; [exact Ha|].
  simpl. apply IH.
  - intros a' b' Hin. apply Hf. now right.
  - apply Hf; [now left|exact Ha].
Qed.

(** What holds of the buckets before a visit and is kept by the record of a
    file and by the record of a directory holds after the visit. *)
Lemma traverse_item_preserves (P : components -> Prop) :
  (forall p c, P c -> P (classify p c)) ->
  (forall p c, P c -> P (append_to folders p c)) ->
  forall value path key c, P c -> P (traverse_item path key value c).
Proof.
  intros Hfile Hdir value.
  induction value as [|entries IH] using node_induction; intros path key c Hc.
  - apply Hfile, Hc.
  - rewrite traverse_folder; cbv zeta.
    apply fold_left_preserves; [|apply Hdir, Hc].
    intros a kv Hin Ha. rewrite Forall_forall in IH. now apply IH.
Qed.

Lemma traverse_structure_preserves (P : components -> Prop) :
  (forall p c, P c -> P (classify p c)) ->
  (forall p c, P c -> P (append_to folders p c)) ->
  forall obj c, P c -> P (traverse_structure obj c).
Proof.
  intros Hfile Hdir obj c Hc. unfold traverse_structure.
  apply fold_left_preserves; [|exact Hc].
  intros a kv _ Ha. now apply traverse_item_preserves.
Qed.

Lemma append_to_other (k b : bucket) (p : text) (c : components) :
  k <> b -> append_to k p c b = c b.
Proof.
  intros H. unfold append_to.
  destruct (bucket_beq k b) eqn:E; [|reflexivity].
  apply internal_bucket_dec_bl in E. congruence.
Qed.

Lemma append_to_same (k : bucket) (p : text) (c : components) :
  append_to k p c k = c k ++ [p].
Proof.
  unfold append_to.
  now rewrite (@internal_bucket_dec_lb k k eq_refl).
Qed.

Lemma append_if_other (cond : bool) (k b : bucket) (p : text) (c : components) :
  k <> b -> append_if cond k p c b = c b.
Proof.
  intros H. unfold append_if. destruct cond; [|reflexivity].
  now apply append_to_other.
Qed.

(** The record of a file touches neither the directories nor the
    dependencies nor the API endpoints. *)
Lemma classify_other (b : bucket) (p : text) (c : components) :
  b = folders \/ b = dependencies \/ b = api_endpoints ->
  classify p c b = c b.
Proof.
  intros Hb. unfold classify; cbv zeta.
  rewrite !append_if_other by (destruct Hb as [->|[->| ->]]; discriminate).
  apply append_to_other. destruct Hb as [->|[->| ->]]; discriminate.
Qed.

Lemma classify_all_files (p : text) (c : components) :
  classify p c all_files = c all_files ++ [p].
Proof.
  unfold classify; cbv zeta.
  rewrite !append_if_other by discriminate.
  apply append_to_same.
Qed.

(** What the scan of the file contents does to the buckets. *)
Lemma scan_manifest_other (content : text) (c : components) (b : bucket) :
  b <> dependencies -> scan_manifest content c b = c b.
Proof.
  intros Hb. unfold scan_manifest.
  apply (@fold_left_preserves _ _ (fun c' : components => c' b = c b));
    [|reflexivity].
  intros a l _ Ha. destruct (_ && _); [|exact Ha].
  rewrite append_to_other by congruence. exact Ha.
Qed.

Lemma scan_contents_other (files : list (text * file_data)) (c : components)
    (b : bucket) :
  b <> dependencies ->
  fold_left
    (fun c fd =>
       match snd fd with
       | Raw content => if is_manifest (fst fd) then scan_manifest content c else c
       | Info _ _ => c
       end) files c b
  = c b.
Proof.
  intros Hb.
  apply (@fold_left_preserves _ _ (fun c' : components => c' b = c b));
    [|reflexivity].
  intros a fd _ Ha. destruct (snd fd); [|exact Ha].
  destruct (is_manifest _); [|exact Ha].
  now rewrite scan_manifest_other.
Qed.

(** The scan of the file contents changes no bucket but [dependencies]. *)
Lemma extract_tree_bucket (repo : repo_data) (b : bucket) :
  b <> dependencies ->
  extract_detailed_repo_components repo b
  = traverse_structure (file_structure repo) empty_components b.
Proof.
  intros Hb. unfold extract_detailed_repo_components; cbv zeta.
  now apply scan_contents_other.
Qed.

(** The traversal of the tree fills neither [dependencies] nor
    [api_endpoints]. *)
Lemma traverse_structure_leaves (obj : list (text * node)) (b : bucket) :
  b = dependencies \/ b = api_endpoints ->
  traverse_structure obj empty_components b = [].
Proof.
  intros Hb.
  apply (@traverse_structure_preserves (fun c => c b = [])); [| |reflexivity].
  - intros p c Hc. rewrite classify_other; [exact Hc|].
    destruct Hb as [->| ->]; auto.
  - intros p c Hc. rewrite append_to_other; [exact Hc|].
    destruct Hb as [->| ->]; discriminate.
Qed.

(** X11.  The bucket [api_endpoints] is declared and never filled; the file tree
    alone determines every bucket but [dependencies] (so the file count of
    the prompt does not depend on [file_contents]), and it contributes no
    dependency. *)
Theorem components_frame (repo : repo_data) :
  extract_detailed_repo_components repo api_endpoints = []
  /\ (forall b, b <> dependencies ->
        extract_detailed_repo_components repo b
        = traverse_structure (file_structure repo) empty_components b)
  /\ traverse_structure (file_structure repo) empty_components dependencies = [].
Proof.
  split; [|split].
  - rewrite extract_tree_bucket by discriminate.
    apply traverse_structure_leaves. now right.
  - intros b Hb. now apply extract_tree_bucket.
  - apply traverse_structure_leaves. now left.
Qed.

(** Sums over the entries of a directory. *)
Lemma fold_left_count (f : node -> nat) (g : components -> nat)
    (path : text) (entries : list (text * node)) :
  Forall (fun kv => forall key c,
            g (traverse_item path key (snd kv) c) = g c + f (snd kv)) entries ->
  forall c,
    g (fold_left (fun c kv => traverse_item path (fst kv) (snd kv) c) entries c)
    = g c + list_sum (map (fun kv => f (snd kv)) entries).
Proof.
  induction entries as [|kv es IH]; intros H c; simpl; [lia|].
  inversion H as [|? ? Hkv Hes]; subst.
  rewrite IH by exact Hes. rewrite Hkv. lia.
Qed.

Lemma traverse_item_counts (value : node) :
  forall path key c,
    length (traverse_item path key value c all_files)
    = length (c all_files) + tree_files value
    /\ length (traverse_item path key value c folders)
       = length (c folders) + tree_folders value.
Proof.
  induction value as [|entries IH] using node_induction; intros path key c.
  - simpl traverse_item. rewrite classify_all_files, length_app.
    rewrite classify_other by (now left). simpl. lia.
  - rewrite traverse_folder; cbv zeta. simpl tree_files. simpl tree_folders.
    split.
    + rewrite (@fold_left_count tree_files (fun c => length (c all_files))).
      * rewrite append_to_other by discriminate. reflexivity.
      * apply Forall_forall. intros kv Hin k' c'.
        rewrite Forall_forall in IH. apply IH, Hin.
    + rewrite (@fold_left_count tree_folders (fun c => length (c folders))).
      * rewrite append_to_same, length_app. simpl. lia.
      * apply Forall_forall. intros kv Hin k' c'.
        rewrite Forall_forall in IH. apply IH, Hin.
Qed.

(** X12.  Every file of the tree is listed once in [all_files] and every
    directory once in [folders]: the lengths of the two buckets are the
    numbers of files and of directories of the tree, at every depth. *)
Theorem components_count_tree (repo : repo_data) :
  length (extract_detailed_repo_components repo all_files)
  = list_sum (map (fun kv => tree_files (snd kv)) (file_structure repo))
  /\ length (extract_detailed_repo_components repo folders)
     = list_sum (map (fun kv => tree_folders (snd kv)) (file_structure repo)).
Proof.
  rewrite !extract_tree_bucket by discriminate. unfold traverse_structure.
  split.
  - rewrite (@fold_left_count tree_files (fun c => length (c all_files)));
      [reflexivity|].
    apply Forall_forall. intros kv _ k c. apply traverse_item_counts.
  - rewrite (@fold_left_count tree_folders (fun c => length (c folders)));
      [reflexivity|].
    apply Forall_forall. intros kv _ k c. apply traverse_item_counts.
Qed.

(** ** Categorized files *)

Lemma categorized_append_if (cond : bool) (k : bucket) (p : text)
    (c : components) :
  k <> all_files ->
  In p (c all_files) ->
  categorized c ->
  categorized (append_if cond k p c) /\ In p (append_if cond k p c all_files).
Proof.
  intros Hk Hp Hc. split; [|now rewrite append_if_other].
  intros b Hf Hd. rewrite (@append_if_other cond k all_files) by exact Hk.
  unfold append_if. destruct cond; [|now apply Hc].
  unfold append_to. destruct (bucket_beq k b); [|now apply Hc].
  apply incl_app; [now apply Hc|].
  intros x [<-|[]]. exact Hp.
Qed.

Lemma categorized_classify (p : text) (c : components) :
  categorized c -> categorized (classify p c).
Proof.
  intros Hc. unfold classify; cbv zeta.
  assert (categorized (append_to all_files p c)
          /\ In p (append_to all_files p c all_files)) as H.
  { split.
    - intros b Hf Hd. rewrite append_to_same. unfold append_to.
      destruct (bucket_beq all_files b) eqn:E;
        [|now apply incl_appl, Hc].
      apply internal_bucket_dec_bl in E. subst b. apply incl_refl.
    - rewrite append_to_same. apply in_or_app. right. now left. }
  repeat match goal with
         | |- categorized (append_if ?cond ?k p ?c') =>
             apply (@categorized_append_if cond k p c');
             [discriminate| |]
         | |- In p (append_if ?cond ?k p ?c' all_files) =>
             apply (@categorized_append_if cond k p c');
             [discriminate| |]
         end; apply H.
Qed.

(** X13.  Every path put in a category bucket is the path of a file of the tree:
    each bucket other than [folders] and [dependencies] is included in
    [all_files]. *)
Theorem categorized_files_are_files (repo : repo_data) (b : bucket) :
  b <> folders -> b <> dependencies ->
  incl (extract_detailed_repo_components repo b)
       (extract_detailed_repo_components repo all_files).
Proof.
  intros Hf Hd. rewrite !extract_tree_bucket by (assumption || discriminate).
  revert b Hf Hd. change (categorized
    (traverse_structure (file_structure repo) empty_components)).
  apply traverse_structure_preserves.
  - intros p c. apply categorized_classify.
  - intros p c Hc b Hf Hd. rewrite !append_to_other by congruence.
    now apply Hc.
  - intros b _ _ x [].
Qed.

(** ** Dependencies *)

Lemma startswith_app_r (p a w : text) :
  startswith p a = true -> startswith p (a ++ w) = true.
Proof.
  intros H. apply startswith_prefix in H as (rest & ->).
  rewrite <- app_assoc. apply startswith_app.
Qed.

(** The first piece of [s.split(sep)] is a prefix of [s] with no [sep]. *)
Lemma split_first_piece (sep s : text) :
  sep <> [] ->
  (exists w, s = hd [] (split sep s) ++ w)
  /\ contains sep (hd [] (split sep s)) = false.
Proof.
  intros Hne. unfold split.
  assert (contains sep [] = false) as Hnil
      by (destruct sep; [congruence|reflexivity]).
  induction s as [|x s IH]; [split; [now exists []|exact Hnil]|].
  simpl split_go. destruct (startswith sep (x :: s)) eqn:E.
  - split; [now exists (x :: s)|exact Hnil].
  - destruct IH as [(w & Hw) Hfree].
    destruct (split_go sep 0 s) as [|l ls]; cbn [hd] in *.
    + split; [exists s; reflexivity|].
      change (contains sep [x]) with (startswith sep [x] || contains sep []).
      rewrite Hnil, orb_false_r.
      destruct (startswith sep [x]) eqn:E'; [|reflexivity].
      apply (@startswith_app_r _ _ s) in E'. simpl app in E'. congruence.
    + split; [exists w; simpl; now rewrite <- Hw|].
      change (contains sep (x :: l))
        with (startswith sep (x :: l) || contains sep l).
      rewrite Hfree, orb_false_r.
      destruct (startswith sep (x :: l)) eqn:E'; [|reflexivity].
      apply (@startswith_app_r _ _ w) in E'. simpl app in E'.
      rewrite <- Hw in E'. congruence.
Qed.

Lemma contains_prefix_free (p a w : text) :
  contains p (a ++ w) = false -> contains p a = false.
Proof.
  intros H. destruct (contains p a) eqn:E; [|reflexivity].
  apply (@contains_factor p [] a w) in E. simpl in E. congruence.
Qed.

(** A dependency name carries no [==] and no [>=] and is trimmed. *)
Lemma dependency_of_clean (line : text) :
  contains (lit "==") (dependency_of line) = false
  /\ contains (lit ">=") (dependency_of line) = false
  /\ strip (dependency_of line) = dependency_of line.
Proof.
  unfold dependency_of.
  destruct (@split_first_piece (lit "==") line) as [_ Heq]; [discriminate|].
  set (name := hd [] (split (lit "==") line)) in *.
  destruct (@split_first_piece (lit ">=") name) as [(w & Hw) Hge];
    [discriminate|].
  set (bare := hd [] (split (lit ">=") name)) in *.
  rewrite Hw in Heq. apply contains_prefix_free in Heq.
  repeat split.
  - destruct (contains (lit "==") (strip bare)) eqn:E; [|reflexivity].
    apply contains_strip_factor in E. congruence.
  - destruct (contains (lit ">=") (strip bare)) eqn:E; [|reflexivity].
    apply contains_strip_factor in E. congruence.
  - apply strip_idempotent.
Qed.

(** X14.  The dependencies are read from the manifests given as plain text (a
    file whose value is a record is not scanned); every recorded name is
    trimmed and carries no [==] and no [>=]. *)
Theorem dependencies_without_specifiers (repo : repo_data) :
  Forall (fun d => contains (lit "==") d = false
                   /\ contains (lit ">=") d = false
                   /\ strip d = d)
         (extract_detailed_repo_components repo dependencies)
  /\ (Forall (fun fd => is_manifest (fst fd) = false
                        \/ exists content purpose, snd fd = Info content purpose)
             (file_contents repo) ->
      extract_detailed_repo_components repo dependencies = []).
Proof.
  unfold extract_detailed_repo_components; cbv zeta.
  pose proof (@traverse_structure_leaves (file_structure repo) dependencies
                (or_introl eq_refl)) as Htree.
  set (c0 := traverse_structure (file_structure repo) empty_components) in *.
  split.
  - apply (@fold_left_preserves _ _
             (fun c : components =>
                Forall (fun d => contains (lit "==") d = false
                                 /\ contains (lit ">=") d = false
                                 /\ strip d = d) (c dependencies))).
    + intros c fd _ Hc. destruct (snd fd); [|exact Hc].
      destruct (is_manifest _); [|exact Hc].
      unfold scan_manifest. apply fold_left_preserves; [|exact Hc].
      intros c' l _ Hc'. destruct (_ && _); [|exact Hc'].
      rewrite append_to_same. apply Forall_app. split; [exact Hc'|].
      constructor; [apply dependency_of_clean|constructor].
    + rewrite Htree. constructor.
  - intros Hfiles. rewrite <- Htree.
    apply (@fold_left_preserves _ _
             (fun c : components => c dependencies = c0 dependencies));
      [|reflexivity].
    intros c fd Hin Hc. rewrite Forall_forall in Hfiles.
    destruct (Hfiles fd Hin) as [Hm|(content & purpose & Hi)].
    + rewrite Hm. now destruct (snd fd).
    + now rewrite Hi.
Qed.

(* ================================================================== *)
(** * Further properties of the file selection                          *)
(* ================================================================== *)

Lemma firstn_incl (A : Type) (n : nat) (l : list A) : incl (firstn n l) l.
Proof.
  intros x Hin. rewrite <- (firstn_skipn n l). apply in_or_app. now left.
Qed.

(** X15.  The files handed to the formatter are [max_files] files of
    [file_contents], or all of them when there are fewer; a file with a
    priority purpose is left out only when the selection is made of
    priority files alone; and when nothing has to be left out the selection
    is the priority files followed by the others, each in their order. *)
Theorem trimmed_files_selection (files : list (text * file_data))
    (max_files : nat) :
  let selection := trimmed_files files max_files in
  length selection = Nat.min max_files (length files)
  /\ incl selection files
  /\ (forall pd, In pd files -> is_priority (snd pd) = true ->
        ~ In pd selection ->
        Forall (fun q => is_priority (snd q) = true) selection)
  /\ (length files <= max_files ->
      selection = filter (fun pd => is_priority (snd pd)) files
                  ++ filter (fun pd => negb (is_priority (snd pd))) files).
Proof.
  cbv zeta. split; [apply trimmed_files_length|].
  unfold trimmed_files; cbv zeta.
  pose proof (filter_length (fun pd => is_priority (snd pd)) files) as Hsplit.
  set (priority := filter (fun pd => is_priority (snd pd)) files) in *.
  set (others := filter (fun pd => negb (is_priority (snd pd))) files) in *.
  assert (incl priority files) as Hp by apply incl_filter.
  assert (incl others files) as Ho by apply incl_filter.
  split; [|split].
  - destruct (0 <? _).
    + apply incl_app; eapply incl_tran; try apply firstn_incl; assumption.
    + eapply incl_tran; [apply firstn_incl|assumption].
  - intros pd Hin Hprio Hout.
    assert (In pd priority) as Hpd by (apply filter_In; now split).
    destruct (Nat.le_gt_cases (length priority) max_files) as [Hle|Hgt].
    + exfalso. apply Hout. rewrite firstn_all2 by exact Hle.
      destruct (0 <? max_files - length priority);
        [apply in_or_app; now left|exact Hpd].
    + rewrite length_firstn, Nat.min_l, Nat.sub_diag by lia.
      change (0 <? 0) with false. cbv iota.
      apply Forall_forall. intros q Hq. apply firstn_incl in Hq.
      now apply filter_In in Hq.
  - intros Hall.
    rewrite firstn_all2 by lia.
    destruct (0 <? max_files - length priority) eqn:Slots.
    + now rewrite firstn_all2 by lia.
    + apply Nat.ltb_ge in Slots.
      assert (others = []) as -> by (apply length_zero_iff_nil; lia).
      now rewrite app_nil_r.
Qed.

(* ================================================================== *)
(** * Further properties of the prompt                                  *)
(* ================================================================== *)

Lemma len_app (a b : text) : len (a ++ b) = (len a + len b)%N.
Proof. unfold len. rewrite length_app. lia. Qed.

Lemma len_firstn (n : N) (s : text) : (len (firstn (N.to_nat n) s) <= n)%N.
Proof. unfold len. rewrite length_firstn. lia. Qed.

(** X16.  The system prompt is never longer than the context cap plus the 40
    characters of the truncation note, whatever the repository and the
    renderers. *)
Theorem build_context_bounded (repo : repo_data) :
  (len (build_context repo) <= MAX_CONTEXT_CHARS + 40)%N.
Proof.
  unfold build_context; cbv zeta.
  destruct (MAX_CONTEXT_CHARS <? len (full_context repo))%N eqn:E.
  - rewrite len_app.
    pose proof (len_firstn MAX_CONTEXT_CHARS (full_context repo)) as Hcut.
    change (len ([NL; NL] ++ lit "[CONTEXT TRUNCATED TO FIT TOKEN LIMIT]"))
      with 40%N.
    lia.
  - apply N.ltb_ge in E. lia.
Qed.

Lemma history_message_short (t : turn) : length (history_message t) <= 1.
Proof.
  unfold history_message.
  destruct (text_eqb _ _); [simpl; lia|].
  destruct (text_eqb _ _); simpl; lia.
Qed.

Lemma flat_map_short (A B : Type) (f : A -> list B) (l : list A) :
  (forall a, length (f a) <= 1) -> length (flat_map f l) <= length l.
Proof.
  intros Hf. induction l as [|a l IH]; simpl; [lia|].
  rewrite length_app. specialize (Hf a). lia.
Qed.

Lemma last_n_length (A : Type) (n : nat) (l : list A) :
  length (last_n n l) <= n.
Proof. unfold last_n. rewrite length_skipn. lia. Qed.

Lemma last_n_app (A : Type) (old recent : list A) :
  last_n (length recent) (old ++ recent) = recent.
Proof.
  unfold last_n. rewrite length_app.
  replace (length old + length recent - length recent) with (length old) by lia.
  rewrite skipn_app, skipn_all, Nat.sub_diag. reflexivity.
Qed.

(** X17.  The first invocation receives the system prompt, then what the last
    six turns of the history give, then the question: at most 8 messages,
    the assistant turns cut to 2000 characters; turns before the last six
    have no effect. *)
Theorem initial_messages_window (repo : repo_data) (question : text)
    (chat_history : list turn) :
  let msgs := initial_messages repo question chat_history in
  hd_error msgs = Some (SystemMessage (build_context repo))
  /\ last msgs (SystemMessage []) = HumanMessage question
  /\ length msgs <= 8
  /\ Forall (fun m => match m with
                      | AIMessage content => length content <= 2000
                      | SystemMessage _ | HumanMessage _ => True
                      end) (removelast (tl msgs))
  /\ (forall old recent,
        chat_history = old ++ recent -> length recent = 6 ->
        msgs = initial_messages repo question recent).
Proof.
  cbv zeta. unfold initial_messages. split; [reflexivity|].
  split; [|split; [|split]].
  - change ([SystemMessage (build_context repo)]
            ++ flat_map history_message (last_n 6 chat_history)
            ++ [HumanMessage question])
      with (SystemMessage (build_context repo)
            :: flat_map history_message (last_n 6 chat_history)
            ++ [HumanMessage question]).
    rewrite app_comm_cons. apply last_last.
  - rewrite !length_app. simpl.
    pose proof (@flat_map_short _ _ history_message (last_n 6 chat_history)
                  history_message_short).
    pose proof (@last_n_length _ 6 chat_history). lia.
  - cbn [app tl]. rewrite removelast_last.
    apply Forall_forall. intros m Hin.
    apply in_flat_map in Hin as (t & _ & Hm). unfold history_message in Hm.
    destruct (text_eqb _ _); [destruct Hm as [<-|[]]; exact I|].
    destruct (text_eqb _ _); [|contradiction].
    destruct Hm as [<-|[]]. rewrite length_firstn. lia.
  - intros old recent -> Hlen.
    rewrite <- Hlen at 1. rewrite last_n_app.
    assert (last_n 6 recent = recent) as ->; [|reflexivity].
    unfold last_n. now rewrite Hlen.
Qed.

(* ================================================================== *)
(** * Further properties of the retry loop                              *)
(* ================================================================== *)

(** The parser returns a diagram together with its type, or neither. *)
Lemma extract_pairs (reply : text) :
  (exists a, extract_diagram_from_response reply = (a, None, None))
  \/ (exists a code,
        extract_diagram_from_response reply
        = (a, Some code, Some (detect_diagram_type code))).
Proof.
  unfold extract_diagram_from_response; cbv zeta.
  destruct (_ && _); [|eauto].
  destruct (index DIAGRAM_START _); [|eauto].
  destruct (index DIAGRAM_END _); eauto.
Qed.

Lemma extract_unmarked (reply : text) :
  contains DIAGRAM_START reply && contains DIAGRAM_END reply = false ->
  extract_diagram_from_response reply = (strip reply, None, None).
Proof.
  intros H. destruct marker_shapes as (_ & _ & _ & _ & Hts & Hte).
  unfold extract_diagram_from_response; cbv zeta.
  rewrite !contains_strip by (assumption || discriminate).
  now rewrite H.
Qed.

Lemma accepted_coherent repo a code :
  coherent (accepted repo a None None)
  /\ coherent (accepted repo a (Some code) (Some (detect_diagram_type code))).
Proof.
  split; (split; [|split]); cbn; try (now left); split; congruence.
Qed.

(** Every result returned from the body of the loop is coherent. *)
Lemma loop_body_coherent llm repo context st r st' :
  loop_body llm repo context st = Return r st' -> coherent r.
Proof.
  unfold loop_body, retry; cbv zeta.
  destruct (llm _ _) as [reply|err].
  - destruct (extract_pairs reply) as [(a & ->)|(a & code & ->)].
    + intros H. inversion H; subst. apply (accepted_coherent repo a []).
    + destruct code as [|x code].
      * intros H. inversion H; subst. apply (accepted_coherent repo a []).
      * destruct (validate_mermaid_syntax _) as [v errors].
        destruct (validate_diagram_completeness _ _) as [v' issues].
        destruct (negb v && _); [discriminate|].
        destruct (negb v' && _); [discriminate|].
        intros H. inversion H; subst.
        split; [|split]; cbn; try (now left); split; congruence.
  - destruct (_ && _); [discriminate|].
    destruct (_ <? _); [discriminate|].
    intros H. inversion H; subst.
    split; [|split];
      cbn [failed has_diagram mermaid_code diagram_type follow_up_questions
           answer]; try (split; congruence).
    right. split; [reflexivity|]. split; [reflexivity|]. apply startswith_app.
Qed.

Lemma while_loop_from_body llm repo context fuel :
  forall st r st',
    while_loop fuel llm repo context st = Some (FromLoop, r, st') ->
    exists st0, loop_body llm repo context st0 = Return r st'.
Proof.
  induction fuel as [|fuel IH]; intros st r st' H; simpl in H; [discriminate|].
  destruct (attempt st <? max_retries); [|discriminate].
  destruct (loop_body llm repo context st) as [st1|r1 st1] eqn:Body.
  - now apply IH in H.
  - inversion H; subst. now exists st.
Qed.

(** X18.  Whatever the model does, the call returns a coherent result:
    [has_diagram] is true exactly when [mermaid_code] is set, [diagram_type]
    is set exactly when [mermaid_code] is, the repository name is the given
    one or "Unknown", and the follow-up questions are three, or none for a
    failure, whose answer begins with "Error generating response: ". *)
Theorem analyze_result_coherent llm repo question chat_history :
  exists r st,
    analyze_repo_with_chat llm repo question chat_history = Some (FromLoop, r, st)
    /\ coherent r
    /\ repo_name r = or_default "Unknown" (name repo).
Proof.
  destruct (initial_state_ready repo question chat_history) as [Hlt Hlog].
  destruct (while_loop_returns llm repo (build_context repo) (fuel := S max_retries)
              (initial_state repo question chat_history) Hlt)
    as (r & st & Hrun & _); [lia|exact Hlog|].
  exists r, st. split; [exact Hrun|].
  apply while_loop_from_body in Hrun as (st0 & Hbody).
  split; [now apply loop_body_coherent in Hbody|].
  revert Hbody. unfold loop_body, retry; cbv zeta.
  split_cases; intros H; inversion H; reflexivity.
Qed.

(** ** Scenarios of the loop *)

(** X19.  A reply without both markers is returned at once: the answer is the
    trimmed reply, there is no diagram, and the model is invoked once (the
    service does not retry to obtain a diagram). *)
Theorem plain_reply_returned llm repo question chat_history reply :
  llm 0 (initial_messages repo question chat_history) = Reply reply ->
  contains DIAGRAM_START reply && contains DIAGRAM_END reply = false ->
  exists r st,
    analyze_repo_with_chat llm repo question chat_history = Some (FromLoop, r, st)
    /\ answer r = strip reply
    /\ mermaid_code r = None
    /\ has_diagram r = false
    /\ follow_up_questions r
       = [lit "Create a comprehensive architecture diagram";
          lit "Show complete data flow with all components";
          lit "Generate detailed sequence diagram"]
    /\ calls st = [initial_messages repo question chat_history]
    /\ attempt st = 0.
Proof.
  intros Hllm Hplain. apply extract_unmarked in Hplain.
  eexists. eexists. split.
  - unfold analyze_repo_with_chat, initial_state.
    cbn [while_loop attempt Nat.ltb Nat.leb max_retries].
    unfold loop_body; cbv zeta. cbn [calls length messages].
    rewrite Hllm, Hplain. reflexivity.
  - repeat split.
Qed.

(** A reply with a non-empty diagram that a validator rejects, while
    attempts remain: the attempt is counted and two messages are added, the
    first 1000 characters of the reply and a corrective request. *)
Lemma loop_body_rejected llm repo context st reply a code ty :
  llm (length (calls st)) (messages st) = Reply reply ->
  extract_diagram_from_response reply = (a, Some code, ty) ->
  code <> [] ->
  fst (validate_mermaid_syntax (fix_mermaid_syntax code)) = false
  \/ fst (validate_diagram_completeness (fix_mermaid_syntax code) repo) = false ->
  attempt st < max_retries - 1 ->
  exists feedback,
    loop_body llm repo context st
    = Continue {| messages := messages st
                              ++ [AIMessage (firstn 1000 reply);
                                  HumanMessage feedback];
                  attempt := S (attempt st);
                  last_answer := a;
                  calls := calls st ++ [messages st] |}.
Proof.
  intros Hllm Hext Hne Hbad Hmore. apply Nat.ltb_lt in Hmore.
  unfold loop_body, retry; cbv zeta. cbn [attempt messages calls last_answer].
  rewrite Hllm, Hext, Hmore.
  destruct code as [|x code]; [congruence|].
  destruct (validate_mermaid_syntax _) as [v errors].
  destruct (validate_diagram_completeness _ _) as [v' issues].
  cbn [fst] in Hbad. rewrite !andb_true_r.
  destruct v; cbn [negb].
  - destruct Hbad as [Hbad|Hbad]; [discriminate|]. subst v'. cbn [negb].
    eexists. reflexivity.
  - eexists. reflexivity.
Qed.

(** On the last attempt a reply with a non-empty diagram is returned
    whatever the validators say. *)
Lemma loop_body_last_reply llm repo context st reply a code ty :
  llm (length (calls st)) (messages st) = Reply reply ->
  extract_diagram_from_response reply = (a, Some code, ty) ->
  code <> [] ->
  attempt st = max_retries - 1 ->
  loop_body llm repo context st
  = Return (accepted repo a (Some (fix_mermaid_syntax code)) ty)
           {| messages := messages st;
              attempt := attempt st;
              last_answer := a;
              calls := calls st ++ [messages st] |}.
Proof.
  intros Hllm Hext Hne Hlast.
  unfold loop_body, retry; cbv zeta. cbn [attempt messages calls last_answer].
  rewrite Hllm, Hext, Hlast.
  destruct code as [|x code]; [congruence|].
  destruct (validate_mermaid_syntax _) as [v errors].
  destruct (validate_diagram_completeness _ _) as [v' issues].
  change (max_retries - 1 <? max_retries - 1) with false.
  now rewrite !andb_false_r.
Qed.

(** X20.  Validation is advisory on the last attempt.  If every reply of the
    model carries a non-empty diagram that the syntax validator or the
    completeness validator rejects, the model is invoked three times, each
    retry adding two messages, and the third diagram is returned with
    [has_diagram = true] although it is still rejected. *)
Theorem rejected_diagram_returned llm repo question chat_history :
  (forall n msgs, exists reply a code ty,
      llm n msgs = Reply reply
      /\ extract_diagram_from_response reply = (a, Some code, ty)
      /\ code <> []
      /\ (fst (validate_mermaid_syntax (fix_mermaid_syntax code)) = false
          \/ fst (validate_diagram_completeness (fix_mermaid_syntax code) repo)
             = false)) ->
  exists r st first second third code,
    analyze_repo_with_chat llm repo question chat_history = Some (FromLoop, r, st)
    /\ calls st = [first; second; third]
    /\ length second = length first + 2
    /\ length third = length first + 4
    /\ has_diagram r = true
    /\ mermaid_code r = Some code
    /\ (fst (validate_mermaid_syntax code) = false
        \/ fst (validate_diagram_completeness code repo) = false).
Proof.
  intros Hbad.
  set (m1 := initial_messages repo question chat_history).
  destruct (Hbad 0 m1) as (r1 & a1 & c1 & t1 & Hl1 & He1 & Hn1 & Hb1).
  destruct (@loop_body_rejected llm repo (build_context repo)
              {| messages := m1; attempt := 0; last_answer := [];
                 calls := [] |} r1 a1 c1 t1)
    as (f1 & Hstep1); try assumption; [unfold max_retries; simpl; lia|].
  cbn [messages calls attempt app] in Hstep1.
  set (m2 := m1 ++ [AIMessage (firstn 1000 r1); HumanMessage f1]) in *.
  destruct (Hbad 1 m2) as (r2 & a2 & c2 & t2 & Hl2 & He2 & Hn2 & Hb2).
  destruct (@loop_body_rejected llm repo (build_context repo)
              {| messages := m2; attempt := 1; last_answer := a1;
                 calls := [m1] |} r2 a2 c2 t2)
    as (f2 & Hstep2); try assumption; [unfold max_retries; simpl; lia|].
  cbn [messages calls attempt app] in Hstep2.
  set (m3 := m2 ++ [AIMessage (firstn 1000 r2); HumanMessage f2]) in *.
  destruct (Hbad 2 m3) as (r3 & a3 & c3 & t3 & Hl3 & He3 & Hn3 & Hb3).
  pose proof (@loop_body_last_reply llm repo (build_context repo)
                {| messages := m3; attempt := 2; last_answer := a2;
                   calls := [m1; m2] |} r3 a3 c3 t3 Hl3 He3 Hn3 eq_refl)
    as Hstep3.
  cbn [messages calls attempt app] in Hstep3.
  eexists. eexists. exists m1, m2, m3, (fix_mermaid_syntax c3).
  split.
  - unfold analyze_repo_with_chat, initial_state. fold m1.
    cbn [while_loop attempt Nat.ltb Nat.leb max_retries].
    rewrite Hstep1.
    cbn [while_loop attempt Nat.ltb Nat.leb max_retries]. rewrite Hstep2.
    cbn [while_loop attempt Nat.ltb Nat.leb max_retries]. rewrite Hstep3.
    reflexivity.
  - cbn [calls]. split; [reflexivity|].
    unfold m3, m2. rewrite !length_app. cbn [length].
    repeat split; try lia. exact Hb3.
Qed.

(** An exception that is not a context-length error is retried with the
    same messages. *)
Lemma loop_body_retry_failure llm repo context st err :
  llm (length (calls st)) (messages st) = Raise err ->
  is_context_error err = false ->
  attempt st < max_retries - 1 ->
  loop_body llm repo context st
  = Continue {| messages := messages st;
                attempt := S (attempt st);
                last_answer := last_answer st;
                calls := calls st ++ [messages st] |}.
Proof.
  intros Hllm Herr Hmore. unfold loop_body, retry; cbv zeta.
  cbn [attempt messages calls last_answer].
  apply Nat.ltb_lt in Hmore. now rewrite Hllm, Herr, Hmore.
Qed.

(** X21.  When every invocation raises an exception that is not a context-length
    error, the model is invoked three times with the same messages, and the
    result is the failure that carries the text of the third exception. *)
Theorem failure_retried_unchanged llm repo question chat_history :
  (forall n msgs, exists err,
      llm n msgs = Raise err /\ is_context_error err = false) ->
  exists st err,
    analyze_repo_with_chat llm repo question chat_history
    = Some (FromLoop, failed repo err, st)
    /\ calls st = [initial_messages repo question chat_history;
                   initial_messages repo question chat_history;
                   initial_messages repo question chat_history]
    /\ llm 2 (initial_messages repo question chat_history) = Raise err
    /\ answer (failed repo err) = lit "Error generating response: " ++ err.
Proof.
  intros Hfail.
  set (m := initial_messages repo question chat_history).
  destruct (Hfail 0 m) as (e1 & He1 & Hc1).
  destruct (Hfail 1 m) as (e2 & He2 & Hc2).
  destruct (Hfail 2 m) as (e3 & He3 & _).
  eexists. exists e3. split; [|split; [|split]]; [| |exact He3|reflexivity].
  - unfold analyze_repo_with_chat, initial_state. fold m.
    cbn [while_loop attempt Nat.ltb Nat.leb max_retries].
    rewrite (@loop_body_retry_failure llm repo _ _ e1);
      [|exact He1|exact Hc1|unfold max_retries; simpl; lia].
    cbn [while_loop attempt messages calls last_answer app Nat.ltb Nat.leb
         max_retries].
    rewrite (@loop_body_retry_failure llm repo _ _ e2);
      [|exact He2|exact Hc2|unfold max_retries; simpl; lia].
    cbn [while_loop attempt messages calls last_answer app Nat.ltb Nat.leb
         max_retries].
    rewrite (@loop_body_last_failure llm repo _ _ e3);
      [|exact He3|reflexivity].
    cbn [attempt messages calls last_answer app]. reflexivity.
  - reflexivity.
Qed.

(** ** The messages given to the model *)

Lemma prompt_shaped_extend (msgs : list message) (m : message) (request : text) :
  prompt_shaped msgs -> prompt_shaped (msgs ++ [m; HumanMessage request]).
Proof.
  intros (c & middle & q & ->).
  exists c, (middle ++ [HumanMessage q; m]), request.
  simpl. now rewrite <- !app_assoc.
Qed.

Lemma prompt_shaped_set_first (msgs : list message) (context : text) :
  prompt_shaped msgs ->
  prompt_shaped (set_first (SystemMessage context) msgs)
  /\ length (set_first (SystemMessage context) msgs) = length msgs.
Proof.
  intros (c & middle & q & ->). split; [|reflexivity].
  now exists context, middle, q.
Qed.

(** A pass that continues leaves a well-formed message list, at most two
    messages longer. *)
Lemma loop_body_shape llm repo context st st' :
  prompt_shaped (messages st) ->
  loop_body llm repo context st = Continue st' ->
  prompt_shaped (messages st')
  /\ length (messages st') <= length (messages st) + 2.
Proof.
  intros Hshape. unfold loop_body, retry; cbv zeta.
  cbn [attempt messages calls last_answer].
  split_cases; intros H; inversion H; subst; cbn [messages];
    try (split; [now apply prompt_shaped_extend|rewrite length_app; simpl; lia]);
    try (split; [exact Hshape|lia]).
  destruct (@prompt_shaped_set_first (messages st)
              (degraded_context repo context) Hshape) as [Hs Hl].
  split; [exact Hs|lia].
Qed.

Lemma while_loop_shapes llm repo context (n0 : nat) fuel :
  forall st e r st',
    prompt_shaped (messages st) ->
    length (messages st) <= n0 + 2 * attempt st ->
    length (calls st) = attempt st ->
    Forall prompt_shaped (calls st) ->
    (forall k msgs, nth_error (calls st) k = Some msgs ->
                    length msgs <= n0 + 2 * k) ->
    while_loop fuel llm repo context st = Some (e, r, st') ->
    Forall prompt_shaped (calls st')
    /\ (forall k msgs, nth_error (calls st') k = Some msgs ->
                       length msgs <= n0 + 2 * k).
Proof.
  induction fuel as [|fuel IH]; intros st e r st' Hshape Hlen Hlog Hall Hbound H;
    simpl in H; [discriminate|].
  assert (Forall prompt_shaped (calls st ++ [messages st])
          /\ (forall k msgs, nth_error (calls st ++ [messages st]) k = Some msgs ->
                             length msgs <= n0 + 2 * k)) as [Hall' Hbound'].
  { split.
    - apply Forall_app. split; [exact Hall|]. now constructor.
    - intros k msgs Hk.
      destruct (Nat.lt_ge_cases k (length (calls st))) as [Hlt|Hge].
      + rewrite nth_error_app1 in Hk by exact Hlt. now apply Hbound.
      + rewrite nth_error_app2 in Hk by exact Hge.
        destruct (k - length (calls st)) as [|d] eqn:Ed; simpl in Hk.
        * inversion Hk; subst. lia.
        * destruct d; discriminate. }
  destruct (attempt st <? max_retries).
  - destruct (loop_body llm repo context st) as [st1|r1 st1] eqn:Body.
    + destruct (loop_body_shape llm repo context st Hshape Body) as [Hs1 Hl1].
      apply loop_body_continue in Body as (_ & Hatt & Hcalls).
      apply (IH st1 e r st'); try assumption.
      * rewrite Hatt. lia.
      * rewrite Hcalls, length_app, Hlog, Hatt. simpl. lia.
      * now rewrite Hcalls.
      * now rewrite Hcalls.
    + apply loop_body_return in Body as (_ & Hcalls).
      inversion H; subst. now rewrite Hcalls.
  - inversion H; subst. now split.
Qed.

(** X22.  Every invocation of the model receives a system message first and a
    human message last, and the [k]-th retry receives at most [2 k]
    messages more than the first invocation: never more than 12. *)
Theorem invocations_are_prompts llm repo question chat_history :
  exists e r st,
    analyze_repo_with_chat llm repo question chat_history = Some (e, r, st)
    /\ Forall prompt_shaped (calls st)
    /\ (forall k msgs,
          nth_error (calls st) k = Some msgs ->
          length msgs
          <= length (initial_messages repo question chat_history) + 2 * k)
    /\ Forall (fun msgs => length msgs <= 12) (calls st).
Proof.
  destruct (initial_state_ready repo question chat_history) as [Hlt Hlog].
  destruct (while_loop_returns llm repo (build_context repo) (fuel := S max_retries)
              (initial_state repo question chat_history) Hlt)
    as (r & st & Hrun & Hatt & Hcalls); [lia|exact Hlog|].
  exists FromLoop, r, st. split; [exact Hrun|].
  assert (length (initial_messages repo question chat_history) <= 8) as Hfirst.
  { unfold initial_messages. rewrite !length_app. simpl.
    pose proof (@flat_map_short _ _ history_message (last_n 6 chat_history)
                  history_message_short).
    pose proof (@last_n_length _ 6 chat_history). lia. }
  destruct (@while_loop_shapes llm repo (build_context repo)
              (length (initial_messages repo question chat_history))
              (S max_retries) (initial_state repo question chat_history)
              FromLoop r st) as [Hall Hbound]; try exact Hrun.
  - unfold initial_state, initial_messages; cbn [messages].
    now exists (build_context repo),
               (flat_map history_message (last_n 6 chat_history)), question.
  - cbn [initial_state messages attempt]. lia.
  - reflexivity.
  - constructor.
  - intros k msgs Hk. destruct k; discriminate.
  - split; [exact Hall|]. split; [exact Hbound|].
    apply Forall_forall. intros msgs Hin.
    apply In_nth_error in Hin as (k & Hk).
    assert (k < length (calls st)) as Hlt'
        by (apply nth_error_Some; congruence).
    specialize (Hbound k msgs Hk). unfold max_retries in *. lia.
Qed.

(* ================================================================== *)
(** * Code fences                                                       *)
(* ================================================================== *)

Local Abbreviation tick := (char_eqb BACKTICK).

Lemma calm_tail (x : char) (t : text) : calm (x :: t) -> calm t.
Proof. intros H i. exact (H (S i)). Qed.

Lemma calm_nil : calm [].
Proof. intros i. rewrite skipn_nil. simpl. lia. Qed.

Lemma run_app_stop (p : char -> bool) (u : text) (c : char) (v : text) :
  p c = false -> run p (u ++ c :: v) = run p u.
Proof.
  intros Hc. induction u as [|x u IH]; simpl; [now rewrite Hc|].
  destruct (p x); [now rewrite IH|reflexivity].
Qed.

Lemma run_app_le (p : char -> bool) (u v : text) : run p u <= run p (u ++ v).
Proof.
  induction u as [|x u IH]; simpl; [lia|]. destruct (p x); lia.
Qed.

(** Two calm texts with a character other than a backtick between them. *)
Lemma calm_app_sep (a b : text) (c : char) :
  c <> BACKTICK -> calm a -> calm b -> calm (a ++ c :: b).
Proof.
  intros Hc Ha Hb.
  assert (tick c = false) as Hstop
      by (apply char_eqb_neq; congruence).
  induction a as [|x a IH]; intros [|i].
  - simpl. rewrite Hstop. lia.
  - apply Hb.
  - change (skipn 0 ((x :: a) ++ c :: b)) with ((x :: a) ++ c :: b).
    rewrite run_app_stop by exact Hstop. exact (Ha 0).
  - apply IH. now apply calm_tail in Ha.
Qed.

Lemma calm_prepend (r y : text) : ~ In BACKTICK r -> calm y -> calm (r ++ y).
Proof.
  intros Hr Hy. induction r as [|x r IH]; [exact Hy|].
  change ((x :: r) ++ y) with ([] ++ x :: r ++ y).
  apply calm_app_sep; [|apply calm_nil|].
  - intros ->. apply Hr. now left.
  - apply IH. intros Hin. apply Hr. now right.
Qed.

(** A part of a calm text is calm. *)
Lemma calm_factor (a b w : text) : calm (a ++ b ++ w) -> calm b.
Proof.
  intros H i. specialize (H (length a + i)).
  rewrite skipn_app, (skipn_all2 a) in H by lia.
  replace (length a + i - length a) with i in H by lia. simpl in H.
  rewrite skipn_app in H.
  pose proof (run_app_le tick (skipn i b) (skipn (i - length b) w)). lia.
Qed.

Lemma calm_prefix (a b : text) : calm (a ++ b) -> calm a.
Proof. intros H. now apply (@calm_factor [] a b). Qed.

Lemma calm_suffix (a b : text) : calm (a ++ b) -> calm b.
Proof.
  intros H. rewrite <- (app_nil_r b) in H. now apply calm_factor in H.
Qed.

Lemma calm_strip (t : text) : calm t -> calm (strip t).
Proof.
  intros H. destruct (strip_factor t) as (a & w & E).
  rewrite E in H. now apply calm_factor in H.
Qed.

(** A calm text is a text without a code fence. *)
Lemma calm_no_fence (t : text) : calm t -> contains FENCE t = false.
Proof.
  induction t as [|x t IH]; intros H; [reflexivity|].
  change (contains FENCE (x :: t))
    with (startswith FENCE (x :: t) || contains FENCE t).
  rewrite IH by (now apply calm_tail in H). rewrite orb_false_r.
  destruct (startswith FENCE (x :: t)) eqn:E; [|reflexivity].
  apply startswith_prefix in E as (rest & E).
  specialize (H 0). rewrite E in H. simpl in H. lia.
Qed.

Lemma no_fence_calm (t : text) : contains FENCE t = false -> calm t.
Proof.
  induction t as [|x t IH]; intros H; [apply calm_nil|].
  change (contains FENCE (x :: t))
    with (startswith FENCE (x :: t) || contains FENCE t) in H.
  apply orb_false_iff in H as [Hstart Hrest].
  intros [|i]; [|now apply IH].
  simpl skipn.
  destruct (Nat.le_gt_cases (run tick (x :: t)) 2) as [Hle|Hgt]; [exact Hle|].
  exfalso.
  pose proof (firstn_run BACKTICK (x :: t)) as Hrun.
  rewrite <- (firstn_skipn (run tick (x :: t)) (x :: t)), Hrun in Hstart.
  destruct (run tick (x :: t)) as [|[|[|n]]]; try lia.
  simpl in Hstart. discriminate.
Qed.

(** The output of a substitution starts with no more backticks than its
    input, when no replacement is empty or has a backtick. *)
Lemma sub_go_run_ticks (m : text -> option (nat * text)) (s : text) :
  (forall t k r, m t = Some (S k, r) -> r <> [] /\ ~ In BACKTICK r) ->
  run tick (sub_go m 0 s) <= run tick s.
Proof.
  intros Hm. induction s as [|x s IH]; simpl; [lia|].
  destruct (m (x :: s)) as [[[|n] r]|] eqn:E;
    try (simpl; destruct (tick x); lia).
  destruct (Hm _ _ _ E) as [Hne Hr].
  destruct r as [|y r]; [congruence|]. simpl.
  assert (tick y = false) as ->; [|lia].
  apply char_eqb_neq. intros <-. apply Hr. now left.
Qed.

(** Such a substitution keeps a calm text calm. *)
Lemma calm_sub_go (m : text -> option (nat * text)) :
  (forall t k r, m t = Some (S k, r) -> r <> [] /\ ~ In BACKTICK r) ->
  forall s k, calm s -> calm (sub_go m k s).
Proof.
  intros Hm. induction s as [|x s IH]; intros k Hs; [apply calm_nil|].
  pose proof (calm_tail Hs) as Hs'.
  simpl. destruct k as [|k]; [|now apply IH].
  assert (calm (x :: sub_go m 0 s)) as Hkept.
  { intros [|i]; [|now apply IH].
    simpl skipn. pose proof (Hs 0) as H0. simpl in H0. simpl.
    pose proof (@sub_go_run_ticks m s Hm). destruct (tick x); lia. }
  destruct (m (x :: s)) as [[[|n] r]|] eqn:E; try exact Hkept.
  destruct (Hm _ _ _ E) as [_ Hr].
  apply calm_prepend; [exact Hr|now apply IH].
Qed.

Lemma calm_replace (old new s : text) :
  new <> [] -> ~ In BACKTICK new -> calm s -> calm (replace old new s).
Proof.
  intros Hne Hnew Hs. unfold replace, re_sub. apply calm_sub_go; [|exact Hs].
  intros t k r E. destruct (startswith old t); [|discriminate].
  inversion E; subst. now split.
Qed.

Lemma calm_repeat (n : nat) : n <= 2 -> calm (repeat BACKTICK n).
Proof.
  intros Hn i.
  destruct n as [|[|[|n]]]; try lia;
    destruct i as [|[|[|i]]]; simpl; lia.
Qed.

Lemma sub_go_cons (m : text -> option (nat * text)) (k : nat) (x : char)
    (s : text) :
  sub_go m k (x :: s)
  = match k with
    | S k' => sub_go m k' s
    | O => match m (x :: s) with
           | Some (S n, r) => r ++ sub_go m n s
           | _ => x :: sub_go m 0 s
           end
    end.
Proof. reflexivity. Qed.

(** Removing the code fences of a text, as [str.replace] scans it, leaves
    no code fence: [n] counts the backticks kept just before the scan. *)
Lemma calm_without_fences (s : text) :
  forall k n,
    (0 < k -> n = 0) ->
    n = 0 \/ n + run tick s <= 2 ->
    calm (repeat BACKTICK n
          ++ sub_go (fun t => if startswith FENCE t
                              then Some (length FENCE, []) else None) k s).
Proof.
  induction s as [|x s IH]; intros k n Hk Hn.
  - simpl. rewrite app_nil_r. apply calm_repeat. simpl in Hn. lia.
  - rewrite sub_go_cons. destruct k as [|k].
    + cbv beta. destruct (startswith FENCE (x :: s)) eqn:E.
      * change (length FENCE) with 3. cbv iota beta.
        assert (n = 0) as ->.
        { destruct Hn as [Hn|Hn]; [exact Hn|].
          apply startswith_prefix in E as (rest & E). rewrite E in Hn.
          simpl in Hn. lia. }
        apply (IH 2 0); [reflexivity|now left].
      * destruct (tick x) eqn:Ex.
        -- apply char_eqb_eq in Ex. subst x. rewrite repeat_shift.
           apply (IH 0 (S n)); [lia|]. right.
           destruct Hn as [->|Hn].
           ++ destruct (Nat.le_gt_cases (run tick s) 1) as [Hle|Hgt]; [lia|].
              exfalso.
              pose proof (firstn_run BACKTICK s) as Hrun.
              rewrite <- (firstn_skipn (run tick s) s), Hrun in E.
              destruct (run tick s) as [|[|r]]; try lia.
              simpl in E. discriminate.
           ++ simpl in Hn. rewrite ?char_eqb_refl in Hn. lia.
        -- apply calm_app_sep.
           ++ apply char_eqb_neq in Ex. congruence.
           ++ apply calm_repeat. lia.
           ++ apply (IH 0 0); [reflexivity|now left].
    + assert (n = 0) as -> by (apply Hk; lia).
      apply (IH k 0); [reflexivity|now left].
Qed.

Lemma calm_replace_fence (s : text) : calm (replace FENCE [] s).
Proof.
  unfold replace, re_sub.
  apply (@calm_without_fences s 0 0); [lia|now left].
Qed.

Lemma calm_strip_fences (code : text) :
  startswith FENCE code = true \/ calm code -> calm (strip_fences code).
Proof.
  intros H. unfold strip_fences.
  destruct (startswith FENCE_MERMAID code);
    [apply calm_strip, calm_replace_fence|].
  destruct (startswith FENCE code);
    [apply calm_strip, calm_replace_fence|].
  destruct H as [H|H]; [discriminate|exact H].
Qed.

Lemma calm_join_lines (lines : list text) :
  Forall calm lines -> calm (join [NL] lines).
Proof.
  induction lines as [|l ls IH]; intros H; [apply calm_nil|].
  inversion H as [|? ? Hl Hls]; subst.
  destruct ls as [|l' ls]; [exact Hl|].
  change (join [NL] (l :: l' :: ls)) with (l ++ NL :: join [NL] (l' :: ls)).
  apply calm_app_sep; [discriminate|exact Hl|now apply IH].
Qed.

Section WordCharacters.

(** The backtick is not alphanumeric. *)
Hypothesis backtick_not_alnum : isalnum BACKTICK = false.

Lemma ident_gap_no_backtick (t : text) (k : nat) (r : text) :
  match_ident_gap isword t = Some (k, r) -> r <> [] /\ ~ In BACKTICK r.
Proof.
  unfold match_ident_gap; cbv zeta.
  destruct (_ && _); [|discriminate]. intros E. inversion E; subst.
  split; [destruct (firstn _ t); discriminate|].
  assert (forall u, ~ In BACKTICK (firstn (run isword u) u)) as Hword.
  { induction u as [|x u IH]; simpl; [now intros []|].
    destruct (isword x) eqn:Ex; simpl; [|now intros []].
    intros [->|Hin]; [|now apply IH].
    unfold isword in Ex. rewrite backtick_not_alnum in Ex.
    discriminate. }
  intros Hin. apply in_app_or in Hin as [Hin|Hin]; [now apply Hword in Hin|].
  destruct Hin as [Hin|Hin]; [discriminate|].
  now apply Hword in Hin.
Qed.

Lemma calm_fix_node_id (line : text) : calm line -> calm (fix_node_id line).
Proof.
  intros H. unfold fix_node_id.
  destruct (_ || _); [|exact H].
  pose proof (split1_parts LBRACKET line) as Hp.
  destruct (split1 LBRACKET line) as [|before [|rest more]]; try exact H.
  destruct more; [|contradiction]. destruct Hp as [E _].
  rewrite E in H.
  apply calm_app_sep; [discriminate| |].
  - unfold re_sub. apply calm_sub_go.
    + intros t k r Hm. now apply ident_gap_no_backtick in Hm.
    + now apply calm_prefix in H.
  - apply calm_suffix in H. now apply calm_tail in H.
Qed.

Lemma calm_fix_line (l : text) : calm l -> calm (fix_line l).
Proof.
  intros H. apply calm_strip in H. unfold fix_line; cbv zeta.
  destruct (is_blank_or_comment _); [exact H|].
  destruct (is_subgraph_or_end _); [exact H|].
  unfold re_sub. apply calm_sub_go.
  { intros u k r E. apply semis_replacement in E as (-> & _).
    split; [discriminate|]. intros [Hin|[]]. discriminate. }
  apply calm_fix_node_id.
  apply calm_replace;
    [discriminate|apply absent_char; reflexivity|].
  apply calm_replace;
    [discriminate|apply absent_char; reflexivity|].
  apply calm_sub_go.
  { intros u k r E. apply run_gt_replacement in E as (-> & _).
    split; [discriminate|apply absent_char; reflexivity]. }
  apply calm_sub_go; [|exact H].
  intros u k r E. apply run_gt_replacement in E as (-> & _).
  split; [discriminate|apply absent_char; reflexivity].
Qed.

(** X23.  The repair of a text that begins with a code fence (once trimmed), or
    that has no code fence at all, returns a text without a code fence:
    the fences removed at the start are not put together again by the
    repairs of the lines.  (A text that has a fence but does not begin with
    one keeps it.) *)
Theorem fix_mermaid_syntax_removes_fences (s : text) :
  startswith FENCE (strip s) = true \/ contains FENCE s = false ->
  contains FENCE (fix_mermaid_syntax s) = false.
Proof.
  intros H. apply calm_no_fence.
  unfold fix_mermaid_syntax; cbv zeta.
  assert (calm (strip_fences (strip s))) as Hcode.
  { apply calm_strip_fences. destruct H as [H|H]; [now left|right].
    now apply calm_strip, no_fence_calm. }
  apply calm_join_lines. apply Forall_forall. intros o Ho.
  apply in_map_iff in Ho as (l & <- & Hl).
  apply calm_fix_line.
  destruct (split_on_factor _ _ _ Hl) as (a & w & E).
  rewrite E in Hcode. now apply calm_factor in Hcode.
Qed.

End WordCharacters.

(* ================================================================== *)
(** * The degraded prompt and the accepted diagram                      *)
(* ================================================================== *)

Lemma split_go_cons (sep : text) (x : char) (s : text) :
  split_go sep 0 (x :: s)
  = if startswith sep (x :: s) then [] :: split_go sep (length sep - 1) s
    else match split_go sep 0 s with
         | l :: ls => (x :: l) :: ls
         | [] => [[x]]
         end.
Proof. reflexivity. Qed.

(** [s.split(sep)[0]] is the text before the first [sep], or all of [s]. *)
Lemma split_first_cut (sep s : text) :
  sep <> [] ->
  contains sep s = true ->
  exists rest, s = hd [] (split sep s) ++ sep ++ rest.
Proof.
  intros Hne. unfold split.
  induction s as [|x s IH]; intros H.
  - destruct sep; [congruence|discriminate].
  - rewrite split_go_cons.
    destruct (startswith sep (x :: s)) eqn:E.
    + apply startswith_prefix in E as (rest & ->). now exists rest.
    + simpl in H. rewrite E in H. destruct (IH H) as (rest & Hrest).
      exists rest. destruct (split_go sep 0 s) as [|l ls]; cbn [hd] in *;
        simpl; now rewrite Hrest at 1.
Qed.

(** A text without [sep] is the only piece of [s.split(sep)]. *)
Lemma split_first_whole (sep s : text) :
  sep <> [] -> contains sep s = false -> hd [] (split sep s) = s.
Proof.
  intros Hne. unfold split.
  induction s as [|x s IH]; intros H; [reflexivity|].
  rewrite split_go_cons.
  change (contains sep (x :: s))
    with (startswith sep (x :: s) || contains sep s) in H.
  apply orb_false_iff in H as [E H]. rewrite E.
  specialize (IH H).
  destruct (split_go sep 0 s) as [|l ls]; cbn [hd] in *; now rewrite IH.
Qed.

(** X24.  The prompt rebuilt after a context-length error is the prompt cut at
    the first occurrence of "FILE CONTENTS", wherever that is, followed by
    the reduced file-contents section: nothing that came after that
    occurrence is kept, and a prompt without the words is kept whole. *)
Theorem degraded_context_cut (repo : repo_data) (context : text) :
  exists kept dropped,
    context = kept ++ dropped
    /\ contains (lit "FILE CONTENTS") kept = false
    /\ (contains (lit "FILE CONTENTS") context = true ->
        startswith (lit "FILE CONTENTS") dropped = true)
    /\ (contains (lit "FILE CONTENTS") context = false ->
        kept = context /\ dropped = [])
    /\ degraded_context repo context
       = kept ++ lit "FILE CONTENTS (reduced due to token limit):" ++ [NL]
         ++ RULE ++ [NL] ++ build_trimmed_file_contents repo 80000%N 15.
Proof.
  destruct (@split_first_piece (lit "FILE CONTENTS") context)
    as [(w & Hw) Hfree]; [discriminate|].
  exists (hd [] (split (lit "FILE CONTENTS") context)), w.
  split; [exact Hw|]. split; [exact Hfree|].
  split; [|split; [|reflexivity]].
  - intros Hin.
    destruct (@split_first_cut (lit "FILE CONTENTS") context) as (rest & Hcut);
      [discriminate|exact Hin|].
    rewrite Hcut in Hw at 1. apply app_inv_head in Hw. subst w.
    apply startswith_app.
  - intros Hout.
    assert (hd [] (split (lit "FILE CONTENTS") context) = context) as Hwhole
        by (apply split_first_whole; [discriminate|exact Hout]).
    rewrite Hwhole in Hw |- *.
    split; [reflexivity|].
    rewrite <- (app_nil_r context) in Hw at 1.
    apply app_inv_head in Hw. now symmetry.
Qed.

(** X25.  A reply whose diagram is not empty and is accepted by both validators
    is returned after one invocation; the diagram returned is the extracted
    one repaired once more. *)
Theorem accepted_diagram_returned llm repo question chat_history reply a code ty :
  llm 0 (initial_messages repo question chat_history) = Reply reply ->
  extract_diagram_from_response reply = (a, Some code, ty) ->
  code <> [] ->
  fst (validate_mermaid_syntax (fix_mermaid_syntax code)) = true ->
  fst (validate_diagram_completeness (fix_mermaid_syntax code) repo) = true ->
  exists r st,
    analyze_repo_with_chat llm repo question chat_history = Some (FromLoop, r, st)
    /\ answer r = a
    /\ mermaid_code r = Some (fix_mermaid_syntax code)
    /\ diagram_type r = ty
    /\ has_diagram r = true
    /\ calls st = [initial_messages repo question chat_history]
    /\ attempt st = 0.
Proof.
  intros Hllm Hext Hne Hvalid Hcomplete.
  eexists. eexists. split.
  - unfold analyze_repo_with_chat, initial_state.
    cbn [while_loop attempt Nat.ltb Nat.leb max_retries].
    unfold loop_body; cbv zeta. cbn [calls length messages].
    rewrite Hllm, Hext.
    destruct code as [|x code]; [congruence|].
    destruct (validate_mermaid_syntax _) as [v errors].
    destruct (validate_diagram_completeness _ _) as [v' issues].
    cbn [fst] in Hvalid, Hcomplete. subst v v'. cbn [negb andb].
    reflexivity.
  - repeat split.
Qed.

(* ================================================================== *)
(** * The type of a diagram and its header                              *)
(* ================================================================== *)

Lemma isspace_range (c : char) :
  isspace c = true -> (c <= 32 \/ 133 <= c)%N.
Proof.
  unfold isspace.
  rewrite !orb_true_iff, !andb_true_iff, !N.leb_le, !N.eqb_eq. lia.
Qed.

Lemma lstrip_map (f : char -> char) (s : text) :
  (forall c, isspace (f c) = isspace c) ->
  lstrip (map f s) = map f (lstrip s).
Proof.
  intros Hf. induction s as [|x s IH]; simpl; [reflexivity|].
  rewrite Hf. destruct (isspace x); [exact IH|reflexivity].
Qed.

Lemma strip_map (f : char -> char) (s : text) :
  (forall c, isspace (f c) = isspace c) ->
  strip (map f s) = map f (strip s).
Proof.
  intros Hf. unfold strip, rstrip.
  now rewrite lstrip_map, <- map_rev, lstrip_map, map_rev by exact Hf.
Qed.

(** Lowering ASCII letters and trimming commute. *)
Lemma strip_ascii_lower (s : text) :
  strip (ascii_lower s) = ascii_lower (strip s).
Proof.
  apply strip_map. intros c.
  destruct ((65 <=? c) && (c <=? 90))%N eqn:E; [|reflexivity].
  apply andb_true_iff in E as [Hlo Hhi].
  apply N.leb_le in Hlo. apply N.leb_le in Hhi.
  destruct (isspace c) eqn:Ec.
  - apply isspace_range in Ec. lia.
  - destruct (isspace (c + 32)%N) eqn:Ec'; [|reflexivity].
    apply isspace_range in Ec'. lia.
Qed.

Lemma startswith_map (f : char -> char) (p s : text) :
  startswith p s = true -> startswith (map f p) (map f s) = true.
Proof.
  intros H. apply startswith_prefix in H as (rest & ->).
  rewrite map_app. apply startswith_app.
Qed.

Lemma rstrip_prefix (s : text) : exists w, s = rstrip s ++ w.
Proof.
  unfold rstrip. destruct (lstrip_factor (rev s)) as (a & E).
  exists (rev a). rewrite <- rev_app_distr, <- E. now rewrite rev_involutive.
Qed.

(** What the header of a text starts with, the trimmed text starts with. *)
Lemma header_prefix (p s : text) :
  startswith p (strip (hd [] (split_on NL (strip s)))) = true ->
  startswith p (strip s) = true.
Proof.
  intros H.
  destruct (split_on_first NL (strip s)) as (w & Hw).
  destruct (trimmed_strip s) as [Hclean _].
  set (l0 := hd [] (split_on NL (strip s))) in *.
  assert (lstrip l0 = l0) as Hl0.
  { apply lstrip_clean. rewrite Hw in Hclean.
    destruct l0; [reflexivity|exact Hclean]. }
  unfold strip at 1 in H. rewrite Hl0 in H.
  destruct (rstrip_prefix l0) as (w' & Hw').
  rewrite Hw, Hw', <- app_assoc. now apply startswith_app_r.
Qed.

(** X26.  For ASCII text, on which [str.lower] is the ASCII lowering, the type
    given by [detect_diagram_type] follows the header that
    [validate_mermaid_syntax] checks: the six headers with a type of their
    own get it, and the five others that are valid ([journey], [gantt],
    [mindmap], [pie], [gitGraph]) are "custom". *)
Theorem header_decides_type (s : text) :
  (forall t, Forall is_ascii t -> lower t = ascii_lower t) ->
  Forall is_ascii s ->
  let header := strip (hd [] (split_on NL (strip s))) in
  (startswith (lit "sequenceDiagram") header = true ->
   detect_diagram_type s = lit "sequence")
  /\ (startswith (lit "graph") header = true
      \/ startswith (lit "flowchart") header = true ->
      detect_diagram_type s = lit "flowchart")
  /\ (startswith (lit "classDiagram") header = true ->
      detect_diagram_type s = lit "class")
  /\ (startswith (lit "erDiagram") header = true ->
      detect_diagram_type s = lit "database")
  /\ (startswith (lit "stateDiagram") header = true ->
      detect_diagram_type s = lit "state")
  /\ (startswith (lit "journey") header = true
      \/ startswith (lit "gantt") header = true
      \/ startswith (lit "mindmap") header = true
      \/ startswith (lit "pie") header = true
      \/ startswith (lit "gitGraph") header = true ->
      detect_diagram_type s = lit "custom").
Proof.
  intros Hlower Hascii. cbv zeta.
  assert (forall p, startswith p (strip (hd [] (split_on NL (strip s)))) = true ->
            exists rest,
              strip (lower s) = ascii_lower p ++ rest) as Hhead.
  { intros p Hp. apply header_prefix in Hp.
    apply startswith_prefix in Hp as (rest & Hrest).
    exists (ascii_lower rest).
    rewrite Hlower by exact Hascii.
    rewrite strip_ascii_lower, Hrest. apply map_app. }
  unfold detect_diagram_type; cbv zeta.
  repeat split; intros H;
    repeat match type of H with
           | _ \/ _ => destruct H as [H|H]
           end;
    apply Hhead in H as (rest & ->); reflexivity.
Qed.

(* ================================================================== *)
(** * What the repairer leaves alone                                    *)
(* ================================================================== *)

Lemma count_app (c : char) (a b : text) :
  count c (a ++ b) = count c a + count c b.
Proof. induction a as [|x a IH]; simpl; [reflexivity|]. rewrite IH. lia. Qed.

Lemma count_absent (c : char) (s : text) : ~ In c s -> count c s = 0.
Proof.
  induction s as [|x s IH]; intros H; simpl; [reflexivity|].
  assert (char_eqb x c = false) as ->.
  { apply char_eqb_neq. intros ->. apply H. now left. }
  apply IH. intros Hin. apply H. now right.
Qed.

Lemma count_firstn_skipn (c : char) (k : nat) (s : text) :
  count c s = count c (firstn k s) + count c (skipn k s).
Proof. now rewrite <- count_app, firstn_skipn. Qed.

(** A substitution whose replacements have as many [c] as what they
    replace keeps the number of [c]. *)
Lemma count_sub_go (c : char) (m : text -> option (nat * text)) :
  (forall t k r, m t = Some (S k, r) -> count c r = count c (firstn (S k) t)) ->
  forall s k, count c (sub_go m k s) = count c (skipn k s).
Proof.
  intros Hm. induction s as [|x s IH]; intros k.
  - now rewrite skipn_nil.
  - rewrite sub_go_cons. destruct k as [|k]; [|apply IH].
    destruct (m (x :: s)) as [[[|n] r]|] eqn:E;
      try (simpl; now rewrite IH).
    rewrite count_app, IH, (Hm _ _ _ E).
    change (skipn 0 (x :: s)) with (x :: s).
    rewrite (count_firstn_skipn c (S n) (x :: s)). reflexivity.
Qed.

Lemma count_run_gt (c c' : char) (n : nat) (r s : text) :
  c <> c' -> count c r = count c [GT] ->
  count c (re_sub (match_run_gt c' n r) s) = count c s.
Proof.
  intros Hc Hr. unfold re_sub. rewrite count_sub_go; [reflexivity|].
  intros t k r' E. pose proof E as E'.
  apply run_gt_replacement in E' as [-> _].
  apply run_gt_consumed in E as (_ & rest & ->).
  rewrite firstn_repeat_app, count_app.
  rewrite (@count_absent c (repeat c' k)) by (now apply repeat_absent).
  exact Hr.
Qed.

Lemma count_replace (c : char) (old new s : text) :
  old <> [] -> count c new = count c old ->
  count c (replace old new s) = count c s.
Proof.
  intros Hne Hnew. unfold replace, re_sub.
  rewrite count_sub_go; [reflexivity|].
  intros t k r E. destruct (startswith old t) eqn:Es; [|discriminate].
  inversion E as [[Hk Hr]]. subst r.
  apply startswith_prefix in Es as (rest & ->).
  rewrite firstn_app, firstn_all, Nat.sub_diag. simpl.
  now rewrite app_nil_r.
Qed.

Lemma count_semis (c : char) (s : text) :
  c <> SEMI -> count c (re_sub match_semis s) = count c s.
Proof.
  intros Hc. unfold re_sub. rewrite count_sub_go; [reflexivity|].
  intros t k r E. pose proof E as E'.
  apply semis_replacement in E' as (-> & _).
  apply semis_consumed in E as (rest & ->).
  rewrite firstn_repeat.
  rewrite (@count_absent c (repeat SEMI (S k))) by (now apply repeat_absent).
  apply count_absent. intros [H|[]]. congruence.
Qed.

Lemma firstn_add (A : Type) (a b : nat) (l : list A) :
  firstn (a + b) l = firstn a l ++ firstn b (skipn a l).
Proof.
  revert l. induction a as [|a IH]; intros l; [reflexivity|].
  destruct l as [|x l]; simpl; [now rewrite firstn_nil|].
  now rewrite IH.
Qed.

Lemma count_run_space (c : char) (s : text) :
  isspace c = false -> count c (firstn (run isspace s) s) = 0.
Proof.
  intros Hc. induction s as [|x s IH]; simpl; [reflexivity|].
  destruct (isspace x) eqn:Ex; simpl; [|reflexivity].
  assert (char_eqb x c = false) as ->; [|exact IH].
  apply char_eqb_neq. congruence.
Qed.

Lemma count_ident_gap (c : char) (isw : char -> bool) (s : text) :
  isspace c = false -> c <> UNDERSCORE ->
  count c (re_sub (match_ident_gap isw) s) = count c s.
Proof.
  intros Hspace Hc. unfold re_sub. rewrite count_sub_go; [reflexivity|].
  intros t k r. unfold match_ident_gap; cbv zeta.
  destruct (_ && _); [|discriminate]. intros E.
  inversion E as [[Hk Hr]]. rewrite <- Nat.add_assoc, !firstn_add.
  rewrite !count_app, count_run_space by exact Hspace.
  f_equal. simpl.
  assert (char_eqb UNDERSCORE c = false) as ->
      by (apply char_eqb_neq; congruence).
  reflexivity.
Qed.

Lemma count_lstrip (c : char) (s : text) :
  isspace c = false -> count c (lstrip s) = count c s.
Proof.
  intros Hc. induction s as [|x s IH]; simpl; [reflexivity|].
  destruct (isspace x) eqn:Ex; [|reflexivity].
  assert (char_eqb x c = false) as ->; [|exact IH].
  apply char_eqb_neq. congruence.
Qed.

Lemma count_rev (c : char) (s : text) : count c (rev s) = count c s.
Proof.
  induction s as [|x s IH]; simpl; [reflexivity|].
  rewrite count_app, IH. simpl. lia.
Qed.

Lemma count_strip (c : char) (s : text) :
  isspace c = false -> count c (strip s) = count c s.
Proof.
  intros Hc. unfold strip, rstrip.
  now rewrite count_rev, count_lstrip, count_rev, count_lstrip.
Qed.

Lemma count_fix_node_id (c : char) (line : text) :
  isspace c = false -> c <> UNDERSCORE ->
  count c (fix_node_id line) = count c line.
Proof.
  intros Hspace Hc. unfold fix_node_id.
  destruct (_ || _); [|reflexivity].
  pose proof (split1_parts LBRACKET line) as Hp.
  destruct (split1 LBRACKET line) as [|before [|rest more]]; try reflexivity.
  destruct more; [|contradiction]. destruct Hp as [E _].
  rewrite E, !count_app.
  rewrite count_ident_gap by assumption.
  change (LBRACKET :: rest) with ([LBRACKET] ++ rest).
  now rewrite count_app.
Qed.

(** A repaired line has as many of each character as the line, for every
    character that is not whitespace, a dash, a dot, an equal sign, a
    semicolon or an underscore. *)
Lemma count_fix_line (c : char) (l : text) :
  isspace c = false ->
  ~ In c [DASH; DOT; EQUALS; SEMI; UNDERSCORE] ->
  count c (fix_line l) = count c l.
Proof.
  intros Hspace Hc.
  assert (c <> DASH /\ c <> DOT /\ c <> EQUALS /\ c <> SEMI /\ c <> UNDERSCORE)
    as (Hdash & Hdot & Heq & Hsemi & Hunder).
  { repeat split; intros ->; apply Hc; simpl; auto 10. }
  rewrite <- (@count_strip c l Hspace). unfold fix_line; cbv zeta.
  destruct (is_blank_or_comment _); [reflexivity|].
  destruct (is_subgraph_or_end _); [reflexivity|].
  rewrite count_semis by exact Hsemi.
  rewrite count_fix_node_id by assumption.
  assert (char_eqb 45%N c = false) as Hno_dash
      by (apply char_eqb_neq; exact (not_eq_sym Hdash)).
  assert (char_eqb 46%N c = false) as Hno_dot
      by (apply char_eqb_neq; exact (not_eq_sym Hdot)).
  assert (char_eqb 61%N c = false) as Hno_equals
      by (apply char_eqb_neq; exact (not_eq_sym Heq)).
  rewrite count_replace;
    [|discriminate|simpl; rewrite ?Hno_dash, ?Hno_dot, ?Hno_equals; reflexivity].
  rewrite count_replace;
    [|discriminate|simpl; rewrite ?Hno_dash, ?Hno_dot, ?Hno_equals; reflexivity].
  rewrite count_run_gt;
    [|exact Hdot|simpl; rewrite ?Hno_dash, ?Hno_dot, ?Hno_equals; reflexivity].
  rewrite count_run_gt;
    [reflexivity|exact Hdash|simpl; rewrite ?Hno_dash, ?Hno_dot, ?Hno_equals; reflexivity].
Qed.

Lemma count_join_lines (c : char) (lines : list text) :
  c <> NL ->
  count c (join [NL] lines) = list_sum (map (count c) lines).
Proof.
  intros Hc. induction lines as [|l ls IH]; [reflexivity|].
  destruct ls as [|l' ls]; [simpl; lia|].
  change (join [NL] (l :: l' :: ls)) with (l ++ NL :: join [NL] (l' :: ls)).
  change (l ++ NL :: join [NL] (l' :: ls))
    with (l ++ [NL] ++ join [NL] (l' :: ls)).
  rewrite !count_app, IH.
  rewrite (@count_absent c [NL]) by (intros [H|[]]; congruence).
  reflexivity.
Qed.

Lemma join_split_on (c : char) (s : text) : join [c] (split_on c s) = s.
Proof.
  induction s as [|x s IH]; [reflexivity|]. simpl.
  pose proof (split_on_nonempty c s) as Hne.
  destruct (char_eqb x c) eqn:E.
  - apply char_eqb_eq in E. subst x.
    destruct (split_on c s) as [|l ls]; [congruence|].
    change (join [c] ([] :: l :: ls)) with (c :: join [c] (l :: ls)).
    now rewrite IH.
  - destruct (split_on c s) as [|l ls]; [congruence|].
    destruct ls as [|l' ls]; simpl in *; now rewrite IH.
Qed.

(** X27.  The repairer only adds or removes whitespace, dashes, dots, equal
    signs, semicolons and underscores: the repaired text of a text that
    does not begin with a code fence has as many of every other character
    as the text.  In particular it has the same brackets, parentheses and
    braces, so it never balances a line that the validator rejects. *)
Theorem fix_mermaid_syntax_keeps_characters (s : text) (c : char) :
  startswith FENCE (strip s) = false ->
  isspace c = false ->
  ~ In c [DASH; DOT; EQUALS; SEMI; UNDERSCORE] ->
  count c (fix_mermaid_syntax s) = count c s.
Proof.
  intros Hfence Hspace Hc.
  assert (c <> NL) as Hnl by (intros ->; discriminate).
  unfold fix_mermaid_syntax; cbv zeta.
  rewrite strip_fences_unfenced by exact Hfence.
  rewrite count_join_lines, map_map by exact Hnl.
  rewrite (map_ext _ (count c)) by (intros l; now apply count_fix_line).
  rewrite <- count_join_lines by exact Hnl.
  now rewrite join_split_on, count_strip.
Qed.

(* ================================================================== *)
(** * The renderer: the escaped code                                    *)
(* ================================================================== *)

Lemma char_eqb_sym (a b : char) : char_eqb a b = char_eqb b a.
Proof. apply N.eqb_sym. Qed.

Lemma cooked_cons (must : char -> text -> bool) (may : char -> bool)
    (escaped : bool) (x : char) (s : text) :
  cooked must may escaped (x :: s)
  = if escaped then
      if may x then option_map (cons x) (cooked must may false s) else None
    else if char_eqb x BACKSLASH then cooked must may true s
    else if must x s then None
    else if char_eqb x CR then
      if startswith [NL] s then cooked must may false s
      else option_map (cons NL) (cooked must may false s)
    else option_map (cons x) (cooked must may false s).
Proof. reflexivity. Qed.

(** [s.replace(c, new)] for a single character [c]. *)
Lemma replace_char_cons (c : char) (new : text) (x : char) (s : text) :
  replace [c] new (x :: s)
  = if char_eqb c x then new ++ replace [c] new s else x :: replace [c] new s.
Proof.
  unfold replace, re_sub. rewrite sub_go_cons. simpl.
  destruct (char_eqb c x); reflexivity.
Qed.

Lemma startswith_cons (a : char) (p : text) (x : char) (s : text) :
  startswith (a :: p) (x :: s) = char_eqb a x && startswith p s.
Proof. reflexivity. Qed.

Lemma sub_go_nil (m : text -> option (nat * text)) (k : nat) :
  sub_go m k [] = [].
Proof. reflexivity. Qed.

Local Abbreviation no_must := (fun (_ : char) (_ : text) => false).
Local Abbreviation tick_must := (fun (x : char) (_ : text) => char_eqb x BACKTICK).
Local Abbreviation may1 := (fun x : char => char_eqb x BACKSLASH).
Local Abbreviation may2 :=
  (fun x : char => char_eqb x BACKSLASH || char_eqb x BACKTICK).
Local Abbreviation may3 :=
  (fun x : char => char_eqb x BACKSLASH || char_eqb x BACKTICK
                   || char_eqb x DOLLAR).
Local Abbreviation dollar_sub :=
  (fun t : text => if startswith (lit "${") t
                   then Some (length (lit "${"), lit "\${") else None).
Local Abbreviation script_sub :=
  (fun t : text => if startswith (lit "</script>") t
                   then Some (length (lit "</script>"), lit "<\/script>")
                   else None).

(** ** The first character after each substitution *)

Lemma replace_char_first (c c' y : char) (new s : text) :
  char_eqb y c = false -> char_eqb y c' = false ->
  startswith [y] (replace [c] (c' :: new) s) = startswith [y] s.
Proof.
  intros Hc Hc'. destruct s as [|x s]; [reflexivity|].
  rewrite replace_char_cons. destruct (char_eqb c x) eqn:E; [|reflexivity].
  apply char_eqb_eq in E. subst x.
  cbn [app]. rewrite !startswith_cons, Hc, Hc'. reflexivity.
Qed.

Lemma dollar_sub_first (y : char) (s : text) :
  char_eqb y DOLLAR = false -> char_eqb y BACKSLASH = false ->
  startswith [y] (sub_go dollar_sub 0 s) = startswith [y] s.
Proof.
  intros Hd Hb. destruct s as [|x s]; [reflexivity|].
  rewrite sub_go_cons. cbv beta.
  destruct (startswith (lit "${") (x :: s)) eqn:E; [|reflexivity].
  apply startswith_prefix in E as (rest & E).
  change (lit "${" ++ rest) with (DOLLAR :: LBRACE :: rest) in E.
  injection E as -> ->.
  change (startswith [y] (BACKSLASH :: DOLLAR :: LBRACE
                          :: sub_go dollar_sub 0 rest)
          = startswith [y] (DOLLAR :: LBRACE :: rest)).
  rewrite !startswith_cons, Hd, Hb. reflexivity.
Qed.

Lemma script_sub_first (y : char) (s : text) :
  startswith [y] (sub_go script_sub 0 s) = startswith [y] s.
Proof.
  destruct s as [|x s]; [reflexivity|].
  rewrite sub_go_cons. cbv beta.
  destruct (startswith (lit "</script>") (x :: s)) eqn:E; [|reflexivity].
  apply startswith_prefix in E as (rest & E).
  change (lit "</script>" ++ rest) with (60%N :: lit "/script>" ++ rest) in E.
  injection E as -> ->. reflexivity.
Qed.

(** ** The value of the literal after each replacement *)

(** After the backslashes are doubled, every pair denotes a backslash. *)
Lemma cooked_doubled (s : text) :
  cooked no_must may1 false (replace [BACKSLASH] [BACKSLASH; BACKSLASH] s)
  = Some (universal_newlines s).
Proof.
  induction s as [|x s IH]; [reflexivity|].
  rewrite replace_char_cons. destruct (char_eqb BACKSLASH x) eqn:E.
  - apply char_eqb_eq in E. subst x.
    cbn [app]. rewrite !cooked_cons, !char_eqb_refl, IH. reflexivity.
  - rewrite cooked_cons, char_eqb_sym, E.
    rewrite replace_char_first by reflexivity.
    cbn [universal_newlines].
    destruct (char_eqb x CR); [destruct (startswith [NL] s)|];
      rewrite IH; reflexivity.
Qed.

(** A backslash put before every backtick does not change the value. *)
Lemma cooked_ticks (s : text) :
  forall escaped r,
    cooked no_must may1 escaped s = Some r ->
    cooked tick_must may2 escaped
           (replace [BACKTICK] [BACKSLASH; BACKTICK] s) = Some r.
Proof.
  induction s as [|x s IH]; intros escaped r H; [exact H|].
  rewrite replace_char_cons. rewrite cooked_cons in H.
  destruct (char_eqb BACKTICK x) eqn:Et.
  - apply char_eqb_eq in Et. subst x.
    destruct escaped; [discriminate H|].
    change (option_map (cons BACKTICK) (cooked no_must may1 false s) = Some r)
      in H.
    change (option_map (cons BACKTICK)
              (cooked tick_must may2 false
                 (replace [BACKTICK] [BACKSLASH; BACKTICK] s)) = Some r).
    destruct (cooked no_must may1 false s) as [r'|] eqn:E; [|discriminate H].
    rewrite (IH false r' E). exact H.
  - rewrite cooked_cons. rewrite (char_eqb_sym x BACKTICK), Et.
    destruct escaped.
    + destruct (char_eqb x BACKSLASH); [|discriminate H]. cbn [orb].
      destruct (cooked no_must may1 false s) as [r'|] eqn:E; [|discriminate H].
      rewrite (IH false r' E). exact H.
    + destruct (char_eqb x BACKSLASH); [exact (IH true r H)|].
      rewrite replace_char_first by reflexivity.
      destruct (char_eqb x CR);
        [destruct (startswith [NL] s); [exact (IH false r H)|]|];
        (destruct (cooked no_must may1 false s) as [r'|] eqn:E;
         [|discriminate H]); rewrite (IH false r' E); exact H.
Qed.

(** Nor does a backslash put before every [${]. *)
Lemma cooked_dollars (s : text) :
  forall k escaped r,
    cooked tick_must may2 escaped (skipn k s) = Some r ->
    cooked ends_literal may3 escaped (sub_go dollar_sub k s) = Some r.
Proof.
  induction s as [|x s IH]; intros k escaped r H.
  - rewrite skipn_nil in H. exact H.
  - rewrite sub_go_cons. destruct k as [|k]; [|exact (IH k escaped r H)].
    change (skipn 0 (x :: s)) with (x :: s) in H. cbv beta.
    destruct (startswith (lit "${") (x :: s)) eqn:Em.
    + pose proof Em as Ep. apply startswith_prefix in Ep as (rest & Ep).
      change (lit "${" ++ rest) with (DOLLAR :: LBRACE :: rest) in Ep.
      injection Ep as -> ->.
      destruct escaped; [discriminate H|].
      change (option_map (cons DOLLAR)
                (option_map (cons LBRACE) (cooked tick_must may2 false rest))
              = Some r) in H.
      change (option_map (cons DOLLAR)
                (option_map (cons LBRACE)
                   (cooked ends_literal may3 false
                      (sub_go dollar_sub 1 (LBRACE :: rest))))
              = Some r).
      destruct (cooked tick_must may2 false rest) as [r'|] eqn:E;
        [|discriminate H].
      rewrite (IH 1 false r' E). exact H.
    + rewrite cooked_cons in H. rewrite cooked_cons.
      destruct escaped.
      * destruct (char_eqb x BACKSLASH || char_eqb x BACKTICK);
          [|discriminate H]. cbn [orb].
        destruct (cooked tick_must may2 false s) as [r'|] eqn:E;
          [|discriminate H].
        rewrite (IH 0 false r' E). exact H.
      * destruct (char_eqb x BACKSLASH); [exact (IH 0 true r H)|].
        unfold ends_literal at 1.
        destruct (char_eqb x BACKTICK); [discriminate H|]. cbn [orb].
        assert (char_eqb x DOLLAR
                && startswith [LBRACE] (sub_go dollar_sub 0 s) = false) as ->.
        { destruct (char_eqb x DOLLAR) eqn:Ed; [|reflexivity].
          apply char_eqb_eq in Ed. subst x.
          rewrite dollar_sub_first by reflexivity. exact Em. }
        rewrite dollar_sub_first by reflexivity.
        destruct (char_eqb x CR);
          [destruct (startswith [NL] s); [exact (IH 0 false r H)|]|];
          (destruct (cooked tick_must may2 false s) as [r'|] eqn:E;
           [|discriminate H]); rewrite (IH 0 false r' E); exact H.
Qed.

(** Nor does the backslash that breaks the closing tag: it escapes a
    slash. *)
Lemma cooked_scripts (s : text) :
  forall k escaped r,
    cooked ends_literal may3 escaped (skipn k s) = Some r ->
    cooked ends_literal escapable escaped (sub_go script_sub k s) = Some r.
Proof.
  induction s as [|x s IH]; intros k escaped r H.
  - rewrite skipn_nil in H. exact H.
  - rewrite sub_go_cons. destruct k as [|k]; [|exact (IH k escaped r H)].
    change (skipn 0 (x :: s)) with (x :: s) in H. cbv beta.
    destruct (startswith (lit "</script>") (x :: s)) eqn:Em.
    + apply startswith_prefix in Em as (rest & Ep).
      change (lit "</script>" ++ rest) with (60%N :: lit "/script>" ++ rest) in Ep.
      injection Ep as -> ->.
      destruct escaped; [discriminate H|].
      change (fold_right (fun c o => option_map (cons c) o)
                (cooked ends_literal may3 false rest) (lit "</script>")
              = Some r) in H.
      change (fold_right (fun c o => option_map (cons c) o)
                (cooked ends_literal escapable false
                   (sub_go script_sub 8 (lit "/script>" ++ rest)))
                (lit "</script>")
              = Some r).
      destruct (cooked ends_literal may3 false rest) as [r'|] eqn:E;
        [|discriminate H].
      rewrite (IH 8 false r' E
               : cooked ends_literal escapable false
                   (sub_go script_sub 8 (lit "/script>" ++ rest)) = Some r').
      exact H.
    + rewrite cooked_cons in H. rewrite cooked_cons.
      destruct escaped.
      * change (escapable x)
          with (char_eqb x BACKSLASH || char_eqb x BACKTICK
                || char_eqb x DOLLAR || char_eqb x SLASH).
        destruct (char_eqb x BACKSLASH || char_eqb x BACKTICK
                  || char_eqb x DOLLAR); [|discriminate H]. cbn [orb].
        destruct (cooked ends_literal may3 false s) as [r'|] eqn:E;
          [|discriminate H].
        rewrite (IH 0 false r' E). exact H.
      * destruct (char_eqb x BACKSLASH); [exact (IH 0 true r H)|].
        unfold ends_literal at 1. unfold ends_literal at 1 in H.
        rewrite !script_sub_first.
        destruct (char_eqb x BACKTICK
                  || char_eqb x DOLLAR && startswith [LBRACE] s);
          [discriminate H|].
        destruct (char_eqb x CR);
          [destruct (startswith [NL] s); [exact (IH 0 false r H)|]|];
          (destruct (cooked ends_literal may3 false s) as [r'|] eqn:E;
           [|discriminate H]); rewrite (IH 0 false r' E); exact H.
Qed.

(** X28.  The escaping loses nothing: the template literal that holds the
    escaped code denotes the diagram text again, with its line ends
    turned into [\n] as JavaScript does.  In particular every backtick and
    every [${] of the text is escaped, a backslash is put before nothing
    but a backslash, a backtick, a dollar or a slash, and the literal is
    not closed early. *)
Theorem safe_mermaid_code_round_trip (fixed_code : text) :
  template_value (safe_mermaid_code fixed_code)
  = Some (universal_newlines fixed_code).
Proof.
  unfold template_value, safe_mermaid_code.
  unfold replace at 1. unfold re_sub. apply cooked_scripts.
  unfold replace at 1. unfold re_sub. apply (cooked_dollars _ 0).
  apply cooked_ticks, cooked_doubled.
Qed.

(** ** No closing tag *)

Lemma starts_nowhere (p t : text) :
  (forall i, startswith p (skipn i t) = false) -> contains p t = false.
Proof.
  induction t as [|x t IH]; intros H.
  - simpl. rewrite orb_false_r. exact (H 0).
  - change (contains p (x :: t)) with (startswith p (x :: t) || contains p t).
    rewrite (H 0 : startswith p (x :: t) = false).
    apply IH. intros i. exact (H (S i)).
Qed.

(** What follows [<] in the closing tag, found at the start of the output,
    was at the start of the input. *)
Lemma script_sub_prefix (q : text) :
  ~ In 60%N q ->
  forall s, startswith q (sub_go script_sub 0 s) = true -> startswith q s = true.
Proof.
  induction q as [|y q IH]; intros Hq s H; [reflexivity|].
  destruct s as [|x s]; [discriminate|].
  rewrite sub_go_cons in H. cbv beta in H.
  destruct (startswith (lit "</script>") (x :: s)).
  - exfalso. apply Hq. left.
    change (length (lit "</script>")) with 9 in H. cbv iota in H.
    change (startswith (y :: q) (60%N :: lit "\/script>" ++ sub_go script_sub 8 s)
            = true) in H.
    rewrite startswith_cons in H. apply andb_true_iff in H as [H _].
    apply char_eqb_eq in H. now symmetry.
  - rewrite startswith_cons in *. apply andb_true_iff in H as [-> H].
    apply IH in H; [now rewrite H|]. intros Hin. apply Hq. now right.
Qed.

Lemma script_sub_quiet (s : text) :
  forall k i, startswith (lit "</script>") (skipn i (sub_go script_sub k s)) = false.
Proof.
  induction s as [|x s IH]; intros k i.
  - rewrite sub_go_nil, skipn_nil. reflexivity.
  - rewrite sub_go_cons. destruct k as [|k]; [|apply IH]. cbv beta.
    destruct (startswith (lit "</script>") (x :: s)) eqn:Em.
    + change (length (lit "</script>")) with 9. cbv iota.
      destruct (Nat.lt_ge_cases i 10) as [Hi|Hi].
      * do 10 (destruct i as [|i]; [reflexivity|]). lia.
      * rewrite skipn_app.
        change (length (lit "<\/script>")) with 10.
        rewrite (skipn_all2 (lit "<\/script>")) by exact Hi.
        apply IH.
    + destruct i as [|i]; [|apply IH].
      change (skipn 0 (x :: sub_go script_sub 0 s))
        with (x :: sub_go script_sub 0 s).
      destruct (startswith (lit "</script>") (x :: sub_go script_sub 0 s))
        eqn:E; [|reflexivity].
      change (lit "</script>") with (60%N :: lit "/script>") in E, Em.
      rewrite startswith_cons in E, Em.
      apply andb_true_iff in E as [Ex E]. rewrite Ex in Em.
      apply script_sub_prefix in E; [|apply absent_char; reflexivity].
      rewrite E in Em. discriminate Em.
Qed.

(** X29.  The escaped code never contains the closing tag [</script>] (in lower
    case, as the replacement looks for it), whatever the diagram text. *)
Theorem safe_mermaid_code_no_closing_tag (fixed_code : text) :
  contains (lit "</script>") (safe_mermaid_code fixed_code) = false.
Proof.
  unfold safe_mermaid_code. unfold replace at 1. unfold re_sub.
  apply starts_nowhere. intros i. apply script_sub_quiet.
Qed.

(* ================================================================== *)
(** * The renderer: the repair and its report                           *)
(* ================================================================== *)

Lemma text_eqb_eq (a b : text) : text_eqb a b = true <-> a = b.
Proof.
  revert b. induction a as [|x a IH]; intros [|y b]; simpl;
    try (split; [discriminate|congruence]); [now split|].
  rewrite andb_true_iff, char_eqb_eq, IH. split.
  - now intros [-> ->].
  - intros E. now inversion E.
Qed.

(** What a line adds to the report of the renderer: nothing when the
    repaired line is the trimmed line, one message otherwise. *)
Lemma renderer_fix_line_report (l : text) :
  snd (renderer_fix_line l)
  = if text_eqb (fst (renderer_fix_line l)) (strip l) then []
    else [lit "Fixed: " ++ firstn 50 (strip l) ++ lit "..."].
Proof.
  assert (text_eqb (strip l) (strip l) = true) as Hrefl
      by now apply text_eqb_eq.
  unfold renderer_fix_line; cbv zeta.
  destruct (is_blank_or_comment _); [cbn [fst snd]; now rewrite Hrefl|].
  destruct (is_subgraph_or_end _); [cbn [fst snd]; now rewrite Hrefl|].
  reflexivity.
Qed.

Lemma renderer_fix_line_no_newline (l : text) :
  ~ In NL l -> ~ In NL (fst (renderer_fix_line l)).
Proof.
  rewrite !no_newline_Forall. intros H. apply Forall_strip in H.
  unfold renderer_fix_line; cbv zeta.
  destruct (is_blank_or_comment _); [exact H|].
  destruct (is_subgraph_or_end _); [exact H|].
  cbn [fst].
  assert (Forall (fun c => c <> NL)
            (re_sub (match_run_gt DOT 3 (lit "-..->"))
               (re_sub (match_run_gt DASH 3 (lit "-->")) (strip l)))) as Ht.
  { apply Forall_run_gt; [repeat constructor; discriminate|].
    apply Forall_run_gt; [repeat constructor; discriminate|exact H]. }
  unfold renderer_fix_node_id.
  destruct (_ || _); [|exact Ht].
  pose proof (Forall_split1 LBRACKET Ht) as Hparts.
  destruct (split1 LBRACKET _) as [|before [|rest more]]; try exact Ht.
  inversion Hparts as [|? ? Hb Hrest]; subst.
  inversion Hrest as [|? ? Hr _]; subst.
  apply Forall_app. split; [apply Forall_ident_gap; [discriminate|exact Hb]|].
  constructor; [discriminate|exact Hr].
Qed.

Lemma renderer_lines (s : text) :
  split_on NL (fst (validate_and_fix_mermaid_syntax s))
  = map (fun l => fst (renderer_fix_line l)) (split_on NL (renderer_prepare s)).
Proof.
  unfold validate_and_fix_mermaid_syntax; cbv zeta. cbn [fst].
  rewrite map_map. apply split_on_join.
  - pose proof (split_on_nonempty NL (renderer_prepare s)) as Hne.
    destruct (split_on NL (renderer_prepare s)); [congruence|discriminate].
  - apply Forall_forall. intros o Ho.
    apply in_map_iff in Ho as (l & <- & Hl).
    apply renderer_fix_line_no_newline.
    pose proof (split_on_lines NL (renderer_prepare s)) as Hlines.
    rewrite Forall_forall in Hlines. now apply Hlines.
Qed.

Lemma renderer_report_length (lines : list text) :
  length (concat (map snd (map renderer_fix_line lines)))
  = length (filter (fun l => negb (text_eqb (fst (renderer_fix_line l)) (strip l)))
                   lines).
Proof.
  induction lines as [|l ls IH]; [reflexivity|].
  cbn [map concat filter]. rewrite length_app, IH, renderer_fix_line_report.
  destruct (text_eqb _ _); reflexivity.
Qed.

Lemma renderer_report_empty (lines : list text) :
  concat (map snd (map renderer_fix_line lines)) = []
  <-> map (fun l => fst (renderer_fix_line l)) lines = map strip lines.
Proof.
  induction lines as [|l ls IH]; [now split|].
  cbn [map concat]. rewrite renderer_fix_line_report.
  destruct (text_eqb (fst (renderer_fix_line l)) (strip l)) eqn:E.
  - apply text_eqb_eq in E. rewrite E. cbn [app]. rewrite IH.
    split; [now intros ->|]. intros H. now inversion H.
  - split; [discriminate|]. intros H. inversion H as [[Hl Hls]].
    apply text_eqb_eq in Hl. congruence.
Qed.

(** X30.  The renderer reports one fix for each line that its repair changes,
    and only for those: the report is empty exactly when the code returned
    is the prepared text with its lines trimmed.  Each message begins with
    "Fixed: " and is at most 60 characters long. *)
Theorem renderer_reports_each_change (s : text) :
  let lines := split_on NL (renderer_prepare s) in
  let code := fst (validate_and_fix_mermaid_syntax s) in
  let fixes := snd (validate_and_fix_mermaid_syntax s) in
  split_on NL code = map (fun l => fst (renderer_fix_line l)) lines
  /\ length fixes
     = length (filter (fun l => negb (text_eqb (fst (renderer_fix_line l))
                                               (strip l))) lines)
  /\ (fixes = [] <-> code = join [NL] (map strip lines))
  /\ Forall (fun e => startswith (lit "Fixed: ") e = true /\ length e <= 60)
            fixes.
Proof.
  cbv zeta. split; [apply renderer_lines|].
  split; [apply renderer_report_length|]. split.
  - unfold validate_and_fix_mermaid_syntax at 1; cbv zeta. cbn [snd].
    rewrite renderer_report_empty. split.
    + intros H. unfold validate_and_fix_mermaid_syntax; cbv zeta. cbn [fst].
      now rewrite map_map, H.
    + intros H. apply (f_equal (split_on NL)) in H.
      rewrite renderer_lines in H. rewrite H. apply split_on_join.
      * pose proof (split_on_nonempty NL (renderer_prepare s)) as Hne.
        destruct (split_on NL (renderer_prepare s)); [congruence|discriminate].
      * apply Forall_forall. intros o Ho.
        apply in_map_iff in Ho as (l & <- & Hl).
        apply strip_absent.
        pose proof (split_on_lines NL (renderer_prepare s)) as Hlines.
        rewrite Forall_forall in Hlines. now apply Hlines.
  - unfold validate_and_fix_mermaid_syntax; cbv zeta. cbn [snd].
    apply Forall_forall. intros e He.
    apply in_concat in He as (report & Hreport & He).
    apply in_map_iff in Hreport as (pair & <- & Hpair).
    apply in_map_iff in Hpair as (l & <- & _).
    rewrite renderer_fix_line_report in He.
    destruct (text_eqb _ _); [contradiction|].
    destruct He as [<-|[]]. split; [apply startswith_app|].
    rewrite !length_app, length_firstn.
    change (length (lit "Fixed: ")) with 7. change (length (lit "...")) with 3.
    lia.
Qed.

(* ================================================================== *)
(** * The content of the lines                                          *)
(* ================================================================== *)

Lemma content_app (a b : text) : content (a ++ b) = content a ++ content b.
Proof. apply filter_app. Qed.

Lemma content_repairable (s : text) :
  Forall (fun c => repairable c = true) s -> content s = [].
Proof.
  induction 1 as [|x s Hx _ IH]; [reflexivity|].
  unfold content in *. simpl. now rewrite Hx.
Qed.

Lemma content_repeat (c : char) (k : nat) :
  repairable c = true -> content (repeat c k) = [].
Proof.
  intros Hc. apply content_repairable, Forall_forall.
  intros x Hx. apply repeat_spec in Hx. now subst.
Qed.

(** A substitution whose replacements have the content of what they
    replace keeps the content. *)
Lemma content_sub_go (m : text -> option (nat * text)) :
  (forall t k r, m t = Some (S k, r) -> content r = content (firstn (S k) t)) ->
  forall s k, content (sub_go m k s) = content (skipn k s).
Proof.
  intros Hm. induction s as [|x s IH]; intros k.
  - now rewrite skipn_nil.
  - rewrite sub_go_cons. destruct k as [|k]; [|apply IH].
    change (skipn 0 (x :: s)) with (x :: s).
    destruct (m (x :: s)) as [[[|n] r]|] eqn:E;
      try (change (x :: sub_go m 0 s) with ([x] ++ sub_go m 0 s);
           change (x :: s) with ([x] ++ s);
           rewrite !content_app, IH; reflexivity).
    rewrite content_app, IH, (Hm _ _ _ E), <- content_app.
    change (skipn n s) with (skipn (S n) (x :: s)).
    now rewrite firstn_skipn.
Qed.

Lemma content_run_gt (c : char) (n : nat) (r s : text) :
  repairable c = true -> content r = [GT] ->
  content (re_sub (match_run_gt c n r) s) = content s.
Proof.
  intros Hc Hr. unfold re_sub. rewrite content_sub_go; [reflexivity|].
  intros t k r' E. pose proof E as E'.
  apply run_gt_replacement in E' as [-> _].
  apply run_gt_consumed in E as (_ & rest & ->).
  rewrite firstn_repeat_app, content_app, content_repeat by exact Hc.
  exact Hr.
Qed.

Lemma content_replace (old new s : text) :
  old <> [] -> content new = content old ->
  content (replace old new s) = content s.
Proof.
  intros Hne Hnew. unfold replace, re_sub.
  rewrite content_sub_go; [reflexivity|].
  intros t k r E. destruct (startswith old t) eqn:Es; [|discriminate].
  inversion E as [[Hk Hr]]. subst r.
  apply startswith_prefix in Es as (rest & ->).
  rewrite firstn_app, firstn_all, Nat.sub_diag. simpl.
  now rewrite app_nil_r.
Qed.

Lemma content_semis (s : text) : content (re_sub match_semis s) = content s.
Proof.
  unfold re_sub. rewrite content_sub_go; [reflexivity|].
  intros t k r E. pose proof E as E'.
  apply semis_replacement in E' as (-> & _).
  apply semis_consumed in E as (rest & ->).
  now rewrite firstn_repeat, content_repeat.
Qed.

Lemma content_run_space (s : text) : content (firstn (run isspace s) s) = [].
Proof.
  induction s as [|x s IH]; simpl; [reflexivity|].
  destruct (isspace x) eqn:Ex; [|reflexivity].
  unfold content in *. simpl. unfold repairable at 1. now rewrite Ex.
Qed.

Lemma content_ident_gap (isw : char -> bool) (s : text) :
  content (re_sub (match_ident_gap isw) s) = content s.
Proof.
  unfold re_sub. rewrite content_sub_go; [reflexivity|].
  intros t k r. unfold match_ident_gap; cbv zeta.
  destruct (_ && _); [|discriminate]. intros E.
  inversion E as [[Hk Hr]]. rewrite <- Nat.add_assoc, !firstn_add.
  now rewrite !content_app, content_run_space.
Qed.

Lemma content_lstrip (s : text) : content (lstrip s) = content s.
Proof.
  induction s as [|x s IH]; simpl; [reflexivity|].
  destruct (isspace x) eqn:Ex; [|reflexivity].
  rewrite IH. unfold content. simpl. unfold repairable at 2. now rewrite Ex.
Qed.

Lemma content_rev (s : text) : content (rev s) = rev (content s).
Proof.
  unfold content. induction s as [|x s IH]; [reflexivity|].
  simpl. rewrite filter_app, IH. simpl.
  destruct (negb (repairable x)); [reflexivity|apply app_nil_r].
Qed.

Lemma content_strip (s : text) : content (strip s) = content s.
Proof.
  unfold strip, rstrip.
  now rewrite content_rev, content_lstrip, content_rev, rev_involutive,
              content_lstrip.
Qed.

Lemma content_fix_node_id (line : text) :
  content (fix_node_id line) = content line.
Proof.
  unfold fix_node_id. destruct (_ || _); [|reflexivity].
  pose proof (split1_parts LBRACKET line) as Hp.
  destruct (split1 LBRACKET line) as [|before [|rest more]]; try reflexivity.
  destruct more; [|contradiction]. destruct Hp as [E _].
  rewrite E, !content_app, content_ident_gap.
  change (LBRACKET :: rest) with ([LBRACKET] ++ rest).
  now rewrite content_app.
Qed.

(** Whatever the repair does to a line, it keeps its content. *)
Lemma content_fix_line (l : text) : content (fix_line l) = content l.
Proof.
  rewrite <- (content_strip l). unfold fix_line; cbv zeta.
  destruct (is_blank_or_comment _); [reflexivity|].
  destruct (is_subgraph_or_end _); [reflexivity|].
  rewrite content_semis, content_fix_node_id.
  rewrite !content_replace by (discriminate || reflexivity).
  now rewrite !content_run_gt by reflexivity.
Qed.

Lemma Forall2_map_same (A B : Type) (R : A -> B -> Prop) (f : A -> B)
    (l : list A) :
  (forall x, R x (f x)) -> Forall2 R l (map f l).
Proof. intros H. induction l; simpl; constructor; auto. Qed.

(** C3, as the code has it.  For a diagram text that is already trimmed and
    does not begin with a code fence, the output has as many lines as the
    input, and each line of the output is the repair of the line of the
    input at the same place.  No content is dropped: apart from whitespace,
    dashes, dots, equal signs, semicolons and underscores, each line of the
    output holds the characters of its line of the input, in the same
    order, and a line that is not blank stays not blank.  (Surrounding
    whitespace and code fences are removed before the text is split into
    lines, so the count is not that of an arbitrary input.) *)
Theorem fix_mermaid_syntax_keeps_lines (s : text) :
  strip s = s ->
  startswith FENCE s = false ->
  length (split_on NL (fix_mermaid_syntax s)) = length (split_on NL s)
  /\ Forall2 (fun line repaired =>
                content repaired = content line
                /\ (strip line <> [] -> repaired <> []))
             (split_on NL s) (split_on NL (fix_mermaid_syntax s))
  /\ split_on NL (fix_mermaid_syntax s) = map fix_line (split_on NL s)
  /\ content (fix_mermaid_syntax s) = content s.
Proof.
  intros Htrim Hfence.
  pose proof (fix_mermaid_syntax_lines s) as Hlines.
  rewrite Htrim, (strip_fences_unfenced _ Hfence) in Hlines.
  split; [now rewrite Hlines, length_map|].
  split; [|split; [exact Hlines|]].
  - rewrite Hlines. apply Forall2_map_same. intros l.
    split; [apply content_fix_line|apply fix_line_nonblank].
  - unfold fix_mermaid_syntax; cbv zeta.
    rewrite Htrim, (strip_fences_unfenced _ Hfence).
    rewrite <- (join_split_on NL s) at 2. clear Hlines.
    induction (split_on NL s) as [|l ls IH]; [reflexivity|].
    destruct ls as [|l' ls]; [apply content_fix_line|].
    change (join [NL] (map fix_line (l :: l' :: ls)))
      with (fix_line l ++ [NL] ++ join [NL] (map fix_line (l' :: ls))).
    change (join [NL] (l :: l' :: ls)) with (l ++ [NL] ++ join [NL] (l' :: ls)).
    now rewrite !content_app, content_fix_line, IH.
Qed.

(* ================================================================== *)
(** * Repairing twice                                                   *)
(* ================================================================== *)

(** ** Occurrences of a text in the output of a substitution *)

Lemma skipn_tail (A : Type) (j : nat) (l : list A) (y : A) (q : list A) :
  skipn j l = y :: q -> skipn (S j) l = q /\ j < length l.
Proof.
  revert l. induction j as [|j IH]; intros l H.
  - destruct l as [|x l]; [discriminate|]. inversion H; subst.
    split; [reflexivity|simpl; lia].
  - destruct l as [|x l]; [discriminate|].
    destruct (IH l H) as [E Hlen]. split; [exact E|simpl; lia].
Qed.

Lemma nowhere_contains (p s : text) :
  contains p s = false -> forall i, startswith p (skipn i s) = false.
Proof.
  intros H i. destruct (startswith p (skipn i s)) eqn:E; [|reflexivity].
  apply contains_at_start, contains_skipn in E. congruence.
Qed.

Section Occurrences.

(** Occurrences of [p] are looked for in the output of the substitution
    [m], run on texts that satisfy [ok]. *)
Variable p : text.
Variable m : text -> option (nat * text).
Variable ok : text -> Prop.

Hypothesis p_nonempty : p <> [].
Hypothesis ok_tail : forall x s, ok (x :: s) -> ok s.

(** No occurrence starts inside a replacement. *)
Hypothesis inside :
  forall t k r i y,
    m t = Some (S k, r) -> i < length r -> startswith p (skipn i r ++ y) = false.

(** No occurrence starts at a character that is kept. *)
Hypothesis kept :
  forall x s,
    ok (x :: s) -> (forall k r, m (x :: s) <> Some (S k, r)) ->
    startswith p (x :: sub_go m 0 s) = false.

Lemma nowhere_sub_go (s : text) :
  forall k i, ok s -> startswith p (skipn i (sub_go m k s)) = false.
Proof.
  induction s as [|x s IH]; intros k i Hok.
  - rewrite sub_go_nil, skipn_nil. destruct p; [congruence|reflexivity].
  - rewrite sub_go_cons. destruct k as [|k]; [|apply IH, (ok_tail Hok)].
    destruct (m (x :: s)) as [[[|n] r]|] eqn:E.
    + destruct i as [|i]; [|apply IH, (ok_tail Hok)].
      apply kept; [exact Hok|]. intros k r' E'. congruence.
    + destruct (Nat.lt_ge_cases i (length r)) as [Hi|Hi].
      * rewrite skipn_app. replace (i - length r) with 0 by lia.
        change (skipn 0 (sub_go m n s)) with (sub_go m n s).
        eapply inside; eassumption.
      * rewrite skipn_app, (skipn_all2 r Hi). apply IH, (ok_tail Hok).
    + destruct i as [|i]; [|apply IH, (ok_tail Hok)].
      apply kept; [exact Hok|]. intros k r' E'. congruence.
Qed.

End Occurrences.

Section KeptOccurrences.

Variable p : text.
Variable m : text -> option (nat * text).

Hypothesis p_nonempty : p <> [].

Hypothesis inside :
  forall t k r i y,
    m t = Some (S k, r) -> i < length r -> startswith p (skipn i r ++ y) = false.

(** No occurrence that starts in kept text ends in a replacement. *)
Hypothesis into :
  forall t k r j y,
    m t = Some (S k, r) -> 0 < j -> j < length p ->
    startswith (skipn j p) (r ++ y) = false.

(** The end of an occurrence, found at the start of the output, was at the
    start of the input. *)
Lemma into_kept (s : text) :
  forall j, 0 < j ->
    startswith (skipn j p) (sub_go m 0 s) = true ->
    startswith (skipn j p) s = true.
Proof.
  induction s as [|x s IH]; intros j Hj H; [exact H|].
  destruct (skipn j p) as [|y q] eqn:Eq; [reflexivity|].
  destruct (skipn_tail _ _ Eq) as [Eq' Hlen].
  rewrite sub_go_cons in H.
  assert (startswith (y :: q) (x :: sub_go m 0 s) = true ->
          startswith (y :: q) (x :: s) = true) as Hkept.
  { rewrite !startswith_cons. intros Hx.
    apply andb_true_iff in Hx as [-> Hq]. rewrite <- Eq' in Hq |- *.
    apply IH in Hq; [exact Hq|lia]. }
  destruct (m (x :: s)) as [[[|n] r]|] eqn:E; try (now apply Hkept).
  rewrite <- Eq in H. rewrite (into _ E Hj Hlen) in H. discriminate H.
Qed.

(** If [m] matches wherever [p] occurs, [p] does not occur in the output. *)
Lemma nowhere_after_sub (s : text) :
  forall k,
    (forall i, startswith p (skipn i s) = false
               \/ exists k' r, m (skipn i s) = Some (S k', r)) ->
    forall i, startswith p (skipn i (sub_go m k s)) = false.
Proof.
  intros k Hcov i.
  apply (@nowhere_sub_go p m
           (fun s => forall i, startswith p (skipn i s) = false
                               \/ exists k' r, m (skipn i s) = Some (S k', r)));
    try assumption.
  - intros x t H j. exact (H (S j)).
  - intros x t Hok Hno.
    destruct (startswith p (x :: sub_go m 0 t)) eqn:E; [exfalso|reflexivity].
    assert (exists y q, p = y :: q) as (y & q & Ep)
        by (destruct p; [congruence|eauto]).
    pose proof (@into_kept t 1 Nat.lt_0_1) as Hin.
    rewrite Ep in E, Hin. cbn [skipn] in Hin.
    rewrite startswith_cons in E. apply andb_true_iff in E as [Hx Hq].
    specialize (Hin Hq).
    destruct (Hok 0) as [Hout|(k' & r & Hm)].
    + change (skipn 0 (x :: t)) with (x :: t) in Hout.
      rewrite Ep, startswith_cons, Hx, Hin in Hout. discriminate Hout.
    + exact (Hno _ _ Hm).
Qed.

Lemma absent_sub_go (s : text) (k : nat) :
  contains p s = false -> contains p (sub_go m k s) = false.
Proof.
  intros H. apply starts_nowhere. apply nowhere_after_sub.
  intros i. left. now apply nowhere_contains.
Qed.

End KeptOccurrences.

(** A substitution whose replacements are made of characters that [p] does
    not have makes no occurrence of [p]. *)
Lemma absent_sub_go_foreign (p : text) (m : text -> option (nat * text)) :
  p <> [] ->
  (forall t k r, m t = Some (S k, r) ->
                 r <> [] /\ Forall (fun z => ~ In z p) r) ->
  forall s k, contains p s = false -> contains p (sub_go m k s) = false.
Proof.
  intros Hp Hm s k. apply absent_sub_go; [exact Hp| |].
  - intros t k' r i y E Hi. destruct (Hm _ _ _ E) as [_ Hr].
    assert (Forall (fun z => ~ In z p) (skipn i r)) as Hs
        by (now apply Forall_skipn).
    destruct (skipn i r) as [|z rest] eqn:Er.
    { apply (f_equal (@length char)) in Er. rewrite length_skipn in Er.
      simpl in Er. lia. }
    inversion Hs as [|? ? Hz _]; subst.
    destruct p as [|c q]; [congruence|].
    change ((z :: rest) ++ y) with (z :: rest ++ y).
    rewrite startswith_cons.
    assert (char_eqb c z = false) as ->; [|reflexivity].
    apply char_eqb_neq. intros ->. apply Hz. now left.
  - intros t k' r j y E Hj Hlen. destruct (Hm _ _ _ E) as [Hne Hr].
    destruct r as [|z rest]; [congruence|].
    inversion Hr as [|? ? Hz _]; subst.
    destruct (skipn j p) as [|c q] eqn:Eq.
    { apply (f_equal (@length char)) in Eq. rewrite length_skipn in Eq.
      simpl in Eq. lia. }
    change ((z :: rest) ++ y) with (z :: rest ++ y).
    rewrite startswith_cons.
    assert (char_eqb c z = false) as ->; [|reflexivity].
    apply char_eqb_neq. intros ->. apply Hz.
    rewrite <- (firstn_skipn j p), Eq. apply in_or_app. right. now left.
Qed.

(** ** The arrows *)

(** A run of [n] or more [c] before [>] is an occurrence of [n] times [c]
    and [>]. *)
Lemma quiet_run_absent (c : char) (n : nat) (r s : text) :
  contains (repeat c n ++ [GT]) s = false -> quiet (match_run_gt c n r) s.
Proof.
  intros H i.
  destruct (match_run_gt c n r (skipn i s)) as [[k r']|] eqn:E;
    [exfalso|reflexivity].
  pose proof E as E'. apply run_gt_replacement in E' as [_ ->].
  apply run_gt_consumed in E as (Hk & rest & Hrest).
  assert (contains (repeat c n ++ [GT]) (skipn i s) = true) as Hin.
  { rewrite Hrest.
    replace (run (char_eqb c) (skipn i s))
      with ((run (char_eqb c) (skipn i s) - n) + n) by lia.
    rewrite repeat_app, <- app_assoc.
    change (repeat c n ++ GT :: rest) with (repeat c n ++ [GT] ++ rest).
    rewrite (app_assoc (repeat c n)).
    apply contains_occurrence. }
  apply contains_skipn in Hin. congruence.
Qed.

Lemma absent_run_quiet (c : char) (n : nat) (r s : text) :
  c <> GT ->
  quiet (match_run_gt c n r) s -> contains (repeat c n ++ [GT]) s = false.
Proof.
  intros Hc H. apply starts_nowhere. intros i.
  destruct (startswith (repeat c n ++ [GT]) (skipn i s)) eqn:E;
    [exfalso|reflexivity].
  apply startswith_prefix in E as (rest & E). specialize (H i).
  rewrite E, <- app_assoc in H.
  change ([GT] ++ rest) with (GT :: rest) in H.
  rewrite run_gt_decided in H by congruence.
  rewrite Nat.leb_refl, char_eqb_refl in H. discriminate H.
Qed.

Lemma replace_absent (old new s : text) :
  contains old s = false -> replace old new s = s.
Proof.
  intros H. unfold replace, re_sub. apply sub_quiet. intros i.
  now rewrite (nowhere_contains _ _ H i).
Qed.

Local Abbreviation thick_sub :=
  (fun t : text => if startswith (lit "===>") t
                   then Some (length (lit "===>"), lit "-->") else None).

Lemma thick_sub_replacement (t : text) (k : nat) (r : text) :
  thick_sub t = Some (k, r) -> r = lit "-->" /\ startswith (lit "===>") t = true.
Proof.
  cbv beta. destruct (startswith (lit "===>") t); [|discriminate].
  intros E. inversion E. now split.
Qed.

(** No [--===>] is made by the collapse of the dashes or of the dots. *)
Lemma bad_after_dashes (s : text) :
  contains (lit "--===>") s = false ->
  contains (lit "--===>") (re_sub dashes s) = false.
Proof.
  apply absent_sub_go; [discriminate| |].
  - intros t k r i y E Hi. apply run_gt_replacement in E as [-> _].
    destruct i as [|[|[|i]]]; try reflexivity. simpl in Hi. lia.
  - intros t k r j y E Hj Hlen. apply run_gt_replacement in E as [-> _].
    destruct j as [|[|[|[|[|[|j]]]]]]; try reflexivity. simpl in Hlen. lia.
Qed.

Lemma bad_after_dots (s : text) :
  contains (lit "--===>") s = false ->
  contains (lit "--===>") (re_sub dots s) = false.
Proof.
  apply absent_sub_go; [discriminate| |].
  - intros t k r i y E Hi. apply run_gt_replacement in E as [-> _].
    destruct i as [|[|[|[|[|i]]]]]; try reflexivity. simpl in Hi. lia.
  - intros t k r j y E Hj Hlen. apply run_gt_replacement in E as [-> _].
    destruct j as [|[|[|[|[|[|j]]]]]]; try reflexivity. simpl in Hlen. lia.
Qed.

(** No run of four dashes before [>] is made by the collapse of the dots. *)
Lemma dashes_after_dots (s : text) :
  contains (lit "---->") s = false ->
  contains (lit "---->") (re_sub dots s) = false.
Proof.
  apply absent_sub_go; [discriminate| |].
  - intros t k r i y E Hi. apply run_gt_replacement in E as [-> _].
    destruct i as [|[|[|[|[|i]]]]]; try reflexivity. simpl in Hi. lia.
  - intros t k r j y E Hj Hlen. apply run_gt_replacement in E as [-> _].
    destruct j as [|[|[|[|[|j]]]]]; try reflexivity. simpl in Hlen. lia.
Qed.

(** Once replaced, no [===>] is left. *)
Lemma thick_after_thick (s : text) :
  contains (lit "===>") (replace (lit "===>") (lit "-->") s) = false.
Proof.
  unfold replace, re_sub. apply starts_nowhere.
  apply nowhere_after_sub; [discriminate| | |].
  - intros t k r i y E Hi. apply thick_sub_replacement in E as [-> _].
    destruct i as [|[|[|i]]]; try reflexivity. simpl in Hi. lia.
  - intros t k r j y E Hj Hlen. apply thick_sub_replacement in E as [-> _].
    destruct j as [|[|[|[|j]]]]; try reflexivity. simpl in Hlen. lia.
  - intros i. destruct (startswith (lit "===>") (skipn i s)) eqn:E;
      [right|now left].
    exists 3, (lit "-->"). reflexivity.
Qed.

Lemma dots_after_thick (s : text) :
  contains (lit "....>") s = false ->
  contains (lit "....>") (replace (lit "===>") (lit "-->") s) = false.
Proof.
  unfold replace, re_sub. apply absent_sub_go; [discriminate| |].
  - intros t k r i y E Hi. apply thick_sub_replacement in E as [-> _].
    destruct i as [|[|[|i]]]; try reflexivity. simpl in Hi. lia.
  - intros t k r j y E Hj Hlen. apply thick_sub_replacement in E as [-> _].
    destruct j as [|[|[|[|[|j]]]]]; try reflexivity. simpl in Hlen. lia.
Qed.

(** What the output of the replacement of [===>] starts with: a
    replacement, or the character the input starts with. *)
Lemma thick_sub_head (y : char) (q s : text) :
  startswith (y :: q) (sub_go thick_sub 0 s) = true ->
  (startswith (lit "===>") s = true
   /\ startswith (y :: q) (lit "-->" ++ sub_go thick_sub 3 (tl s)) = true)
  \/ exists s', s = y :: s' /\ startswith q (sub_go thick_sub 0 s') = true.
Proof.
  destruct s as [|x s']; [discriminate|].
  rewrite sub_go_cons. cbv beta.
  destruct (startswith (lit "===>") (x :: s')) eqn:E.
  - intros H. left. split; [reflexivity|exact H].
  - rewrite startswith_cons. intros H. apply andb_true_iff in H as [Hx Hq].
    apply char_eqb_eq in Hx. subst x. right. now exists s'.
Qed.

(** The replacement of [===>] makes a run of four dashes before [>] only
    from [--===>]. *)
Lemma dashes_after_thick (s : text) :
  contains (lit "---->") s = false ->
  contains (lit "--===>") s = false ->
  contains (lit "---->") (replace (lit "===>") (lit "-->") s) = false.
Proof.
  intros Hd Hb. unfold replace, re_sub. apply starts_nowhere. intros i.
  apply (@nowhere_sub_go (lit "---->") thick_sub
           (fun t => contains (lit "---->") t = false
                     /\ contains (lit "--===>") t = false));
    [discriminate| | | |now split].
  - intros x t [H1 H2]. split; eapply contains_tail; eassumption.
  - intros t k r j y E Hj. apply thick_sub_replacement in E as [-> _].
    destruct j as [|[|[|j]]]; try reflexivity. simpl in Hj. lia.
  - intros x t [H1 H2] _.
    destruct (startswith (lit "---->") (x :: sub_go thick_sub 0 t)) eqn:E;
      [exfalso|reflexivity].
    change (lit "---->") with (DASH :: lit "--->") in E.
    rewrite startswith_cons in E. apply andb_true_iff in E as [Hx E].
    apply char_eqb_eq in Hx. subst x.
    change (lit "--->") with (DASH :: lit "-->") in E.
    apply thick_sub_head in E as [[_ E]|(t1 & -> & E)];
      [lazy in E; discriminate E|].
    change (lit "-->") with (DASH :: lit "->") in E.
    apply thick_sub_head in E as [[E _]|(t2 & -> & E)].
    { apply startswith_prefix in E as (rest & ->).
      assert (contains (lit "--===>") (DASH :: DASH :: lit "===>" ++ rest) = true)
        as Hin by (apply contains_at_start; apply (startswith_app (lit "--===>"))).
      congruence. }
    change (lit "->") with (DASH :: lit ">") in E.
    apply thick_sub_head in E as [[_ E]|(t3 & -> & E)];
      [lazy in E; discriminate E|].
    change (lit ">") with (GT :: []) in E.
    apply thick_sub_head in E as [[_ E]|(t4 & -> & _)];
      [lazy in E; discriminate E|].
    assert (contains (lit "---->") (DASH :: DASH :: DASH :: DASH :: GT :: t4) = true)
      as Hin by (apply contains_at_start; apply (startswith_app (lit "---->"))).
    congruence.
Qed.

(** ** Cutting a text at a character that no match crosses *)

Lemma run_le_length (p : char -> bool) (s : text) : run p s <= length s.
Proof.
  induction s as [|x s IH]; simpl; [lia|]. destruct (p x); simpl; lia.
Qed.

Lemma sub_go_cut (m : text -> option (nat * text)) (c : char) (b : text) :
  (forall u, m (u ++ c :: b) = m u) ->
  (forall u k r, m u = Some (k, r) -> k <= length u) ->
  forall a k, k <= length a ->
    sub_go m k (a ++ c :: b) = sub_go m k a ++ c :: sub_go m 0 b.
Proof.
  intros Hcut Hlen. induction a as [|x a IH]; intros k Hk.
  - assert (k = 0) as -> by (simpl in Hk; lia).
    change ([] ++ c :: b) with (c :: b). rewrite sub_go_cons.
    rewrite (Hcut [] : m (c :: b) = m []).
    destruct (m []) as [[[|n] r]|] eqn:E; try reflexivity.
    apply Hlen in E. simpl in E. lia.
  - change ((x :: a) ++ c :: b) with (x :: (a ++ c :: b)).
    rewrite !sub_go_cons. destruct k as [|k]; [|apply IH; simpl in Hk; lia].
    rewrite (Hcut (x :: a) : m (x :: a ++ c :: b) = m (x :: a)).
    destruct (m (x :: a)) as [[[|n] r]|] eqn:E.
    + rewrite IH by lia. reflexivity.
    + apply Hlen in E. simpl in E.
      rewrite IH by lia. now rewrite app_assoc.
    + rewrite IH by lia. reflexivity.
Qed.

Lemma run_gt_cut (c0 : char) (n : nat) (r : text) (c : char) (a b : text) :
  c <> c0 -> c <> GT ->
  re_sub (match_run_gt c0 n r) (a ++ c :: b)
  = re_sub (match_run_gt c0 n r) a ++ c :: re_sub (match_run_gt c0 n r) b.
Proof.
  intros Hc Hgt. unfold re_sub. apply sub_go_cut; [| |lia].
  - intros u. unfold match_run_gt.
    rewrite run_app_stop by (apply char_eqb_neq; congruence).
    pose proof (run_le_length (char_eqb c0) u) as Hle.
    rewrite skipn_app.
    replace (run (char_eqb c0) u - length u) with 0 by lia.
    change (skipn 0 (c :: b)) with (c :: b).
    destruct (skipn (run (char_eqb c0) u) u) as [|y w]; [|reflexivity].
    simpl. assert (char_eqb GT c = false) as ->
        by (apply char_eqb_neq; congruence).
    reflexivity.
  - intros u k r' E. pose proof E as E'.
    apply run_gt_replacement in E' as [_ ->].
    apply run_gt_consumed in E as (_ & rest & E).
    rewrite E at 2. rewrite length_app, repeat_length. simpl. lia.
Qed.

Lemma startswith_cut (q : text) (c : char) (u b : text) :
  ~ In c q -> startswith q (u ++ c :: b) = startswith q u.
Proof.
  intros Hc. destruct (startswith q u) eqn:E.
  - apply startswith_prefix in E as (rest & ->).
    rewrite <- app_assoc. apply startswith_app.
  - destruct (startswith q (u ++ c :: b)) eqn:E'; [|reflexivity].
    apply (@startswith_fits c q u b Hc) in E'. congruence.
Qed.

Lemma replace_cut (old new : text) (c : char) (a b : text) :
  ~ In c old ->
  replace old new (a ++ c :: b) = replace old new a ++ c :: replace old new b.
Proof.
  intros Hc. unfold replace, re_sub. apply sub_go_cut; [| |lia].
  - intros u. now rewrite startswith_cut.
  - intros u k r. destruct (startswith old u) eqn:E; [|discriminate].
    intros H. inversion H; subst.
    apply startswith_prefix in E as (rest & ->). rewrite length_app. lia.
Qed.

Lemma semis_cut (c : char) (a b : text) :
  c <> SEMI ->
  re_sub match_semis (a ++ c :: b)
  = re_sub match_semis a ++ c :: re_sub match_semis b.
Proof.
  intros Hc. unfold re_sub. apply sub_go_cut; [| |lia].
  - intros u. unfold match_semis.
    now rewrite run_app_stop by (apply char_eqb_neq; congruence).
  - intros u k r E. apply semis_replacement in E as (_ & -> & _).
    apply run_le_length.
Qed.

Local Abbreviation arrows line :=
  (replace (lit "===>") (lit "-->") (re_sub dots (re_sub dashes line))).

Lemma arrows_cut (a b : text) :
  arrows (a ++ LBRACKET :: b) = arrows a ++ LBRACKET :: arrows b.
Proof.
  rewrite (@run_gt_cut DASH 4 (lit "-->") LBRACKET a b) by discriminate.
  rewrite (@run_gt_cut DOT 4 (lit "-..->") LBRACKET) by discriminate.
  apply replace_cut. apply absent_char. reflexivity.
Qed.

(** ** Runs *)

Local Abbreviation stops p b :=
  (match b with [] => True | c :: _ => p c = false end).

Lemma run_seg (p : char -> bool) (a b : text) :
  Forall (fun x => p x = true) a -> stops p b -> run p (a ++ b) = length a.
Proof.
  intros Ha Hb. induction Ha as [|x a Hx _ IH]; simpl.
  - destruct b as [|c b]; simpl; [reflexivity|now rewrite Hb].
  - now rewrite Hx, IH.
Qed.

Lemma run_whole (p : char -> bool) (a : text) :
  Forall (fun x => p x = true) a -> run p a = length a.
Proof.
  intros Ha. rewrite <- (app_nil_r a) at 1. now apply run_seg.
Qed.

Lemma skipn_exact (A : Type) (a b : list A) : skipn (length a) (a ++ b) = b.
Proof. induction a as [|x a IH]; simpl; [reflexivity|exact IH]. Qed.

Lemma firstn_exact (A : Type) (a b : list A) : firstn (length a) (a ++ b) = a.
Proof. induction a as [|x a IH]; simpl; [reflexivity|now rewrite IH]. Qed.

Lemma run_prefix (p : char -> bool) (s : text) :
  Forall (fun x => p x = true) (firstn (run p s) s).
Proof.
  induction s as [|x s IH]; simpl; [constructor|].
  destruct (p x) eqn:E; simpl; [now constructor|constructor].
Qed.

Lemma run_positive (p : char -> bool) (s : text) :
  1 <= run p s -> firstn (run p s) s <> [].
Proof.
  destruct s as [|x s]; simpl; [lia|].
  destruct (p x); simpl; [discriminate|lia].
Qed.

Lemma run_firstn_length (p : char -> bool) (s : text) :
  length (firstn (run p s) s) = run p s.
Proof.
  rewrite length_firstn. pose proof (run_le_length p s). lia.
Qed.

Lemma run_cases (p : char -> bool) (t : text) :
  Forall (fun x => p x = true) t
  \/ exists a c b, t = a ++ c :: b
                   /\ Forall (fun x => p x = true) a /\ p c = false.
Proof.
  induction t as [|x t IH]; [left; constructor|].
  destruct (p x) eqn:E.
  - destruct IH as [IH|(a & c & b & -> & Ha & Hc)].
    + left. now constructor.
    + right. exists (x :: a), c, b. repeat split; [now constructor|exact Hc].
  - right. exists [], x, t. repeat split; [constructor|exact E].
Qed.

Lemma nonempty_length (A : Type) (a : list A) :
  a <> [] -> (1 <=? length a) = true.
Proof. destruct a; [congruence|reflexivity]. Qed.

Lemma spaces_forallb (l : text) :
  forallb isspace l = true <-> Forall (fun x => isspace x = true) l.
Proof. rewrite forallb_forall, Forall_forall. reflexivity. Qed.

Section PlainWords.

(** [str.isalnum] holds for no whitespace character and for none of the
    characters of the arrows, the semicolon and the backtick. *)
Hypothesis alnum_not_space : forall c, isspace c = true -> isalnum c = false.
Hypothesis alnum_not_punct :
  forall c, In c [DASH; DOT; EQUALS; GT; SEMI; BACKTICK] -> isalnum c = false.

Local Abbreviation ident := (match_ident_gap isword).
Local Abbreviation words w := (Forall (fun x => isword x = true) w).
Local Abbreviation spaces w := (Forall (fun x => isspace x = true) w).

Lemma space_not_word (c : char) : isspace c = true -> isword c = false.
Proof.
  intros H. unfold isword. rewrite (alnum_not_space _ H).
  destruct (char_eqb c UNDERSCORE) eqn:E; [|reflexivity].
  apply char_eqb_eq in E. subst c. discriminate H.
Qed.

Lemma word_not_space (c : char) : isword c = true -> isspace c = false.
Proof.
  intros H. destruct (isspace c) eqn:E; [|reflexivity].
  apply space_not_word in E. congruence.
Qed.

Lemma underscore_word : isword UNDERSCORE = true.
Proof. unfold isword. now rewrite char_eqb_refl, orb_true_r. Qed.

Lemma stops_spaces (s1 rest : text) :
  s1 <> [] -> spaces s1 -> stops isword (s1 ++ rest).
Proof.
  intros Hne Hs. destruct s1 as [|x s1]; [congruence|].
  inversion Hs; subst. now apply space_not_word.
Qed.

Lemma stops_words (w rest : text) :
  w <> [] -> words w -> stops isspace (w ++ rest).
Proof.
  intros Hne Hw. destruct w as [|x w]; [congruence|].
  inversion Hw; subst. now apply word_not_space.
Qed.

Lemma stops_trail (trail : text) : spaces trail -> stops isword trail.
Proof.
  intros Hs. destruct trail as [|x trail]; [exact I|].
  inversion Hs; subst. now apply space_not_word.
Qed.

(** ** The identifier pattern *)

Lemma ident_gap_cond (t : text) (k : nat) (r : text) :
  ident t = Some (k, r) ->
  1 <= run isword t
  /\ 1 <= run isspace (skipn (run isword t) t)
  /\ 1 <= run isword (skipn (run isspace (skipn (run isword t) t))
                            (skipn (run isword t) t))
  /\ forallb isspace
       (skipn (run isword (skipn (run isspace (skipn (run isword t) t))
                                 (skipn (run isword t) t)))
              (skipn (run isspace (skipn (run isword t) t))
                     (skipn (run isword t) t))) = true.
Proof.
  unfold match_ident_gap; cbv zeta.
  destruct (_ && _) eqn:C; [|discriminate]. intros _.
  apply andb_true_iff in C as [C H4]. apply andb_true_iff in C as [C H3].
  apply andb_true_iff in C as [H1 H2].
  apply Nat.leb_le in H1, H2, H3. now repeat split.
Qed.

(** A match is a word, whitespace, a word, and whitespace up to the end. *)
Lemma ident_gap_elim (t : text) (k : nat) (r : text) :
  ident t = Some (k, r) ->
  exists A G W trail,
    t = A ++ G ++ W ++ trail
    /\ A <> [] /\ words A /\ G <> [] /\ spaces G /\ W <> [] /\ words W
    /\ spaces trail
    /\ k = length A + length G + length W
    /\ r = A ++ [UNDERSCORE] ++ W.
Proof.
  intros E. pose proof (@ident_gap_cond t k r E) as (H1 & H2 & H3 & H4).
  revert E. unfold match_ident_gap; cbv zeta.
  set (k1 := run isword t) in *. set (t1 := skipn k1 t) in *.
  set (k2 := run isspace t1) in *. set (t2 := skipn k2 t1) in *.
  set (k3 := run isword t2) in *. set (t3 := skipn k3 t2) in *.
  destruct (_ && _); [|discriminate]. intros E. inversion E as [[Hk Hr]].
  exists (firstn k1 t), (firstn k2 t1), (firstn k3 t2), t3.
  split.
  { unfold t3. rewrite firstn_skipn. unfold t2. rewrite firstn_skipn.
    unfold t1. now rewrite firstn_skipn. }
  split; [now apply run_positive|]. split; [apply run_prefix|].
  split; [now apply run_positive|]. split; [apply run_prefix|].
  split; [now apply run_positive|]. split; [apply run_prefix|].
  split; [now apply spaces_forallb|].
  split; [|reflexivity].
  unfold k1, k2, k3. now rewrite !run_firstn_length.
Qed.

Lemma ident_gap_intro (A G W trail : text) :
  A <> [] -> words A -> G <> [] -> spaces G -> W <> [] -> words W ->
  spaces trail ->
  ident (A ++ G ++ W ++ trail)
  = Some (length A + length G + length W, A ++ [UNDERSCORE] ++ W).
Proof.
  intros HA HAw HS HSs HW HWw Ht.
  unfold match_ident_gap; cbv zeta.
  rewrite (@run_seg isword A (G ++ W ++ trail) HAw)
    by (now apply stops_spaces).
  rewrite skipn_exact, firstn_exact.
  rewrite (@run_seg isspace G (W ++ trail) HSs) by (now apply stops_words).
  rewrite skipn_exact.
  rewrite (@run_seg isword W trail HWw) by (now apply stops_trail).
  rewrite skipn_exact, firstn_exact.
  rewrite !nonempty_length by assumption.
  apply spaces_forallb in Ht. now rewrite Ht.
Qed.

(** The pattern does not match a word followed by whitespace. *)
Lemma quiet_words_spaces (A trail : text) :
  words A -> spaces trail -> quiet ident (A ++ trail).
Proof.
  intros HA Ht i. rewrite skipn_app.
  assert (words (skipn i A)) as HA' by (now apply Forall_skipn).
  assert (spaces (skipn (i - length A) trail)) as Ht'
      by (now apply Forall_skipn).
  revert HA' Ht'. generalize (skipn i A), (skipn (i - length A) trail).
  intros a b Ha Hb. unfold match_ident_gap; cbv zeta.
  rewrite (@run_seg isword a b Ha) by (now apply stops_trail).
  rewrite skipn_exact, (@run_whole isspace b Hb), skipn_all.
  simpl run. now rewrite andb_false_r.
Qed.

(** What the substitution does: nothing, or it joins the last two words of
    the text. *)
Lemma ident_sub_form (u : text) :
  quiet ident u
  \/ exists pre A G W trail,
       u = pre ++ A ++ G ++ W ++ trail
       /\ A <> [] /\ words A /\ G <> [] /\ spaces G /\ W <> [] /\ words W
       /\ spaces trail
       /\ sub_go ident 0 u = pre ++ (A ++ [UNDERSCORE] ++ W) ++ trail.
Proof.
  induction u as [|x u IH].
  - left. intros i. rewrite skipn_nil. reflexivity.
  - destruct (ident (x :: u)) as [[k r]|] eqn:E.
    + right. pose proof (@ident_gap_elim (x :: u) k r E)
        as (A & G & W & trail & Eu & HA & HAw & HS & HSs & HW & HWw & Ht & -> & ->).
      exists [], A, G, W, trail. repeat split; try assumption.
      rewrite sub_go_cons, E.
      destruct (length A + length G + length W) as [|n] eqn:En.
      { destruct A; [congruence|simpl in En; lia]. }
      cbn [app]. f_equal.
      rewrite sub_go_skip.
      assert (skipn n u = trail) as ->.
      { change (skipn n u) with (skipn (S n) (x :: u)).
        rewrite Eu, <- En, !app_assoc, <- !length_app.
        rewrite <- !app_assoc. rewrite !app_assoc. apply skipn_exact. }
      apply sub_quiet. apply (@quiet_words_spaces [] trail); [constructor|exact Ht].
    + destruct IH as [IH|(pre & A & G & W & trail & -> & HA & HAw & HS & HSs
                          & HW & HWw & Ht & Hout)].
      * left. intros [|i]; [exact E|apply IH].
      * right. exists (x :: pre), A, G, W, trail.
        repeat split; try assumption.
        rewrite sub_go_cons, E. cbn [app]. now rewrite Hout.
Qed.

Lemma crowded_at (u : text) :
  forall j, three_words isword (skipn j u) = true -> crowded isword u = true.
Proof.
  induction u as [|x u IH]; intros j H.
  - rewrite skipn_nil in H. discriminate H.
  - destruct j as [|j].
    + change (skipn 0 (x :: u)) with (x :: u) in H.
      cbn [crowded]. now rewrite H.
    + cbn [crowded]. rewrite (IH j H). apply orb_true_r.
Qed.

Lemma crowded_elim (u : text) :
  crowded isword u = true -> exists j, three_words isword (skipn j u) = true.
Proof.
  induction u as [|x u IH]; intros H; [discriminate|].
  cbn [crowded] in H. apply orb_true_iff in H as [H|H].
  - now exists 0.
  - destruct (IH H) as [j Hj]. now exists (S j).
Qed.

(** A word, whitespace and perhaps the start of a word, before a match. *)
Lemma three_words_intro (a s1 D A G W trail : text) :
  a <> [] -> words a -> s1 <> [] -> spaces s1 -> words D ->
  A <> [] -> words A -> G <> [] -> spaces G -> W <> [] -> words W ->
  spaces trail ->
  three_words isword ((a ++ s1 ++ D) ++ A ++ G ++ W ++ trail) = true.
Proof.
  intros Ha Haw Hs1 Hs1s HD HA HAw HS HSs HW HWw Ht.
  replace ((a ++ s1 ++ D) ++ A ++ G ++ W ++ trail)
    with (a ++ s1 ++ (D ++ A) ++ G ++ W ++ trail)
    by (now rewrite <- !app_assoc).
  assert (D ++ A <> []) as HDA by (destruct D; [exact HA|discriminate]).
  assert (words (D ++ A)) as HDAw by (apply Forall_app; now split).
  unfold three_words; cbv zeta.
  rewrite (@run_seg isword a (s1 ++ (D ++ A) ++ G ++ W ++ trail) Haw)
    by (now apply stops_spaces).
  rewrite skipn_exact.
  rewrite (@run_seg isspace s1 ((D ++ A) ++ G ++ W ++ trail) Hs1s)
    by (now apply stops_words).
  rewrite skipn_exact, ident_gap_intro by assumption.
  now rewrite !nonempty_length by assumption.
Qed.

(** A match that starts before a word followed by whitespace. *)
Lemma ident_gap_before (q V trail : text) (k : nat) (r : text) :
  V <> [] -> words V -> spaces trail ->
  ident (q ++ V ++ trail) = Some (k, r) ->
  exists a s1 D,
    q = a ++ s1 ++ D
    /\ a <> [] /\ words a /\ s1 <> [] /\ spaces s1 /\ words D.
Proof.
  intros HV HVw Ht E.
  destruct (run_cases isword q) as [Hq|(a & c & b & -> & Ha & Hc)].
  { exfalso. rewrite app_assoc in E.
    assert (words (q ++ V)) as Hw by (apply Forall_app; now split).
    pose proof (@quiet_words_spaces (q ++ V) trail Hw Ht 0) as Hnone.
    change (skipn 0 ((q ++ V) ++ trail)) with ((q ++ V) ++ trail) in Hnone.
    congruence. }
  rewrite <- app_assoc in E.
  apply ident_gap_cond in E as (H1 & H2 & H3 & H4).
  rewrite (@run_seg isword a ((c :: b) ++ V ++ trail) Ha Hc) in H1, H2, H3, H4.
  rewrite skipn_exact in H2, H3, H4.
  assert (a <> []) as Hane by (destruct a; [simpl in H1; lia|discriminate]).
  destruct (run_cases isspace (c :: b)) as [Hs|(s1 & d & b' & Eb & Hs1 & Hd)].
  { exists a, (c :: b), []. rewrite app_nil_r.
    repeat split; try assumption; [discriminate|constructor]. }
  rewrite Eb in H2, H3, H4. rewrite <- app_assoc in H2, H3, H4.
  rewrite (@run_seg isspace s1 ((d :: b') ++ V ++ trail) Hs1 Hd) in H2, H3, H4.
  rewrite skipn_exact in H3, H4.
  assert (s1 <> []) as Hs1ne by (destruct s1; [simpl in H2; lia|discriminate]).
  destruct (run_cases isword (d :: b')) as [Hw|(w1 & f & b'' & Eb' & Hw1 & Hf)].
  { exists a, s1, (d :: b'). rewrite Eb. now repeat split. }
  exfalso. rewrite Eb' in H4. rewrite <- app_assoc in H4.
  rewrite (@run_seg isword w1 ((f :: b'') ++ V ++ trail) Hw1 Hf) in H4.
  rewrite skipn_exact in H4.
  destruct V as [|v V']; [congruence|]. inversion HVw as [|? ? Hv _]; subst.
  rewrite forallb_forall in H4.
  assert (isspace v = true) as Hsp.
  { apply H4. apply in_or_app. right. now left. }
  apply word_not_space in Hv. congruence.
Qed.

(** After the substitution the pattern matches only in a text that ends
    with three words. *)
Lemma ident_again (u : text) :
  crowded isword u = false -> quiet ident (re_sub ident u).
Proof.
  intros Hc. unfold re_sub.
  destruct (ident_sub_form u)
    as [Hq|(pre & A & G & W & trail & Eu & HA & HAw & HS & HSs & HW & HWw
            & Ht & Hout)].
  { now rewrite sub_quiet. }
  rewrite Hout. intros j.
  assert (A ++ [UNDERSCORE] ++ W <> []) as HV by (destruct A; [congruence|discriminate]).
  assert (words (A ++ [UNDERSCORE] ++ W)) as HVw.
  { apply Forall_app. split; [exact HAw|].
    constructor; [apply underscore_word|exact HWw]. }
  destruct (Nat.lt_ge_cases j (length pre)) as [Hj|Hj].
  - rewrite skipn_app. replace (j - length pre) with 0 by lia.
    change (skipn 0 ((A ++ [UNDERSCORE] ++ W) ++ trail))
      with ((A ++ [UNDERSCORE] ++ W) ++ trail).
    destruct (ident (skipn j pre ++ (A ++ [UNDERSCORE] ++ W) ++ trail))
      as [[k r]|] eqn:E; [exfalso|reflexivity].
    destruct (@ident_gap_before (skipn j pre) (A ++ [UNDERSCORE] ++ W) trail k r HV HVw Ht E)
      as (a & s1 & D & Eq & Ha & Haw & Hs1 & Hs1s & HD).
    assert (crowded isword u = true) as Hyes; [|congruence].
    apply (@crowded_at u j). rewrite Eu, skipn_app.
    replace (j - length pre) with 0 by lia.
    change (skipn 0 (A ++ G ++ W ++ trail)) with (A ++ G ++ W ++ trail).
    rewrite Eq. now apply three_words_intro.
  - rewrite skipn_app, skipn_all2 by exact Hj. cbn [app].
    now apply quiet_words_spaces.
Qed.

(** ** Substitutions of punctuation *)

Local Abbreviation good c := (isword c || isspace c).

Lemma punct_not_good (c : char) :
  In c [DASH; DOT; EQUALS; GT; SEMI; BACKTICK] -> good c = false.
Proof.
  intros H. unfold isword. rewrite (@alnum_not_punct c H).
  destruct H as [<-|[<-|[<-|[<-|[<-|[<-|[]]]]]]]; reflexivity.
Qed.

Lemma words_good (w : text) :
  words w -> Forall (fun c => good c = true) w.
Proof. apply Forall_impl. intros c H. now rewrite H. Qed.

Lemma spaces_good (w : text) :
  spaces w -> Forall (fun c => good c = true) w.
Proof. apply Forall_impl. intros c H. rewrite H. apply orb_true_r. Qed.

Lemma ident_good (t : text) (k : nat) (r : text) :
  ident t = Some (k, r) -> Forall (fun c => good c = true) t.
Proof.
  intros E. apply ident_gap_elim in E
    as (A & G & W & trail & -> & _ & HA & _ & HG & _ & HW & Ht & _).
  repeat (apply Forall_app; split);
    auto using words_good, spaces_good.
Qed.

Lemma three_words_good (t : text) :
  three_words isword t = true -> Forall (fun c => good c = true) t.
Proof.
  unfold three_words; cbv zeta. intros H.
  apply andb_true_iff in H as [_ H].
  destruct (ident _) as [[k r]|] eqn:E; [clear H|discriminate].
  apply ident_good in E.
  rewrite <- (firstn_skipn (run isword t) t).
  apply Forall_app. split; [apply words_good, run_prefix|].
  rewrite <- (firstn_skipn (run isspace (skipn (run isword t) t))
                           (skipn (run isword t) t)).
  apply Forall_app. split; [apply spaces_good, run_prefix|exact E].
Qed.

Section Punctuation.

(** A substitution whose replacements are made of characters that are
    neither word characters nor whitespace. *)
Variable m : text -> option (nat * text).
Hypothesis plain :
  forall t n r, m t = Some (S n, r) ->
                r <> [] /\ Forall (fun c => good c = false) r.

Lemma sub_go_good_same (u : text) :
  Forall (fun c => good c = true) (sub_go m 0 u) -> sub_go m 0 u = u.
Proof.
  induction u as [|x u IH]; [reflexivity|]. rewrite sub_go_cons.
  destruct (m (x :: u)) as [[[|n] r]|] eqn:E;
    try (intros H; inversion H; subst; f_equal; now apply IH).
  destruct (plain E) as [Hne Hr]. intros H. exfalso.
  destruct r as [|y r]; [congruence|].
  inversion Hr; subst. inversion H; subst. congruence.
Qed.

(** A suffix of the output made of word characters and whitespace is a
    suffix of the input. *)
Lemma good_suffix (u : text) :
  forall k j,
    Forall (fun c => good c = true) (skipn j (sub_go m k u)) ->
    exists i, skipn i u = skipn j (sub_go m k u).
Proof.
  induction u as [|x u IH]; intros k j H.
  - exists 0. simpl. now rewrite skipn_nil.
  - rewrite sub_go_cons in *. destruct k as [|k].
    + assert (Forall (fun c => good c = true) (skipn j (x :: sub_go m 0 u)) ->
              exists i, skipn i (x :: u) = skipn j (x :: sub_go m 0 u)) as Hkept.
      { clear H. intros H. destruct j as [|j].
        - exists 0. change (skipn 0 (x :: sub_go m 0 u)) with (x :: sub_go m 0 u) in *.
          simpl. f_equal. symmetry. apply sub_go_good_same. now inversion H.
        - destruct (IH 0 j H) as [i Hi]. now exists (S i). }
      destruct (m (x :: u)) as [[[|n] r]|] eqn:E; try (now apply Hkept).
      destruct (plain E) as [Hne Hr].
      destruct (Nat.lt_ge_cases j (length r)) as [Hj|Hj].
      * exfalso. rewrite skipn_app in H. apply Forall_app in H as [H _].
        pose proof (Forall_skipn j Hr) as Hr'.
        destruct (skipn j r) as [|y r'] eqn:Er.
        { apply (f_equal (@length char)) in Er. rewrite length_skipn in Er.
          simpl in Er. lia. }
        inversion H; subst. inversion Hr'; subst. congruence.
      * rewrite skipn_app, skipn_all2 in H |- * by exact Hj. cbn [app] in *.
        destruct (IH n (j - length r) H) as [i Hi]. now exists (S i).
    + destruct (IH k j H) as [i Hi]. now exists (S i).
Qed.

Lemma crowded_sub (u : text) :
  crowded isword (sub_go m 0 u) = true -> crowded isword u = true.
Proof.
  intros H. apply crowded_elim in H as [j Hj].
  destruct (@good_suffix u 0 j (three_words_good _ Hj)) as [i Hi].
  apply (@crowded_at u i). now rewrite Hi.
Qed.

Lemma quiet_ident_sub (u : text) :
  quiet ident u -> quiet ident (sub_go m 0 u).
Proof.
  intros Hq j.
  destruct (ident (skipn j (sub_go m 0 u))) as [[k r]|] eqn:E; [exfalso|reflexivity].
  destruct (@good_suffix u 0 j (ident_good _ E)) as [i Hi].
  rewrite <- Hi, Hq in E. discriminate.
Qed.

End Punctuation.

Lemma dashes_plain (c : char) (n : nat) (r : text) :
  r <> [] -> Forall (fun c => good c = false) r ->
  forall t k r', match_run_gt c n r t = Some (S k, r') ->
                 r' <> [] /\ Forall (fun c => good c = false) r'.
Proof.
  intros Hne Hr t k r' E. apply run_gt_replacement in E as [-> _]. now split.
Qed.

Lemma thick_plain (t : text) (k : nat) (r : text) :
  thick_sub t = Some (S k, r) ->
  r <> [] /\ Forall (fun c => good c = false) r.
Proof.
  intros E. apply thick_sub_replacement in E as [-> _].
  split; [discriminate|].
  repeat constructor; apply punct_not_good; simpl; auto 10.
Qed.

Lemma semis_plain (t : text) (k : nat) (r : text) :
  match_semis t = Some (S k, r) ->
  r <> [] /\ Forall (fun c => good c = false) r.
Proof.
  intros E. apply semis_replacement in E as (-> & _).
  split; [discriminate|].
  repeat constructor; apply punct_not_good; simpl; auto 10.
Qed.

Lemma arrow_not_good :
  Forall (fun c => good c = false) (lit "-->")
  /\ Forall (fun c => good c = false) (lit "-..->").
Proof.
  split; repeat constructor; apply punct_not_good; simpl; auto 10.
Qed.

(** The arrow repairs put no three words together. *)
Lemma crowded_arrows (a : text) :
  crowded isword (arrows a) = true -> crowded isword a = true.
Proof.
  intros H. destruct arrow_not_good as [Hd Ht].
  unfold replace, re_sub in H.
  apply (@crowded_sub thick_sub thick_plain) in H.
  apply (@crowded_sub dots (@dashes_plain DOT 4 (lit "-..->") ltac:(discriminate) Ht)) in H.
  now apply (@crowded_sub dashes (@dashes_plain DASH 4 (lit "-->") ltac:(discriminate) Hd)) in H.
Qed.

(** ** One line *)

Lemma contains_cut (p a b : text) (c : char) :
  ~ In c p -> contains p (a ++ c :: b) = contains p a || contains p b.
Proof.
  intros Hc. induction a as [|x a IH].
  - change (contains p ([] ++ c :: b))
      with (startswith p ([] ++ c :: b) || contains p b).
    rewrite startswith_cut by exact Hc. simpl contains.
    now rewrite orb_false_r.
  - change (contains p ((x :: a) ++ c :: b))
      with (startswith p ((x :: a) ++ c :: b) || contains p (a ++ c :: b)).
    rewrite startswith_cut by exact Hc. rewrite IH.
    change (contains p (x :: a)) with (startswith p (x :: a) || contains p a).
    apply orb_assoc.
Qed.

Lemma contains_char (c : char) (t : text) : In c t -> contains [c] t = true.
Proof.
  induction t as [|x t IH]; intros H; [destruct H|].
  change (contains [c] (x :: t))
    with (startswith [c] (x :: t) || contains [c] t).
  destruct H as [->|H]; [simpl; now rewrite char_eqb_refl|].
  rewrite IH by exact H. apply orb_true_r.
Qed.

Lemma split1_cut (c : char) (a b : text) :
  ~ In c a -> split1 c (a ++ c :: b) = [a; b].
Proof.
  induction a as [|x a IH]; intros H; simpl.
  - now rewrite char_eqb_refl.
  - assert (char_eqb x c = false) as ->
        by (apply char_eqb_neq; intros ->; apply H; now left).
    rewrite IH; [reflexivity|]. intros Hin. apply H. now right.
Qed.

Lemma fix_node_id_no_bracket (t : text) :
  ~ In LBRACKET t -> fix_node_id t = t.
Proof.
  intros H. unfold fix_node_id. rewrite split1_absent by exact H.
  now destruct (_ || _).
Qed.

Lemma fix_node_id_cut (a b : text) :
  ~ In LBRACKET a ->
  fix_node_id (a ++ LBRACKET :: b) = re_sub ident a ++ LBRACKET :: b.
Proof.
  intros H. unfold fix_node_id.
  rewrite contains_char by (apply in_or_app; right; now left).
  rewrite split1_cut by exact H. reflexivity.
Qed.

Lemma arrows_no_bracket (t : text) :
  ~ In LBRACKET t -> ~ In LBRACKET (arrows t).
Proof.
  rewrite !absent_Forall. intros H.
  apply Forall_replace; [repeat constructor; discriminate|].
  apply Forall_run_gt; [repeat constructor; discriminate|].
  apply Forall_run_gt; [repeat constructor; discriminate|exact H].
Qed.

Lemma semis_no_bracket (t : text) :
  ~ In LBRACKET t -> ~ In LBRACKET (re_sub match_semis t).
Proof.
  rewrite !absent_Forall. intros H.
  apply Forall_semis; [discriminate|exact H].
Qed.

Lemma ident_no_bracket (t : text) :
  ~ In LBRACKET t -> ~ In LBRACKET (re_sub ident t).
Proof.
  rewrite !absent_Forall. intros H.
  apply Forall_ident_gap; [discriminate|exact H].
Qed.

Lemma dots_absent_arrows (t : text) :
  contains (lit "....>") (arrows t) = false.
Proof.
  apply dots_after_thick.
  apply (@absent_run_quiet DOT 4 (lit "-..->")); [discriminate|apply quiet_dots].
Qed.

(** After the arrow repairs no long arrow is left, when [===>] did not
    follow two dashes. *)
Lemma arrows_absent (t : text) :
  contains (lit "--===>") t = false ->
  contains (lit "---->") (arrows t) = false
  /\ contains (lit "....>") (arrows t) = false
  /\ contains (lit "===>") (arrows t) = false.
Proof.
  intros H. split; [|split; [apply dots_absent_arrows|apply thick_after_thick]].
  apply dashes_after_thick.
  - apply dashes_after_dots.
    apply (@absent_run_quiet DASH 4 (lit "-->")); [discriminate|apply quiet_dashes].
  - apply bad_after_dots, bad_after_dashes, H.
Qed.

Lemma fix_line_body (l : text) :
  is_blank_or_comment (strip l) = false ->
  is_subgraph_or_end (strip l) = false ->
  fix_line l = re_sub match_semis (fix_node_id (arrows (strip l))).
Proof.
  intros E1 E2. unfold fix_line; cbv zeta. rewrite E1, E2.
  now rewrite (@replace_absent (lit "....>") (lit "-..->") (arrows (strip l))
                 (dots_absent_arrows (strip l))).
Qed.

Lemma punct_not_word (c : char) :
  In c [DASH; DOT; EQUALS; GT; SEMI; BACKTICK] -> isword c = false.
Proof.
  intros H. apply punct_not_good in H. now apply orb_false_iff in H.
Qed.

Lemma ident_foreign (p : text) :
  Forall (fun z => isword z = false) p ->
  forall t k r, ident t = Some (S k, r) ->
                r <> [] /\ Forall (fun z => ~ In z p) r.
Proof.
  intros Hp t k r E.
  apply ident_gap_elim in E
    as (A & G & W & trail & _ & HA & HAw & _ & _ & _ & HWw & _ & _ & ->).
  split; [destruct A; [congruence|discriminate]|].
  assert (forall z, isword z = true -> ~ In z p) as Hz.
  { intros z Hz Hin. rewrite Forall_forall in Hp.
    rewrite (Hp _ Hin) in Hz. discriminate. }
  apply Forall_app; split; [now apply (Forall_impl _ Hz)|].
  constructor; [apply Hz, underscore_word|now apply (Forall_impl _ Hz)].
Qed.

Lemma node_id_absent (p t : text) :
  p <> [] -> ~ In LBRACKET p -> Forall (fun z => isword z = false) p ->
  contains p t = false -> contains p (fix_node_id t) = false.
Proof.
  intros Hne Hb Hp H. pose proof (split1_parts LBRACKET t) as Hs.
  destruct (split1 LBRACKET t) as [|a [|b more]] eqn:E; [contradiction| |].
  - destruct Hs as [_ Hno]. now rewrite fix_node_id_no_bracket.
  - destruct more; [|contradiction]. destruct Hs as [-> Hno].
    rewrite fix_node_id_cut by exact Hno.
    rewrite contains_cut in H |- * by exact Hb.
    apply orb_false_iff in H as [Ha Hb']. rewrite Hb', orb_false_r.
    unfold re_sub.
    apply absent_sub_go_foreign; [exact Hne|now apply ident_foreign|exact Ha].
Qed.

Lemma semis_absent (p t : text) :
  p <> [] -> ~ In SEMI p ->
  contains p t = false -> contains p (re_sub match_semis t) = false.
Proof.
  intros Hne Hs H. unfold re_sub.
  apply absent_sub_go_foreign; [exact Hne| |exact H].
  intros u k r E. apply semis_replacement in E as (-> & _).
  split; [discriminate|]. repeat constructor. exact Hs.
Qed.

(** A trimmed line without long arrows, on which the identifier repair and
    the collapse of semicolons do nothing, is left alone. *)
Lemma fix_line_fixed (o : text) :
  trimmed o ->
  contains (lit "---->") o = false ->
  contains (lit "....>") o = false ->
  contains (lit "===>") o = false ->
  fix_node_id o = o -> re_sub match_semis o = o -> fix_line o = o.
Proof.
  intros Ht H1 H2 H3 H4 H5. unfold fix_line; cbv zeta.
  rewrite strip_trimmed by exact Ht.
  destruct (is_blank_or_comment o); [reflexivity|].
  destruct (is_subgraph_or_end o); [reflexivity|].
  assert (re_sub dashes o = o) as ->
      by (unfold re_sub; apply sub_quiet, quiet_run_absent, H1).
  assert (re_sub dots o = o) as ->
      by (unfold re_sub; apply sub_quiet, quiet_run_absent, H2).
  rewrite (@replace_absent (lit "===>") (lit "-->") o H3).
  rewrite (@replace_absent (lit "....>") (lit "-..->") o H2).
  rewrite H4. exact H5.
Qed.

(** The repair of a settled line is left alone by the repair. *)
Lemma fix_line_settled (l : text) :
  settled l = true -> fix_line (fix_line l) = fix_line l.
Proof.
  unfold settled; cbv zeta. intros H.
  destruct (is_blank_or_comment (strip l)) eqn:E1.
  { assert (fix_line l = strip l) as ->
        by (unfold fix_line; cbv zeta; now rewrite E1).
    unfold fix_line; cbv zeta. now rewrite strip_idempotent, E1. }
  destruct (is_subgraph_or_end (strip l)) eqn:E2.
  { assert (fix_line l = strip l) as ->
        by (unfold fix_line; cbv zeta; now rewrite E1, E2).
    unfold fix_line; cbv zeta. now rewrite strip_idempotent, E1, E2. }
  cbn [orb] in H. apply andb_true_iff in H as [Hbad Hcr].
  apply negb_true_iff in Hbad, Hcr.
  pose proof (fix_line_trimmed l) as Ht.
  rewrite (fix_line_body _ E1 E2) in Ht |- *.
  destruct (arrows_absent _ Hbad) as (A1 & A2 & A3).
  assert (forall c, In c [DASH; DOT; EQUALS; GT; SEMI; BACKTICK] ->
                    isword c = false) as Hw by apply punct_not_word.
  apply fix_line_fixed.
  - exact Ht.
  - apply semis_absent; [discriminate|apply absent_char; reflexivity|].
    apply node_id_absent;
      [discriminate|apply absent_char; reflexivity| |exact A1].
    repeat constructor; apply Hw; simpl; auto 10.
  - apply semis_absent; [discriminate|apply absent_char; reflexivity|].
    apply node_id_absent;
      [discriminate|apply absent_char; reflexivity| |exact A2].
    repeat constructor; apply Hw; simpl; auto 10.
  - apply semis_absent; [discriminate|apply absent_char; reflexivity|].
    apply node_id_absent;
      [discriminate|apply absent_char; reflexivity| |exact A3].
    repeat constructor; apply Hw; simpl; auto 10.
  - pose proof (split1_parts LBRACKET (strip l)) as Hs.
    destruct (split1 LBRACKET (strip l)) as [|a [|b more]] eqn:Es;
      [contradiction| |].
    + destruct Hs as [_ Hno].
      rewrite (fix_node_id_no_bracket (arrows (strip l)))
        by (now apply arrows_no_bracket).
      apply fix_node_id_no_bracket, semis_no_bracket.
      now apply arrows_no_bracket.
    + destruct more; [|contradiction]. destruct Hs as [El Hno].
      assert (contains [LBRACKET] (strip l) = true) as Hin.
      { apply contains_char. rewrite El. apply in_or_app. right. now left. }
      rewrite Hin in Hcr. cbn [andb hd] in Hcr.
      rewrite El, arrows_cut.
      rewrite fix_node_id_cut by (now apply arrows_no_bracket).
      rewrite semis_cut by discriminate.
      rewrite fix_node_id_cut
        by (now apply semis_no_bracket, ident_no_bracket, arrows_no_bracket).
      f_equal. unfold re_sub at 1. apply sub_quiet.
      apply (@quiet_ident_sub match_semis semis_plain).
      apply ident_again.
      destruct (crowded isword (arrows a)) eqn:Ec; [|reflexivity].
      apply crowded_arrows in Ec. congruence.
  - apply semis_idempotent.
Qed.

(** ** The whole text *)

Lemma unfenced_run (t : text) :
  startswith FENCE t = false <-> run tick t <= 2.
Proof.
  split; intros H.
  - destruct (Nat.le_gt_cases (run tick t) 2) as [Hle|Hgt]; [exact Hle|].
    exfalso. pose proof (firstn_run BACKTICK t) as Hrun.
    rewrite <- (firstn_skipn (run tick t) t), Hrun in H.
    destruct (run tick t) as [|[|[|n]]]; try lia.
    simpl in H. discriminate.
  - destruct (startswith FENCE t) eqn:E; [exfalso|reflexivity].
    apply startswith_prefix in E as (rest & ->). simpl in H. lia.
Qed.

Lemma strip_run_ticks (l : text) :
  starts_clean l = true -> run tick (strip l) <= run tick l.
Proof.
  intros H. unfold strip. rewrite lstrip_clean by exact H.
  destruct (rstrip_prefix l) as [w Hw]. rewrite Hw at 2. apply run_app_le.
Qed.

Lemma fix_node_id_run_ticks (t : text) :
  run tick (fix_node_id t) <= run tick t.
Proof.
  pose proof (split1_parts LBRACKET t) as Hs.
  destruct (split1 LBRACKET t) as [|a [|b more]] eqn:E; [contradiction| |].
  - destruct Hs as [_ Hno]. now rewrite fix_node_id_no_bracket.
  - destruct more; [|contradiction]. destruct Hs as [-> Hno].
    rewrite fix_node_id_cut by exact Hno.
    rewrite !run_app_stop by reflexivity.
    unfold re_sub. apply sub_go_run_ticks. intros u k r Hm.
    apply ident_gap_no_backtick in Hm; [exact Hm|].
    apply alnum_not_punct. simpl. auto 10.
Qed.

(** A repaired line starts with no more backticks than the trimmed line. *)
Lemma fix_line_run_ticks (l : text) :
  run tick (fix_line l) <= run tick (strip l).
Proof.
  unfold fix_line; cbv zeta.
  destruct (is_blank_or_comment _); [lia|].
  destruct (is_subgraph_or_end _); [lia|].
  assert (forall (c : char) (n : nat) (r : text) (t : text),
             r <> [] -> ~ In BACKTICK r ->
             run tick (re_sub (match_run_gt c n r) t) <= run tick t) as Hrun.
  { intros c n r t Hne Hr. unfold re_sub. apply sub_go_run_ticks.
    intros u k r' E. apply run_gt_replacement in E as (-> & _). now split. }
  assert (forall (old new t : text),
             new <> [] -> ~ In BACKTICK new ->
             run tick (replace old new t) <= run tick t) as Hrep.
  { intros old new t Hne Hr. unfold replace, re_sub. apply sub_go_run_ticks.
    intros u k r' E. destruct (startswith old u); [|discriminate].
    inversion E; subst. now split. }
  assert (forall t, run tick (re_sub match_semis t) <= run tick t) as Hsemis.
  { intros t. unfold re_sub. apply sub_go_run_ticks.
    intros u k r E. apply semis_replacement in E as (-> & _).
    split; [discriminate|apply absent_char; reflexivity]. }
  set (l1 := re_sub dashes (strip l)).
  set (l2 := re_sub dots l1).
  set (l3 := replace (lit "===>") (lit "-->") l2).
  set (l4 := replace (lit "....>") (lit "-..->") l3).
  pose proof (Hrun DASH 4 (lit "-->") (strip l)
                ltac:(discriminate) ltac:(apply absent_char; reflexivity)).
  pose proof (Hrun DOT 4 (lit "-..->") l1
                ltac:(discriminate) ltac:(apply absent_char; reflexivity)).
  pose proof (Hrep (lit "===>") (lit "-->") l2
                ltac:(discriminate) ltac:(apply absent_char; reflexivity)).
  pose proof (Hrep (lit "....>") (lit "-..->") l3
                ltac:(discriminate) ltac:(apply absent_char; reflexivity)).
  pose proof (fix_node_id_run_ticks l4).
  pose proof (Hsemis (fix_node_id l4)).
  fold l1 in H. fold l2 in H0. fold l3 in H1. fold l4 in H2. lia.
Qed.

(** The text whose lines are repaired begins with no code fence. *)
Lemma prepared_unfenced (s : text) :
  startswith FENCE (strip_fences (strip s)) = false.
Proof.
  destruct (startswith FENCE (strip s)) eqn:E.
  - assert (calm (strip_fences (strip s))) as Hc
        by (apply calm_strip_fences; now left).
    apply calm_no_fence in Hc.
    exact (nowhere_contains _ _ Hc 0).
  - now rewrite strip_fences_unfenced.
Qed.

Lemma output_trimmed (s : text) : trimmed (fix_mermaid_syntax s).
Proof.
  unfold fix_mermaid_syntax; cbv zeta.
  apply join_fix_lines_trimmed, strip_fences_trimmed.
Qed.

(** Neither does the repaired text. *)
Lemma output_unfenced (s : text) :
  startswith FENCE (fix_mermaid_syntax s) = false.
Proof.
  apply unfenced_run. unfold fix_mermaid_syntax; cbv zeta.
  pose proof (prepared_unfenced s) as Hp. apply unfenced_run in Hp.
  pose proof (strip_fences_trimmed s) as [Hstart _].
  destruct (split_on_first NL (strip_fences (strip s))) as [w Hw].
  pose proof (split_on_nonempty NL (strip_fences (strip s))) as Hne.
  destruct (split_on NL (strip_fences (strip s))) as [|l0 ls]; [congruence|].
  cbn [hd] in Hw. rewrite Hw in Hp, Hstart.
  assert (run tick (fix_line l0) <= 2) as Hfirst.
  { pose proof (fix_line_run_ticks l0) as H1.
    assert (starts_clean l0 = true) as Hc
        by (destruct l0; [reflexivity|exact Hstart]).
    pose proof (strip_run_ticks _ Hc) as H2.
    pose proof (run_app_le tick l0 w) as H3. lia. }
  destruct ls as [|l1 ls]; [exact Hfirst|].
  change (join [NL] (map fix_line (l0 :: l1 :: ls)))
    with (fix_line l0 ++ NL :: join [NL] (map fix_line (l1 :: ls))).
  now rewrite run_app_stop by reflexivity.
Qed.

(** C2, as the code has it.  Repairing a repaired text changes nothing, on
    every text in which each line to repair is settled: once the text is
    trimmed and its code fences are removed, each line is blank, a comment,
    a [subgraph] or [end] line, or else it has no [--===>] and, when it has
    a [[], it does not have three words separated by whitespace just before
    the first [[].  ([str.isalnum] holds for no whitespace character and
    for none of the characters of the arrows, the semicolon and the
    backtick.) *)
Theorem fix_mermaid_syntax_idempotent_settled (s : text) :
  Forall (fun l => settled l = true)
         (split_on NL (strip_fences (strip s))) ->
  fix_mermaid_syntax (fix_mermaid_syntax s) = fix_mermaid_syntax s.
Proof.
  intros H. unfold fix_mermaid_syntax at 1; cbv zeta.
  rewrite (strip_trimmed (output_trimmed s)).
  rewrite strip_fences_unfenced by apply output_unfenced.
  rewrite fix_mermaid_syntax_lines, map_map.
  unfold fix_mermaid_syntax; cbv zeta. f_equal.
  apply map_ext_in. intros l Hl. apply fix_line_settled.
  rewrite Forall_forall in H. now apply H.
Qed.

(* ================================================================== *)
(** * Lines that are not settled                                        *)
(* ================================================================== *)

(** ** A repaired line is exempt only if the line is *)

Section HeadedReplacements.

(** A substitution whose replacements begin with one of a few characters. *)
Variable m : text -> option (nat * text).
Variable heads : list char.
Hypothesis headed :
  forall t n r, m t = Some (S n, r) -> exists y r', r = y :: r' /\ In y heads.

Lemma sub_go_prefix (u : text) :
  forall q, Forall (fun z => ~ In z heads) q ->
            startswith q (sub_go m 0 u) = true -> startswith q u = true.
Proof.
  induction u as [|x u IH]; intros q Hq H; [exact H|].
  destruct q as [|y q]; [reflexivity|]. inversion Hq as [|? ? Hy Hq']; subst.
  rewrite sub_go_cons in H.
  assert (startswith (y :: q) (x :: sub_go m 0 u) = true ->
          startswith (y :: q) (x :: u) = true) as Hkept.
  { simpl. intros H'. apply andb_true_iff in H' as [H1 H2]. rewrite H1.
    simpl. now apply IH. }
  destruct (m (x :: u)) as [[[|n] r]|] eqn:E; try (now apply Hkept).
  destruct (headed E) as (y0 & r' & -> & Hy0). simpl in H.
  apply andb_true_iff in H as [H _]. apply char_eqb_eq in H. subst y0.
  contradiction.
Qed.

Lemma sub_go_same (u : text) :
  Forall (fun z => ~ In z heads) (sub_go m 0 u) -> sub_go m 0 u = u.
Proof.
  induction u as [|x u IH]; [reflexivity|]. rewrite sub_go_cons.
  destruct (m (x :: u)) as [[[|n] r]|] eqn:E;
    try (intros H; inversion H; subst; f_equal; now apply IH).
  destruct (headed E) as (y0 & r' & -> & Hy0). intros H.
  inversion H; subst. contradiction.
Qed.

End HeadedReplacements.

Lemma run_gt_headed (c : char) (n : nat) (y : char) (r' : text) :
  forall t k r, match_run_gt c n (y :: r') t = Some (S k, r) ->
                exists y0 r0, r = y0 :: r0 /\ In y0 [y].
Proof.
  intros t k r E. apply run_gt_replacement in E as [-> _].
  exists y, r'. split; [reflexivity|now left].
Qed.

Lemma thick_headed (t : text) (k : nat) (r : text) :
  thick_sub t = Some (S k, r) -> exists y0 r0, r = y0 :: r0 /\ In y0 [DASH].
Proof.
  intros E. apply thick_sub_replacement in E as [-> _].
  exists DASH, (lit "->"). split; [reflexivity|now left].
Qed.

Lemma semis_headed (t : text) (k : nat) (r : text) :
  match_semis t = Some (S k, r) -> exists y0 r0, r = y0 :: r0 /\ In y0 [SEMI].
Proof.
  intros E. apply semis_replacement in E as (-> & _).
  exists SEMI, []. split; [reflexivity|now left].
Qed.

Lemma arrows_prefix (q t : text) :
  Forall (fun z => ~ In z [DASH]) q ->
  startswith q (arrows t) = true -> startswith q t = true.
Proof.
  intros Hq H. unfold replace, re_sub in H.
  apply (@sub_go_prefix thick_sub [DASH] thick_headed _ _ Hq) in H.
  apply (@sub_go_prefix dots [DASH] (@run_gt_headed DOT 4 DASH (lit "..->")) _ _ Hq) in H.
  now apply (@sub_go_prefix dashes [DASH] (@run_gt_headed DASH 4 DASH (lit "->")) _ _ Hq) in H.
Qed.

Lemma arrows_same (t : text) :
  Forall (fun z => ~ In z [DASH]) (arrows t) -> arrows t = t.
Proof.
  intros H. unfold replace, re_sub in *.
  pose proof (@sub_go_same thick_sub [DASH] thick_headed _ H) as E1.
  rewrite E1 in H |- *.
  pose proof (@sub_go_same dots [DASH] (@run_gt_headed DOT 4 DASH (lit "..->")) _ H) as E2.
  rewrite E2 in H |- *.
  exact (@sub_go_same dashes [DASH] (@run_gt_headed DASH 4 DASH (lit "->")) _ H).
Qed.

Lemma node_id_prefix (q t : text) :
  ~ In UNDERSCORE q -> ~ In LBRACKET q ->
  startswith q (fix_node_id t) = true -> startswith q t = true.
Proof.
  intros Hu Hb H. pose proof (split1_parts LBRACKET t) as Hs.
  destruct (split1 LBRACKET t) as [|a [|b more]] eqn:E; [contradiction| |].
  - destruct Hs as [_ Hno]. now rewrite fix_node_id_no_bracket in H.
  - destruct more; [|contradiction]. destruct Hs as [-> Hno].
    rewrite fix_node_id_cut in H by exact Hno.
    rewrite startswith_cut in H |- * by exact Hb.
    destruct (ident_sub_form a)
      as [Hq|(pre & A & G & W & trail & -> & _ & _ & _ & _ & _ & _ & _ & Hout)].
    + unfold re_sub in H. now rewrite sub_quiet in H.
    + unfold re_sub in H. rewrite Hout in H.
      replace (pre ++ (A ++ [UNDERSCORE] ++ W) ++ trail)
        with ((pre ++ A) ++ UNDERSCORE :: (W ++ trail)) in H
        by (now rewrite <- !app_assoc).
      rewrite startswith_cut in H by exact Hu.
      rewrite app_assoc. now apply startswith_app_r.
Qed.

Lemma node_id_same (t : text) :
  ~ In UNDERSCORE (fix_node_id t) -> fix_node_id t = t.
Proof.
  intros H. pose proof (split1_parts LBRACKET t) as Hs.
  destruct (split1 LBRACKET t) as [|a [|b more]] eqn:E; [contradiction| |].
  - destruct Hs as [_ Hno]. now apply fix_node_id_no_bracket.
  - destruct more; [|contradiction]. destruct Hs as [-> Hno].
    rewrite fix_node_id_cut in H |- * by exact Hno.
    destruct (ident_sub_form a)
      as [Hq|(pre & A & G & W & trail & -> & _ & _ & _ & _ & _ & _ & _ & Hout)].
    + unfold re_sub. now rewrite sub_quiet.
    + exfalso. apply H. unfold re_sub. rewrite Hout.
      apply in_or_app. left. apply in_or_app. right.
      apply in_or_app. left. apply in_or_app. right. now left.
Qed.

(** A line that is repaired is repaired into a line that the repair does
    not leave as it is for being blank, a comment, a subgraph or an end. *)
Lemma fix_line_exempt (l : text) :
  is_blank_or_comment (strip l) = false ->
  is_subgraph_or_end (strip l) = false ->
  is_blank_or_comment (fix_line l) = false
  /\ is_subgraph_or_end (fix_line l) = false.
Proof.
  intros E1 E2.
  assert (strip l <> []) as Hne.
  { intros E. rewrite E in E1. discriminate. }
  pose proof (fix_line_nonblank l Hne) as Hout.
  rewrite (fix_line_body _ E1 E2) in *.
  assert (forall q, ~ In UNDERSCORE q -> ~ In LBRACKET q ->
                    Forall (fun z => ~ In z [DASH]) q ->
                    Forall (fun z => ~ In z [SEMI]) q ->
                    startswith q (re_sub match_semis
                                    (fix_node_id (arrows (strip l)))) = true ->
                    startswith q (strip l) = true) as Hprefix.
  { intros q Hu Hb Hd Hs H. unfold re_sub in H.
    apply (@sub_go_prefix match_semis [SEMI] semis_headed _ _ Hs) in H.
    apply node_id_prefix in H; [|exact Hu|exact Hb].
    now apply arrows_prefix in H. }
  unfold is_blank_or_comment, is_subgraph_or_end in *.
  apply orb_false_iff in E1 as [_ E1]. apply orb_false_iff in E2 as [E2 E3].
  split; apply orb_false_iff; split.
  - now destruct (re_sub match_semis _).
  - destruct (startswith (lit "%%") (re_sub match_semis _)) eqn:E; [|reflexivity].
    apply Hprefix in E; [congruence|apply absent_char; reflexivity..| |];
      repeat constructor; apply absent_char; reflexivity.
  - destruct (startswith (lit "subgraph") (re_sub match_semis _)) eqn:E;
      [|reflexivity].
    apply Hprefix in E; [congruence|apply absent_char; reflexivity..| |];
      repeat constructor; apply absent_char; reflexivity.
  - destruct (text_eqb (re_sub match_semis _) (lit "end")) eqn:E; [|reflexivity].
    exfalso. apply text_eqb_eq in E.
    assert (fix_node_id (arrows (strip l)) = lit "end") as E'.
    { rewrite <- E. symmetry. unfold re_sub.
      apply (@sub_go_same match_semis [SEMI] semis_headed).
      unfold re_sub in E. rewrite E.
      repeat constructor; apply absent_char; reflexivity. }
    assert (arrows (strip l) = lit "end") as E''.
    { rewrite <- E'. symmetry. apply node_id_same. rewrite E'.
      apply absent_char. reflexivity. }
    assert (strip l = lit "end") as Eline.
    { rewrite <- E''. symmetry. apply arrows_same. rewrite E''.
      repeat constructor; apply absent_char; reflexivity. }
    rewrite Eline in E3. discriminate.
Qed.

(** ** What a substitution keeps *)

Lemma contains_here (p t : text) :
  startswith p t = true -> contains p t = true.
Proof. intros H. destruct t; simpl; now rewrite H. Qed.

Lemma contains_later (p : text) (x : char) (t : text) :
  contains p t = true -> contains p (x :: t) = true.
Proof.
  intros H. change (contains p (x :: t))
    with (startswith p (x :: t) || contains p t).
  rewrite H. apply orb_true_r.
Qed.

Lemma contains_app_r (p a b : text) :
  contains p b = true -> contains p (a ++ b) = true.
Proof.
  intros H. induction a as [|x a IH]; [exact H|]. now apply contains_later.
Qed.

Section Presence.

Variable p : text.
Variable m : text -> option (nat * text).
Hypothesis p_nonempty : p <> [].

(** An occurrence of [p] in a text that starts with a match comes after
    the match. *)
Hypothesis past :
  forall t n r, m t = Some (S n, r) ->
                contains p t = true -> contains p (skipn (S n) t) = true.

(** No match begins inside an occurrence of [p]. *)
Hypothesis inside :
  forall t j n r, startswith p t = true -> j < length p ->
                  m (skipn j t) <> Some (S n, r).

Lemma sub_go_unmatched (q rest : text) :
  (forall j n r, j < length q -> m (skipn j (q ++ rest)) <> Some (S n, r)) ->
  sub_go m 0 (q ++ rest) = q ++ sub_go m 0 rest.
Proof.
  induction q as [|y q IH]; intros H; [reflexivity|].
  cbn [app]. rewrite sub_go_cons.
  assert (sub_go m 0 (q ++ rest) = q ++ sub_go m 0 rest) as ->.
  { apply IH. intros j n r Hj. apply (H (S j)). simpl. lia. }
  pose proof (H 0) as H0. cbn [skipn app] in H0.
  destruct (m (y :: q ++ rest)) as [[[|n] r]|]; try reflexivity.
  exfalso. apply (H0 n r); [simpl; lia|reflexivity].
Qed.

Lemma present_sub_go (u : text) :
  forall k, contains p (skipn k u) = true -> contains p (sub_go m k u) = true.
Proof.
  induction u as [|x u IH]; intros k H.
  - rewrite skipn_nil in H. destruct p; [congruence|discriminate H].
  - destruct k as [|k]; [|rewrite sub_go_cons; now apply IH].
    change (skipn 0 (x :: u)) with (x :: u) in H.
    destruct (startswith p (x :: u)) eqn:Es.
    + pose proof Es as Es'. apply startswith_prefix in Es' as (rest & E).
      rewrite E, sub_go_unmatched.
      * apply contains_here, startswith_app.
      * intros j n r Hj. rewrite <- E. now apply inside.
    + assert (contains p u = true) as Hu.
      { change (contains p (x :: u))
          with (startswith p (x :: u) || contains p u) in H.
        now rewrite Es in H. }
      rewrite sub_go_cons.
      destruct (m (x :: u)) as [[[|n] r]|] eqn:E;
        try (apply contains_later; now apply (IH 0)).
      apply contains_app_r, IH. exact (past E H).
Qed.

End Presence.

Lemma skipn_repeat_app (c : char) (k : nat) (rest : text) :
  skipn k (repeat c k ++ rest) = rest.
Proof.
  rewrite <- (repeat_length c k) at 1. apply skipn_exact.
Qed.

Lemma skipn_run_gt (c : char) (n : nat) (rest : text) :
  skipn (S n) (repeat c n ++ GT :: rest) = rest.
Proof. induction n as [|n IH]; [reflexivity|exact IH]. Qed.

Lemma bad_past_run (c : char) (k : nat) (rest : text) :
  c = DASH \/ c = DOT ->
  contains (lit "--===>") (repeat c k ++ GT :: rest)
  = contains (lit "--===>") rest.
Proof.
  intros Hc. induction k as [|k IH]; [reflexivity|].
  change (repeat c (S k) ++ GT :: rest) with (c :: (repeat c k ++ GT :: rest)).
  change (contains (lit "--===>") (c :: (repeat c k ++ GT :: rest)))
    with (startswith (lit "--===>") (c :: (repeat c k ++ GT :: rest))
          || contains (lit "--===>") (repeat c k ++ GT :: rest)).
  rewrite IH.
  assert (startswith (lit "--===>") (c :: (repeat c k ++ GT :: rest)) = false)
    as ->; [|reflexivity].
  destruct Hc as [->| ->]; destruct k as [|[|k]]; reflexivity.
Qed.

(** The collapses of long arrows keep [--===>]. *)
Lemma bad_present_run (c : char) (r s : text) :
  c = DASH \/ c = DOT ->
  contains (lit "--===>") s = true ->
  contains (lit "--===>") (re_sub (match_run_gt c 4 r) s) = true.
Proof.
  intros Hc H. unfold re_sub. apply present_sub_go; [discriminate| | |exact H].
  - intros t n r' E Ht. apply run_gt_consumed in E as (_ & rest & ->).
    rewrite bad_past_run in Ht by exact Hc.
    now rewrite skipn_run_gt.
  - intros t j n r' Hs Hj E. apply startswith_prefix in Hs as (rest & ->).
    apply run_gt_consumed in E as (Hn & rest' & E).
    change (length (lit "--===>")) with 6 in Hj.
    do 4 (destruct n as [|n]; [lia|]).
    change (lit "--===>" ++ rest)
      with (DASH :: DASH :: EQUALS :: EQUALS :: EQUALS :: GT :: rest) in E.
    destruct Hc as [->| ->];
      destruct j as [|[|[|[|[|[|j]]]]]]; try lia; discriminate E.
Qed.

(** The rewriting of [===>] turns [--===>] into a long arrow. *)
Lemma thick_present (u : text) :
  forall k, contains (lit "--===>") (skipn k u) = true ->
            contains (lit "---->") (sub_go thick_sub k u) = true.
Proof.
  induction u as [|x u IH]; intros k H.
  - rewrite skipn_nil in H. discriminate H.
  - destruct k as [|k]; [|rewrite sub_go_cons; now apply IH].
    change (skipn 0 (x :: u)) with (x :: u) in H.
    destruct (startswith (lit "--===>") (x :: u)) eqn:Es.
    + apply startswith_prefix in Es as (rest & ->). reflexivity.
    + assert (contains (lit "--===>") u = true) as Hu.
      { change (contains (lit "--===>") (x :: u))
          with (startswith (lit "--===>") (x :: u)
                || contains (lit "--===>") u) in H.
        now rewrite Es in H. }
      rewrite sub_go_cons. cbv beta.
      destruct (startswith (lit "===>") (x :: u)) eqn:Et.
      * change (length (lit "===>")) with 4. cbv iota.
        apply contains_app_r, IH.
        apply startswith_prefix in Et as (rest & Et).
        change (lit "===>" ++ rest)
          with (EQUALS :: EQUALS :: EQUALS :: GT :: rest) in Et.
        inversion Et; subst. exact Hu.
      * apply contains_later. now apply (IH 0).
Qed.

Lemma semis_past (p : text) (k : nat) (rest : text) :
  ~ In SEMI p -> p <> [] ->
  contains p (repeat SEMI k ++ rest) = contains p rest.
Proof.
  intros Hp Hne. induction k as [|k IH]; [reflexivity|].
  change (repeat SEMI (S k) ++ rest) with ([] ++ SEMI :: (repeat SEMI k ++ rest)).
  rewrite contains_cut by exact Hp. rewrite IH.
  destruct p; [congruence|reflexivity].
Qed.

(** The collapse of semicolons keeps what has no semicolon. *)
Lemma present_semis (p t : text) :
  p <> [] -> ~ In SEMI p ->
  contains p t = true -> contains p (re_sub match_semis t) = true.
Proof.
  intros Hne Hp H. unfold re_sub. apply present_sub_go; [exact Hne| | |exact H].
  - intros u n r E Hu. apply semis_consumed in E as (rest & ->).
    rewrite semis_past in Hu by assumption. now rewrite skipn_repeat_app.
  - intros u j n r Hs Hj E.
    apply semis_consumed in E as (rest & E).
    apply startswith_prefix in Hs as (rest' & ->).
    rewrite skipn_app in E. replace (j - length p) with 0 in E by lia.
    cbn [skipn] in E.
    destruct (skipn j p) as [|y q] eqn:Ep.
    { apply (f_equal (@length char)) in Ep. rewrite length_skipn in Ep.
      simpl in Ep. lia. }
    inversion E; subst. apply absent_Forall in Hp.
    apply (Forall_skipn j) in Hp. rewrite Ep in Hp.
    inversion Hp; subst. congruence.
Qed.

Lemma good_absent (p u : text) :
  (exists y q, p = y :: q /\ good y = false) ->
  Forall (fun c => good c = true) u -> contains p u = false.
Proof.
  intros (y & q & -> & Hy) Hu. induction Hu as [|x u Hx _ IH]; [reflexivity|].
  change (contains (y :: q) (x :: u))
    with (char_eqb y x && startswith q u || contains (y :: q) u).
  rewrite IH, orb_false_r.
  assert (char_eqb y x = false) as ->; [|reflexivity].
  apply char_eqb_neq. intros ->. congruence.
Qed.

Lemma ident_starts_word (t : text) (k : nat) (r : text) :
  ident t = Some (k, r) -> exists y t', t = y :: t' /\ isword y = true.
Proof.
  intros E. apply ident_gap_cond in E as (H1 & _).
  destruct t as [|y t']; [simpl in H1; lia|]. exists y, t'.
  split; [reflexivity|]. simpl in H1. destruct (isword y); [reflexivity|lia].
Qed.

(** The identifier repair keeps what has no word character and no
    whitespace. *)
Lemma present_ident (p a : text) :
  p <> [] -> Forall (fun c => good c = false) p ->
  contains p a = true -> contains p (re_sub ident a) = true.
Proof.
  intros Hne Hp H. unfold re_sub. apply present_sub_go; [exact Hne| | |exact H].
  - intros u n r E Hu. exfalso. apply ident_good in E.
    rewrite good_absent in Hu; [discriminate| |exact E].
    destruct p as [|y q]; [congruence|]. exists y, q.
    split; [reflexivity|now inversion Hp].
  - intros u j n r Hs Hj E.
    apply ident_starts_word in E as (y & t' & E & Hy).
    apply startswith_prefix in Hs as (rest' & ->).
    rewrite skipn_app in E. replace (j - length p) with 0 in E by lia.
    cbn [skipn] in E.
    destruct (skipn j p) as [|y' q] eqn:Ep.
    { apply (f_equal (@length char)) in Ep. rewrite length_skipn in Ep.
      simpl in Ep. lia. }
    inversion E; subst.
    pose proof (Forall_skipn j Hp) as Hp'. rewrite Ep in Hp'.
    inversion Hp' as [|? ? Hbad _]; subst.
    apply orb_false_iff in Hbad as [Hbad _]. congruence.
Qed.

Lemma present_node_id (p t : text) :
  p <> [] -> ~ In LBRACKET p -> Forall (fun c => good c = false) p ->
  contains p t = true -> contains p (fix_node_id t) = true.
Proof.
  intros Hne Hb Hp H. pose proof (split1_parts LBRACKET t) as Hs.
  destruct (split1 LBRACKET t) as [|a [|b more]] eqn:E; [contradiction| |].
  - destruct Hs as [_ Hno]. now rewrite fix_node_id_no_bracket.
  - destruct more; [|contradiction]. destruct Hs as [-> Hno].
    rewrite fix_node_id_cut by exact Hno.
    rewrite contains_cut in H |- * by exact Hb.
    apply orb_true_iff in H as [H|H]; apply orb_true_iff; [left|now right].
    now apply present_ident.
Qed.

Lemma bad_has_thick (t : text) :
  contains (lit "===>") t = false -> contains (lit "--===>") t = false.
Proof.
  intros H. destruct (contains (lit "--===>") t) eqn:E; [|reflexivity].
  apply contains_split in E as (a & b & ->).
  change (lit "--===>") with (lit "--" ++ lit "===>") in H.
  rewrite <- app_assoc, app_assoc in H.
  rewrite (@contains_factor (lit "===>") (a ++ lit "--") (lit "===>") b) in H;
    [discriminate|reflexivity].
Qed.

Lemma punct_forall_not_good (p : text) :
  forallb (fun c => existsb (char_eqb c) [DASH; DOT; EQUALS; GT; SEMI; BACKTICK]) p
  = true ->
  Forall (fun c => good c = false) p.
Proof.
  intros H. apply Forall_forall. intros c Hc.
  rewrite forallb_forall in H. specialize (H c Hc).
  apply existsb_exists in H as (y & Hy & E). apply char_eqb_eq in E. subst y.
  now apply punct_not_good.
Qed.

Lemma punct_forall_not_word (p : text) :
  forallb (fun c => existsb (char_eqb c) [DASH; DOT; EQUALS; GT; SEMI; BACKTICK]) p
  = true ->
  Forall (fun c => isword c = false) p.
Proof.
  intros H. apply punct_forall_not_good in H. revert H.
  apply Forall_impl. intros c Hc. now apply orb_false_iff in Hc.
Qed.

(** What the repair of a line leaves of the long arrows. *)
Lemma fix_line_arrows_absent (l : text) :
  is_blank_or_comment (strip l) = false ->
  is_subgraph_or_end (strip l) = false ->
  contains (lit "....>") (fix_line l) = false
  /\ contains (lit "===>") (fix_line l) = false
  /\ (contains (lit "--===>") (strip l) = false ->
      contains (lit "---->") (fix_line l) = false).
Proof.
  intros E1 E2. rewrite (fix_line_body _ E1 E2).
  assert (forall p t,
             p <> [] -> ~ In SEMI p -> ~ In LBRACKET p ->
             forallb (fun c => existsb (char_eqb c)
                                 [DASH; DOT; EQUALS; GT; SEMI; BACKTICK]) p = true ->
             contains p t = false ->
             contains p (re_sub match_semis (fix_node_id t)) = false) as Hkept.
  { intros p t Hne Hs Hb Hp H. apply semis_absent; [exact Hne|exact Hs|].
    apply node_id_absent; [exact Hne|exact Hb| |exact H].
    now apply punct_forall_not_word. }
  split; [|split].
  - apply Hkept; [discriminate|apply absent_char; reflexivity..|reflexivity|].
    apply dots_absent_arrows.
  - apply Hkept; [discriminate|apply absent_char; reflexivity..|reflexivity|].
    apply thick_after_thick.
  - intros Hbad.
    apply Hkept; [discriminate|apply absent_char; reflexivity..|reflexivity|].
    now apply arrows_absent.
Qed.

(** A line with [--===>] is repaired again by a second repair. *)
Lemma fix_line_bad (l : text) :
  is_blank_or_comment (strip l) = false ->
  is_subgraph_or_end (strip l) = false ->
  contains (lit "--===>") (strip l) = true ->
  fix_line (fix_line l) <> fix_line l.
Proof.
  intros E1 E2 Hbad Heq.
  destruct (fix_line_exempt l E1 E2) as [X1 X2].
  pose proof (strip_trimmed (fix_line_trimmed l)) as Hs.
  destruct (fix_line_arrows_absent l E1 E2) as (_ & Hthick & _).
  assert (contains (lit "---->") (fix_line l) = true) as Hp.
  { rewrite (fix_line_body _ E1 E2).
    apply present_semis; [discriminate|apply absent_char; reflexivity|].
    apply present_node_id;
      [discriminate|apply absent_char; reflexivity
      |now apply punct_forall_not_good|].
    unfold replace, re_sub. apply thick_present.
    change (skipn 0 (sub_go dots 0 (sub_go dashes 0 (strip l))))
      with (re_sub dots (re_sub dashes (strip l))).
    apply bad_present_run; [now right|].
    apply bad_present_run; [now left|exact Hbad]. }
  rewrite <- Hs in X1, X2.
  destruct (fix_line_arrows_absent (fix_line l) X1 X2) as (_ & _ & Hagain).
  rewrite Heq, Hs in Hagain.
  rewrite Hagain in Hp; [discriminate|]. now apply bad_has_thick.
Qed.

End PlainWords.
End Service.

(* ================================================================== *)
(** * The code run on concrete inputs                                   *)
(* ================================================================== *)

(** The rendering of [oversized_repo] is longer than the cap. *)
Lemma oversized_rendering :
  (MAX_FILE_CONTENTS_CHARS
   < len (plain_file_contents
            (trimmed_files (file_contents oversized_repo) MAX_FILES_IN_PROMPT)
            MAX_FILES_IN_PROMPT))%N.
Proof.
  unfold oversized_repo, repo_with; cbn [file_contents].
  remember (repeat 120%N (N.to_nat 300001)) as big eqn:Ebig.
  assert (length big = N.to_nat 300001) as Hbig by (subst; apply repeat_length).
  change (trimmed_files [(lit "big.txt", Raw big)] MAX_FILES_IN_PROMPT)
    with [(lit "big.txt", Raw big)].
  change (plain_file_contents [(lit "big.txt", Raw big)] MAX_FILES_IN_PROMPT)
    with ((lit "big.txt" ++ [NL] ++ big ++ [NL]) ++ []).
  unfold len, MAX_FILE_CONTENTS_CHARS. rewrite !length_app, Hbig. lia.
Qed.

(** C1, the code at a failing input.  After a context-length error the
    system message of the next invocation is the degraded prompt; the
    original prompt has the README and the diagram-requirements sections,
    the degraded one has neither. *)
Theorem degraded_prompt_drops_sections :
  let original :=
    build_context ascii_lower plain_file_contents plain_file_structure small_repo in
  contains (lit "README:") original = true
  /\ contains (lit "DIAGRAM REQUIREMENTS:") original = true
  /\ match analyze_repo_with_chat ascii_isalnum ascii_lower plain_file_contents
             plain_file_structure overflowing_model small_repo
             (lit "Draw the architecture") [] with
     | Some (_, _, st) =>
         match calls st with
         | [_; SystemMessage system :: _; _] =>
             system = degraded_context plain_file_contents small_repo original
             /\ contains (lit "README:") system = false
             /\ contains (lit "DIAGRAM REQUIREMENTS:") system = false
         | _ => False
         end
     | None => False
     end.
Proof. vm_compute. repeat split. Qed.

(** C2 fails on the code.  Only one pair of words before a bracket is
    joined per application, so a second application joins another pair; and
    the arrow [===>] is rewritten after the runs of dashes are collapsed, so
    a second application collapses what the first one produced. *)
Lemma fix_mermaid_syntax_not_idempotent :
  fix_mermaid_syntax ascii_isalnum (lit "a b c[x]") = lit "a b_c[x]"
  /\ fix_mermaid_syntax ascii_isalnum (lit "a b_c[x]") = lit "a_b_c[x]"
  /\ fix_mermaid_syntax ascii_isalnum (lit "A --===> B") = lit "A ----> B"
  /\ fix_mermaid_syntax ascii_isalnum (lit "A ----> B") = lit "A --> B"
  /\ fix_mermaid_syntax ascii_isalnum
       (fix_mermaid_syntax ascii_isalnum (lit "a b c[x]"))
     <> fix_mermaid_syntax ascii_isalnum (lit "a b c[x]").
Proof.
  do 4 (split; [reflexivity|]).
  intros H. vm_compute in H. discriminate.
Qed.

(** C3 fails on the code: a fenced diagram of three lines is repaired into
    one line. *)
Lemma fix_mermaid_syntax_drops_fence_lines :
  length (split_on NL fenced_diagram) = 3
  /\ length (split_on NL (fix_mermaid_syntax ascii_isalnum fenced_diagram)) = 1
  /\ length (split_on NL (fix_mermaid_syntax ascii_isalnum fenced_diagram))
     <> length (split_on NL fenced_diagram).
Proof.
  split; [reflexivity|]. split; [reflexivity|].
  intros H. vm_compute in H. discriminate.
Qed.

(** C4, the code at a failing input.  With the end marker before the start
    marker the answer is cut at the start marker and an empty diagram is
    returned, which the caller reports as present. *)
Theorem extract_reversed_markers :
  extract_diagram_from_response ascii_isalnum ascii_lower reversed_markers_reply
  = (lit "See [DIAGRAM_END] above and", Some [], Some (lit "custom"))
  /\ strip reversed_markers_reply <> lit "See [DIAGRAM_END] above and"
  /\ match analyze_repo_with_chat ascii_isalnum ascii_lower plain_file_contents
             plain_file_structure (fun _ _ => Reply reversed_markers_reply)
             small_repo (lit "Draw the architecture") [] with
     | Some (_, r, _) => has_diagram r = true /\ mermaid_code r = Some []
     | None => False
     end.
Proof.
  split; [reflexivity|]. split.
  - intros H. vm_compute in H. discriminate.
  - vm_compute. split; reflexivity.
Qed.

(** C5, the code at a failing input.  For [oversized_repo], a single file
    whose rendering is longer than the cap, the text returned is the first
    300,000 characters of the rendering of that one file followed by a
    marker that reads "showing 40/1 files": the marker names [max_files],
    not the number of files shown. *)
Theorem build_trimmed_marker_miscounts :
  length (file_contents oversized_repo) = 1
  /\ trimmed_files (file_contents oversized_repo) MAX_FILES_IN_PROMPT
     = file_contents oversized_repo
  /\ (MAX_FILE_CONTENTS_CHARS
      < len (plain_file_contents (file_contents oversized_repo)
                                 MAX_FILES_IN_PROMPT))%N
  /\ build_trimmed_file_contents plain_file_contents oversized_repo
       MAX_FILE_CONTENTS_CHARS MAX_FILES_IN_PROMPT
     = firstn (N.to_nat MAX_FILE_CONTENTS_CHARS)
              (plain_file_contents (file_contents oversized_repo)
                                   MAX_FILES_IN_PROMPT)
       ++ [NL; NL]
       ++ lit "... [TRUNCATED: showing 40/1 files to stay within token limit]".
Proof.
  split; [reflexivity|]. split; [reflexivity|].
  split; [exact oversized_rendering|].
  assert (file_contents oversized_repo <> []) as Hfiles by discriminate.
  destruct (@build_trimmed_overflow plain_file_contents oversized_repo
              MAX_FILE_CONTENTS_CHARS MAX_FILES_IN_PROMPT Hfiles oversized_rendering)
    as [Heq _].
  exact Heq.
Qed.

Lemma overflow_exhausts_retries_witness :
  (forall n msgs, exists err,
      overflowing_model n msgs = Raise err /\ is_context_error err = true)
  /\ exists r st,
      analyze_repo_with_chat ascii_isalnum ascii_lower plain_file_contents
        plain_file_structure overflowing_model small_repo
        (lit "Draw the architecture") [] = Some (FromLoop, r, st)
      /\ length (calls st) = 3
      /\ has_diagram r = false.
Proof.
  assert (forall n msgs, exists err,
             overflowing_model n msgs = Raise err /\ is_context_error err = true)
    as Hfail by (intros n msgs; eexists; split; reflexivity).
  split; [exact Hfail|].
  destruct (@overflow_exhausts_retries ascii_isalnum ascii_lower plain_file_contents
              plain_file_structure overflowing_model small_repo
              (lit "Draw the architecture") [] Hfail)
    as (r & st & m1 & m2 & m3 & sys & rest & err & Hrun & Hcalls & _ & _ & _ & Hd & _).
  exists r, st. split; [exact Hrun|]. split; [now rewrite Hcalls|exact Hd].
Defined.




Lemma fallback_return_unreachable_witness :
  attempt (initial_state ascii_lower plain_file_contents plain_file_structure
             small_repo (lit "Draw the architecture") [])
  < max_retries - 1.
Proof.
  destruct (@fallback_return_unreachable ascii_isalnum ascii_lower
              plain_file_contents plain_file_structure overflowing_model
              small_repo (lit "Draw the architecture") [])
    as (_ & _ & Hstep).
  eapply Hstep. reflexivity.
Defined.

(* ================================================================== *)
(** * The further properties on concrete inputs                         *)
(* ================================================================== *)

Lemma validate_blank_reports_type_witness :
  forallb isspace (lit "  " ++ [NL] ++ lit " ") = true
  /\ validate_mermaid_syntax (lit "  " ++ [NL] ++ lit " ")
     = (false, [lit "Invalid diagram type: "]).
Proof.
  split; [reflexivity|].
  apply validate_blank_reports_type. reflexivity.
Defined.

Lemma unbalanced_line_reported_witness :
  let s := lit "graph TD" ++ [NL] ++ lit "%% nodes" ++ [NL] ++ lit "  A[open" in
  fst (validate_mermaid_syntax s) = false
  /\ In (lit "Line 2: Unmatched brackets") (snd (validate_mermaid_syntax s)).
Proof.
  cbv zeta.
  apply (proj1 (@unbalanced_line_reported
                  (lit "graph TD" ++ [NL] ++ lit "%% nodes" ++ [NL]
                   ++ lit "  A[open")
                  (lit "graph TD") [lit "%% nodes"; lit "  A[open"] 1
                  (lit "  A[open")
                  eq_refl eq_refl eq_refl eq_refl eq_refl)).
  vm_compute. discriminate.
Defined.

Lemma extract_answer_without_start_marker_witness :
  extract_diagram_from_response ascii_isalnum ascii_lower
    (lit "Intro [DIAGRAM_START]graph TD[DIAGRAM_END]")
  = (lit "Intro", Some (lit "graph TD"), Some (lit "flowchart"))
  /\ contains DIAGRAM_START (lit "Intro") = false.
Proof.
  split; [vm_compute; reflexivity|].
  apply (@extract_answer_without_start_marker ascii_isalnum ascii_lower
           (lit "Intro [DIAGRAM_START]graph TD[DIAGRAM_END]")
           (lit "Intro") (lit "graph TD") (Some (lit "flowchart"))).
  vm_compute. reflexivity.
Defined.

Lemma extract_wrapped_reply_witness :
  extract_diagram_from_response ascii_isalnum ascii_lower
    (lit "Here it is: " ++ DIAGRAM_START ++ lit " graph TD " ++ DIAGRAM_END
     ++ lit " Bye.")
  = (lit "Here it is:",
     Some (clean_mermaid_code ascii_isalnum (lit "graph TD")),
     Some (detect_diagram_type ascii_lower
             (clean_mermaid_code ascii_isalnum (lit "graph TD")))).
Proof.
  apply (@extract_wrapped_reply ascii_isalnum ascii_lower
           (lit "Here it is: ") (lit " graph TD ") (lit " Bye."));
    reflexivity.
Defined.

Lemma categorized_files_are_files_witness :
  services <> folders
  /\ services <> dependencies
  /\ incl (extract_detailed_repo_components ascii_lower small_repo services)
          (extract_detailed_repo_components ascii_lower small_repo all_files).
Proof.
  split; [discriminate|]. split; [discriminate|].
  apply categorized_files_are_files; discriminate.
Defined.

Lemma plain_reply_returned_witness :
  exists r st,
    analyze_repo_with_chat ascii_isalnum ascii_lower plain_file_contents
      plain_file_structure (fun _ _ => Reply (lit " It is a small project. "))
      small_repo (lit "What is this?") []
    = Some (FromLoop, r, st)
    /\ answer r = lit "It is a small project."
    /\ has_diagram r = false.
Proof.
  destruct (@plain_reply_returned ascii_isalnum ascii_lower plain_file_contents
              plain_file_structure
              (fun _ _ => Reply (lit " It is a small project. "))
              small_repo (lit "What is this?") []
              (lit " It is a small project. ") eq_refl eq_refl)
    as (r & st & Hrun & Hanswer & _ & Hnone & _).
  exists r, st. repeat split; assumption.
Defined.

Lemma rejected_diagram_returned_witness :
  let reply := DIAGRAM_START ++ lit "graph TD" ++ [NL] ++ lit "A[open"
               ++ DIAGRAM_END in
  exists r st,
    analyze_repo_with_chat ascii_isalnum ascii_lower plain_file_contents
      plain_file_structure (fun _ _ => Reply reply)
      small_repo (lit "Draw the architecture") []
    = Some (FromLoop, r, st)
    /\ length (calls st) = 3
    /\ has_diagram r = true.
Proof.
  cbv zeta.
  destruct (@rejected_diagram_returned ascii_isalnum ascii_lower
              plain_file_contents plain_file_structure
              (fun _ _ => Reply (DIAGRAM_START ++ lit "graph TD" ++ [NL]
                                 ++ lit "A[open" ++ DIAGRAM_END))
              small_repo (lit "Draw the architecture") [])
    as (r & st & m1 & m2 & m3 & code & Hrun & Hcalls & _ & _ & Hhas & _).
  - intros n msgs.
    exists (DIAGRAM_START ++ lit "graph TD" ++ [NL] ++ lit "A[open"
            ++ DIAGRAM_END),
           [], (lit "graph TD" ++ [NL] ++ lit "A[open"),
           (Some (lit "flowchart")).
    split; [reflexivity|]. split; [vm_compute; reflexivity|].
    split; [discriminate|]. left. vm_compute. reflexivity.
  - exists r, st. rewrite Hcalls. repeat split; assumption.
Defined.

Lemma failure_retried_unchanged_witness :
  exists st err,
    analyze_repo_with_chat ascii_isalnum ascii_lower plain_file_contents
      plain_file_structure (fun _ _ => Raise (lit "Connection reset"))
      small_repo (lit "Draw the architecture") []
    = Some (FromLoop, failed small_repo err, st)
    /\ length (calls st) = 3.
Proof.
  destruct (@failure_retried_unchanged ascii_isalnum ascii_lower
              plain_file_contents plain_file_structure
              (fun _ _ => Raise (lit "Connection reset"))
              small_repo (lit "Draw the architecture") [])
    as (st & err & Hrun & Hcalls & _).
  - intros n msgs. exists (lit "Connection reset"). split; reflexivity.
  - exists st, err. rewrite Hcalls. split; [exact Hrun|reflexivity].
Defined.

Lemma fix_mermaid_syntax_removes_fences_witness :
  ascii_isalnum BACKTICK = false
  /\ startswith FENCE (strip fenced_diagram) = true
  /\ contains FENCE (fix_mermaid_syntax ascii_isalnum fenced_diagram) = false.
Proof.
  split; [reflexivity|]. split; [reflexivity|].
  apply fix_mermaid_syntax_removes_fences; [reflexivity|now left].
Defined.

Lemma accepted_diagram_returned_witness :
  let reply := lit "Done. " ++ DIAGRAM_START ++ flat_diagram (node_lines 15)
               ++ DIAGRAM_END in
  exists r st,
    analyze_repo_with_chat ascii_isalnum ascii_lower plain_file_contents
      plain_file_structure (fun _ _ => Reply reply)
      small_repo (lit "Draw the architecture") []
    = Some (FromLoop, r, st)
    /\ answer r = lit "Done."
    /\ has_diagram r = true
    /\ length (calls st) = 1.
Proof.
  cbv zeta.
  destruct (@accepted_diagram_returned ascii_isalnum ascii_lower
              plain_file_contents plain_file_structure
              (fun _ _ => Reply (lit "Done. " ++ DIAGRAM_START
                                 ++ flat_diagram (node_lines 15)
                                 ++ DIAGRAM_END))
              small_repo (lit "Draw the architecture") []
              (lit "Done. " ++ DIAGRAM_START ++ flat_diagram (node_lines 15)
               ++ DIAGRAM_END)
              (lit "Done.")
              (fix_mermaid_syntax ascii_isalnum (flat_diagram (node_lines 15)))
              (Some (lit "flowchart")))
    as (r & st & Hrun & Hanswer & _ & _ & Hhas & Hcalls & _).
  - reflexivity.
  - vm_compute. reflexivity.
  - vm_compute. discriminate.
  - vm_compute. reflexivity.
  - vm_compute. reflexivity.
  - exists r, st. rewrite Hcalls. repeat split; assumption.
Defined.

Lemma header_decides_type_witness :
  let s := lit "  gantt" ++ [NL] ++ lit "  title Plan" in
  Forall is_ascii s
  /\ detect_diagram_type ascii_lower s = lit "custom".
Proof.
  cbv zeta.
  assert (Forall is_ascii (lit "  gantt" ++ [NL] ++ lit "  title Plan")) as Hs
      by (repeat (apply Forall_cons; [reflexivity|]); apply Forall_nil).
  split; [exact Hs|].
  apply (@header_decides_type ascii_lower _ (fun t _ => eq_refl) Hs).
  right. left. reflexivity.
Defined.

Lemma fix_mermaid_syntax_keeps_characters_witness :
  let s := lit "  A[x] ----> B(y);;" in
  count LBRACKET (fix_mermaid_syntax ascii_isalnum s) = count LBRACKET s
  /\ fix_mermaid_syntax ascii_isalnum s = lit "A[x] --> B(y);".
Proof.
  cbv zeta. split; [|vm_compute; reflexivity].
  apply fix_mermaid_syntax_keeps_characters; [reflexivity|reflexivity|].
  vm_compute. intros H.
  repeat (destruct H as [H|H]; [discriminate H|]). exact H.
Defined.

Lemma completeness_thresholds_witness :
  count_nodes (split_on NL (flat_diagram (node_lines 3))) < 15
  /\ fst (validate_diagram_completeness ascii_lower (flat_diagram (node_lines 3))
            large_repo) = false.
Proof.
  assert (count_nodes (split_on NL (flat_diagram (node_lines 3))) < 15) as H
      by (vm_compute; lia).
  split; [exact H|].
  exact (proj1 (completeness_thresholds ascii_lower
                  (flat_diagram (node_lines 3)) large_repo) H).
Defined.

Lemma extract_diagram_iff_markers_witness :
  extract_diagram_from_response ascii_isalnum ascii_lower
    (lit " The end marker alone: [DIAGRAM_END] ")
  = (lit "The end marker alone: [DIAGRAM_END]", None, None).
Proof.
  exact (proj2 (extract_diagram_iff_markers ascii_isalnum ascii_lower
                  (lit " The end marker alone: [DIAGRAM_END] ")) eq_refl).
Defined.

Lemma components_frame_witness :
  extract_detailed_repo_components ascii_lower small_repo services
  = traverse_structure ascii_lower (file_structure small_repo) empty_components
      services.
Proof.
  apply (proj1 (proj2 (components_frame ascii_lower small_repo))).
  discriminate.
Defined.

Lemma dependencies_without_specifiers_witness :
  let repo := repo_with [(lit "requirements.txt",
                          Info (lit "flask==2.0") (Some (lit "configuration")))] in
  extract_detailed_repo_components ascii_lower repo dependencies = [].
Proof.
  cbv zeta.
  apply (proj2 (dependencies_without_specifiers ascii_lower
                  (repo_with [(lit "requirements.txt",
                               Info (lit "flask==2.0")
                                    (Some (lit "configuration")))]))).
  apply Forall_cons; [|apply Forall_nil].
  right. now exists (lit "flask==2.0"), (Some (lit "configuration")).
Defined.

Lemma trimmed_files_selection_witness :
  length (numbered_files 5) <= 40
  /\ trimmed_files (numbered_files 5) 40
     = filter (fun pd => is_priority (snd pd)) (numbered_files 5)
       ++ filter (fun pd => negb (is_priority (snd pd))) (numbered_files 5).
Proof.
  assert (length (numbered_files 5) <= 40) as H by (vm_compute; lia).
  split; [exact H|].
  exact (proj2 (proj2 (proj2 (trimmed_files_selection (numbered_files 5) 40))) H).
Defined.

Lemma initial_messages_window_witness :
  let turn_of (n : nat) := {| role := lit "user"; turn_content := str_of_nat n |} in
  initial_messages ascii_lower plain_file_contents plain_file_structure small_repo
    (lit "And now?") (map turn_of (seq 0 8))
  = initial_messages ascii_lower plain_file_contents plain_file_structure small_repo
      (lit "And now?") (map turn_of (seq 2 6)).
Proof.
  cbv zeta.
  apply (proj2 (proj2 (proj2 (proj2
           (initial_messages_window ascii_lower plain_file_contents
              plain_file_structure small_repo (lit "And now?")
              (map (fun n => {| role := lit "user"; turn_content := str_of_nat n |})
                   (seq 0 8))))))
           (map (fun n => {| role := lit "user"; turn_content := str_of_nat n |})
                (seq 0 2))
           (map (fun n => {| role := lit "user"; turn_content := str_of_nat n |})
                (seq 2 6)));
    reflexivity.
Defined.

Lemma degraded_context_cut_witness :
  let context := lit "Description: FILE CONTENTS viewer" ++ [NL]
                 ++ lit "FILE CONTENTS (top 40 most important files):" in
  exists kept dropped,
    context = kept ++ dropped
    /\ kept = lit "Description: "
    /\ degraded_context plain_file_contents small_repo context
       = kept ++ lit "FILE CONTENTS (reduced due to token limit):" ++ [NL]
         ++ RULE ++ [NL]
         ++ build_trimmed_file_contents plain_file_contents small_repo 80000%N 15.
Proof.
  cbv zeta.
  destruct (degraded_context_cut plain_file_contents small_repo
              (lit "Description: FILE CONTENTS viewer" ++ [NL]
               ++ lit "FILE CONTENTS (top 40 most important files):"))
    as (kept & dropped & Hsplit & Hfree & Hstart & _ & Hcut).
  exists kept, dropped. split; [exact Hsplit|]. split; [|exact Hcut].
  specialize (Hstart eq_refl).
  apply startswith_prefix in Hstart as (rest & ->).
  change (lit "Description: FILE CONTENTS viewer" ++ [NL]
          ++ lit "FILE CONTENTS (top 40 most important files):")
    with (lit "Description: " ++ lit "FILE CONTENTS"
          ++ lit " viewer" ++ [NL]
          ++ lit "FILE CONTENTS (top 40 most important files):") in Hsplit.
  revert Hsplit Hfree. generalize (lit " viewer" ++ [NL]
          ++ lit "FILE CONTENTS (top 40 most important files):").
  intros tail Hsplit Hfree.
  assert (forall a b c d : text,
            a ++ lit "FILE CONTENTS" ++ b = c ++ lit "FILE CONTENTS" ++ d ->
            contains (lit "FILE CONTENTS") a = false ->
            contains (lit "FILE CONTENTS") c = false -> a = c) as Hfirst.
  { intros a b c d E Ha Hc.
    assert (index (lit "FILE CONTENTS") (a ++ lit "FILE CONTENTS" ++ b)
            = Some (length a)) as Hia.
    { change (lit "FILE CONTENTS") with (70%N :: lit "ILE CONTENTS") at 2.
      change (lit "FILE CONTENTS") with (70%N :: lit "ILE CONTENTS") in Ha.
      change (lit "FILE CONTENTS") with (70%N :: lit "ILE CONTENTS") at 1.
      change ((70%N :: lit "ILE CONTENTS") ++ b)
        with (70%N :: lit "ILE CONTENTS" ++ b).
      rewrite index_skip; [|apply absent_char; reflexivity|exact Ha].
      change (70%N :: lit "ILE CONTENTS" ++ b)
        with ((70%N :: lit "ILE CONTENTS") ++ b).
      rewrite index_at_start. simpl. now rewrite Nat.add_0_r. }
    assert (index (lit "FILE CONTENTS") (c ++ lit "FILE CONTENTS" ++ d)
            = Some (length c)) as Hic.
    { change (lit "FILE CONTENTS") with (70%N :: lit "ILE CONTENTS") at 2.
      change (lit "FILE CONTENTS") with (70%N :: lit "ILE CONTENTS") in Hc.
      change (lit "FILE CONTENTS") with (70%N :: lit "ILE CONTENTS") at 1.
      change ((70%N :: lit "ILE CONTENTS") ++ d)
        with (70%N :: lit "ILE CONTENTS" ++ d).
      rewrite index_skip; [|apply absent_char; reflexivity|exact Hc].
      change (70%N :: lit "ILE CONTENTS" ++ d)
        with ((70%N :: lit "ILE CONTENTS") ++ d).
      rewrite index_at_start. simpl. now rewrite Nat.add_0_r. }
    rewrite E, Hic in Hia. inversion Hia as [Hlen].
    apply (f_equal (firstn (length a))) in E.
    rewrite firstn_app, firstn_all, Nat.sub_diag in E. simpl in E.
    rewrite app_nil_r in E. rewrite E, <- Hlen.
    rewrite firstn_app, firstn_all, Nat.sub_diag. simpl.
    now rewrite app_nil_r. }
  symmetry. apply (Hfirst _ _ _ _ Hsplit); [reflexivity|exact Hfree].
Defined.

Lemma fix_mermaid_syntax_keeps_lines_witness :
  let s := lit "flowchart TD" ++ [NL] ++ lit "  my node [Label] ----> B;;" in
  strip s = s
  /\ startswith FENCE s = false
  /\ fix_mermaid_syntax ascii_isalnum s
     = lit "flowchart TD" ++ [NL] ++ lit "my_node [Label] --> B;"
  /\ length (split_on NL (fix_mermaid_syntax ascii_isalnum s))
     = length (split_on NL s)
  /\ content (fix_mermaid_syntax ascii_isalnum s) = content s.
Proof.
  split; [reflexivity|]. split; [reflexivity|]. split; [reflexivity|].
  destruct (@fix_mermaid_syntax_keeps_lines ascii_isalnum
              (lit "flowchart TD" ++ [NL] ++ lit "  my node [Label] ----> B;;"))
    as (Hlen & _ & _ & Hcontent); [reflexivity|reflexivity|].
  split; [exact Hlen|exact Hcontent].
Defined.

(** ** Repairing a repaired diagram *)

(** The ASCII table of [str.isalnum] has no whitespace and no punctuation. *)
Lemma ascii_isalnum_not_space (c : char) :
  isspace c = true -> ascii_isalnum c = false.
Proof.
  intros H. destruct (ascii_isalnum c) eqn:E; [exfalso|reflexivity].
  unfold isspace in H. unfold ascii_isalnum in E.
  unfold char in c.
  rewrite ?orb_true_iff, ?andb_true_iff, ?N.leb_le, ?N.eqb_eq in H.
  rewrite ?orb_true_iff, ?andb_true_iff, ?N.leb_le in E. lia.
Qed.

Lemma ascii_isalnum_not_punct (c : char) :
  In c [DASH; DOT; EQUALS; GT; SEMI; BACKTICK] -> ascii_isalnum c = false.
Proof.
  intros H. destruct H as [<-|[<-|[<-|[<-|[<-|[<-|[]]]]]]]; reflexivity.
Qed.

(** Ordinary lines are settled: an edge with a labelled node, the arrow
    [===>], a two-word identifier before a bracket, long arrows, repeated
    semicolons. *)
Lemma settled_ordinary_lines :
  Forall (fun l => settled ascii_isalnum l = true)
    [lit "A --> B[x]"; lit "A ===> B"; lit "flowchart TD"; [];
     lit "  my node[Client app] ------> B[API server];;";
     lit "  C .....> A -===> D"; lit "%% a b c[x]";
     lit "subgraph one two three[x]"; lit "  end  "]
  /\ settled ascii_isalnum (lit "a b c[x]") = false
  /\ settled ascii_isalnum (lit "A --===> B") = false.
Proof.
  split; [|split; vm_compute; reflexivity].
  repeat (constructor; [vm_compute; reflexivity|]). constructor.
Qed.

Lemma fix_mermaid_syntax_idempotent_settled_witness :
  let s := lit "```mermaid" ++ [NL]
           ++ lit "flowchart TD" ++ [NL]
           ++ lit "  my node[Client app] ===> B[API server];;" ++ [NL]
           ++ lit "  B ------> C" ++ [NL]
           ++ lit "  C .....> A " ++ [NL]
           ++ lit "```" in
  Forall (fun l => settled ascii_isalnum l = true)
         (split_on NL (strip_fences (strip s)))
  /\ fix_mermaid_syntax ascii_isalnum s
     = lit "flowchart TD" ++ [NL]
       ++ lit "my_node[Client app] --> B[API server];" ++ [NL]
       ++ lit "B --> C" ++ [NL] ++ lit "C -..-> A"
  /\ fix_mermaid_syntax ascii_isalnum (fix_mermaid_syntax ascii_isalnum s)
     = fix_mermaid_syntax ascii_isalnum s.
Proof.
  cbv zeta.
  assert (Forall (fun l => settled ascii_isalnum l = true)
            (split_on NL
               (strip_fences
                  (strip (lit "```mermaid" ++ [NL]
                          ++ lit "flowchart TD" ++ [NL]
                          ++ lit "  my node[Client app] ===> B[API server];;"
                          ++ [NL] ++ lit "  B ------> C" ++ [NL]
                          ++ lit "  C .....> A " ++ [NL] ++ lit "```")))))
    as Hsettled.
  { apply Forall_forall. intros l Hl. vm_compute in Hl.
    repeat (destruct Hl as [<-|Hl]; [vm_compute; reflexivity|]).
    destruct Hl. }
  split; [exact Hsettled|].
  split; [vm_compute; reflexivity|].
  exact (@fix_mermaid_syntax_idempotent_settled ascii_isalnum
            ascii_isalnum_not_space ascii_isalnum_not_punct _ Hsettled).
Defined.
